(** * Bloodhound Relations: the relation graph engine of [bhrelations/api.py]

    A shallow embedding of [RelationsSystem] (resource ids, relation ids,
    the add/delete protocol over the relation table, the validators, the
    cycle search and the blocker search) and the properties proved of it. *)

From stdpp Require Import gmap strings list sorting relations.
From Stdlib Require Import Ascii String ZArith DecimalString DecimalZ DecimalPos.

Open Scope string_scope.
Open Scope list_scope.

(** ** Python outcomes *)

(** The exceptions the modelled code can raise. [RuntimeError] is the
    interpreter's "maximum recursion depth exceeded"; [DuplicateRelation] is
    the store's unique-key violation; [ResourceNotFound] is what trac's
    [Ticket(env, tkt_id)] raises when the environment has no such ticket. *)
Inductive exn : Type :=
| ValidationError (msg : string)
| TracError (msg : string)
| KeyError (key : string)
| NameError (name : string)
| ValueError
| TypeError
| RuntimeError
| DuplicateRelation
| ResourceNotFound.

Inductive result (A : Type) : Type :=
| Ok (a : A)
| Raise (e : exn).
Arguments Ok {A} a.
Arguments Raise {A} e.

Definition bind {A B} (m : result A) (k : A → result B) : result B :=
  match m with
  | Ok a => k a
  | Raise e => Raise e
  end.

Notation "x ←! m ; k" := (bind m (fun x => k))
  (at level 100, m at next level, right associativity, only parsing).

(** [[f(x) for x in l]]: the first exception aborts the comprehension. *)
Fixpoint comprehension {A B} (f : A → result B) (l : list A) : result (list B) :=
  match l with
  | [] => Ok []
  | x :: l' => y ←! f x; ys ←! comprehension f l'; Ok (y :: ys)
  end.

(** [d[k]] on a dict with string keys. *)
Definition getitem {V} (d : gmap string V) (k : string) : result V :=
  match d !! k with
  | Some v => Ok v
  | None => Raise (KeyError k)
  end.

(** ** [str.split] and [str.join] for a one-character separator *)

Module Str.

Fixpoint split (sep : ascii) (s : string) : list string :=
  match s with
  | EmptyString => [EmptyString]
  | String c s' =>
      if Ascii.eqb c sep then EmptyString :: split sep s'
      else match split sep s' with
           | [] => [String c EmptyString]
           | w :: ws => String c w :: ws
           end
  end.

Fixpoint join (sep : string) (l : list string) : string :=
  match l with
  | [] => EmptyString
  | [w] => w
  | w :: ws => w +:+ sep +:+ join sep ws
  end.

(** [sep not in s] *)
Fixpoint contains (sep : ascii) (s : string) : bool :=
  match s with
  | EmptyString => false
  | String c s' => Ascii.eqb c sep || contains sep s'
  end.

End Str.

(** ** Class constants of [RelationsSystem] *)

Definition PARENT_RELATION_TYPE : string := "parent".
Definition RESOURCE_ID_DELIMITER : ascii := ":"%char.
Definition RELATION_ID_DELIMITER : ascii := ","%char.

Definition delimiter (d : ascii) : string := String d EmptyString.

(** ** Resources and relations *)

(** What [get_resource_id_from_instance] reads of a resource instance:
    the prefix [ResourceSystem.neighborhood_prefix] gives for the resource's
    neighborhood (empty for the global environment), the realm, and
    [unicode(resource.id)]. *)
Module Resource.
Record t : Type := Build {
  neighborhood_prefix : string;
  realm : string;
  id : string
}.
End Resource.

(** A [Relation] object: the key fields and the comment. *)
Record Relation : Type := {
  source : string;
  destination : string;
  type : string;
  comment : option string
}.

(** The table [bloodhound_relations], rows in insertion order. *)
Abbreviation store := (list Relation).

Definition same_key (r1 r2 : Relation) : bool :=
  String.eqb (source r1) (source r2)
  && String.eqb (destination r1) (destination r2)
  && String.eqb (type r1) (type r2).

Inductive column : Type := col_type | col_destination.

Definition column_value (c : column) (r : Relation) : string :=
  match c with
  | col_type => type r
  | col_destination => destination r
  end.

(** [ORDER BY cols]: lexicographic on the listed columns. *)
Fixpoint order_leb (cols : list column) (r1 r2 : Relation) : bool :=
  match cols with
  | [] => true
  | c :: cols' =>
      match String.compare (column_value c r1) (column_value c r2) with
      | Lt => true
      | Gt => false
      | Eq => order_leb cols' r1 r2
      end
  end.

Definition order_le (cols : list column) : relation Relation :=
  λ r1 r2, Is_true (order_leb cols r1 r2).

Global Instance order_le_dec cols r1 r2 : Decision (order_le cols r1 r2).
Proof. unfold order_le. apply _. Defined.

(** A [where] dict: the code always selects on [source], sometimes also on
    [type]. *)
Record where_clause : Type := {
  where_source : string;
  where_type : option string
}.

Definition matches (w : where_clause) (r : Relation) : bool :=
  String.eqb (source r) (where_source w)
  && match where_type w with
     | Some t => String.eqb (type r) t
     | None => true
     end.

(** Modelled from the spec: [bhrelations/model.py] (class [Relation]) is not
    part of the sources. Section 4.3: [insert] persists the triple and fails
    with [DuplicateRelation] if the (source, destination, type) triple
    already exists. *)
Definition Relation_insert (st : store) (r : Relation) : result store :=
  if existsb (same_key r) st then Raise DuplicateRelation else Ok (st ++ [r]).

(** Modelled from the spec: section 4.3, [delete] removes the matching
    row(s); deleting a relation that is not stored is a no-op. *)
Definition Relation_delete (st : store) (r : Relation) : store :=
  List.filter (λ row, negb (same_key row r)) st.

(** Modelled from the spec: section 4.3, select by equality on the [where]
    columns, ordered by the [order_by] columns. *)
Definition Relation_select (st : store) (w : where_clause)
    (order_by : list column) : list Relation :=
  merge_sort (order_le order_by) (List.filter (matches w) st).

(** Modelled from the spec: [Relation(env, keys=dict(source=, destination=,
    type=))] addresses the row with that key (sections 3 and 4.7). *)
Definition Relation_keys (s d t : string) : Relation :=
  {| source := s; destination := d; type := t; comment := None |}.

(** Modelled from the spec: [clone_reverted], section 4.7: the reverse
    relation has the endpoints swapped and the paired type; being a clone it
    keeps the comment. *)
Definition clone_reverted (r : Relation) (other_end : string) : Relation :=
  {| source := destination r; destination := source r;
     type := other_end; comment := comment r |}.

(** ** The environment and the configured component *)

(** The collaborators outside the repository that the component calls.
    Environments are identified by their product prefix, the global
    environment by the empty one. [get_resource_shortname] is trac's
    function of that name on [Resource(env, realm, id)]. [ticket_status]
    is what [Ticket(env, id)] loads: the [status] field of the ticket with
    that id in that environment, or [None] when the environment has no such
    ticket. *)
Record Environment : Type := {
  get_resource_shortname : string → string → string → string;
  ticket_status : string → string → option string
}.

(** [self]: the environment and what [_get_links_config] returned. *)
Record RelationsSystem : Type := {
  env : Environment;
  _links : list (string * option string);
  _labels : gmap string string;
  _validators : gmap string string;
  _blockers : gmap string bool;
  _copy_fields : gmap string (list string)
}.

Definition get_ends (self : RelationsSystem) : list (string * option string) :=
  _links self.

(** [__init__]: the loop that fills [link_ends_map]. *)
Definition init_link_ends_map (ends : list (string * option string))
    : gmap string (option string) :=
  fold_left
    (λ m '(end1, end2),
       let m := <[end1 := end2]> m in
       match end2 with
       | Some e2 => <[e2 := Some end1]> m
       | None => m
       end)
    ends ∅.

Definition link_ends_map (self : RelationsSystem) : gmap string (option string) :=
  init_link_ends_map (get_ends self).

(** Truth value of an [other_end]: [None] and the empty string are false. *)
Definition truthy (o : option string) : option string :=
  match o with
  | Some EmptyString => None
  | _ => o
  end.

(** [o == s] for [o] the result of a [dict.get]. *)
Definition is_str (o : option string) (s : string) : bool :=
  match o with
  | Some v => String.eqb v s
  | None => false
  end.

(** A [Ticket(env, resource_id)] of the environment with prefix
    [ticket_prefix]; its resource has realm ["ticket"]. *)
Record Ticket : Type := {
  ticket_prefix : string;
  ticket_id : string
}.

(** Positional arguments at a call of [find_blockers]. *)
Inductive pyarg : Type :=
| arg_relation (r : Relation)
| arg_list (l : list Ticket).

(** What a consumer that exhausts a generator sees: the items yielded, and
    the exception that ended the iteration, if one did. *)
Definition generated (A : Type) : Type := (list A * option exn)%type.

(** [for x in l: r = body(x); if r is not None: return r] then
    [return None]. *)
Fixpoint first_not_None {A B} (body : A → result (option B)) (l : list A)
    : result (option B) :=
  match l with
  | [] => Ok None
  | x :: l' =>
      r ←! body x;
      match r with
      | Some b => Ok (Some b)
      | None => first_not_None body l'
      end
  end.

Section RelationsSystem.

Context (self : RelationsSystem).

(** *** Resource ids *)

Definition get_resource_id_from_instance (resource : Resource.t) : string :=
  Str.join (delimiter RESOURCE_ID_DELIMITER)
    [Resource.neighborhood_prefix resource;
     Resource.realm resource;
     Resource.id resource].

Definition split_full_id (resource_full_id : string) : list string :=
  Str.split RESOURCE_ID_DELIMITER resource_full_id.

(** [_get_env_by_prefix], returning the prefix of the environment it
    finds. For a prefix that counts as true the code evaluates
    [ProductEnvironment(nbhprefix)], the prefix being the only argument.
    The class (multiproduct/env.py) is not part of the sources; its callers
    in tests/env.py construct it as [ProductEnvironment(env, product)], and
    [test_typecheck] there shows that it raises [TypeError] when the first
    argument is not a trac environment. A call with the prefix alone
    therefore raises [TypeError], whichever of the two is checked first.
    For the empty prefix the result is [self.env.parent] or, without a
    parent, [self.env]: the global environment in both cases. *)
Definition _get_env_by_prefix (nbhprefix : string) : result string :=
  match nbhprefix with
  | String _ _ => Raise TypeError
  | EmptyString => Ok EmptyString
  end.

(** [_get_resource_by_id]: unpacking the split into three names raises
    [ValueError] on any other length. The result stands for
    [Resource(env, realm, resource_id)]. *)
Definition _get_resource_by_id (resource_full_id : string)
    : result (string * string * string) :=
  match split_full_id resource_full_id with
  | [nbhprefix; realm; resource_id] =>
      resource_env ←! _get_env_by_prefix nbhprefix;
      Ok (resource_env, realm, resource_id)
  | _ => Raise ValueError
  end.

Definition _get_resource_name_from_id (resource_id : string) : result string :=
  resource ←! _get_resource_by_id resource_id;
  let '(resource_env, realm, resource_id) := resource in
  Ok (get_resource_shortname (env self) resource_env realm resource_id).

(** [_create_resource_by_ids]: [Ticket(env, resource_id)] raises
    [ResourceNotFound] when the environment has no ticket with that id. In
    the [else] branch the operator [%] is applied to a literal without a
    conversion, which raises [TypeError] before [TracError] is
    constructed. *)
Definition _create_resource_by_ids (nbhprefix realm resource_id : string)
    : result Ticket :=
  resource_env ←! _get_env_by_prefix nbhprefix;
  if String.eqb realm "ticket"
  then match ticket_status (env self) resource_env resource_id with
       | Some _ =>
           Ok {| ticket_prefix := resource_env; ticket_id := resource_id |}
       | None => Raise ResourceNotFound
       end
  else Raise TypeError.

Definition _create_resource_instance_by_full_id (resource_full_id : string)
    : result Ticket :=
  match split_full_id resource_full_id with
  | [nbhprefix; realm; resource_id] =>
      _create_resource_by_ids nbhprefix realm resource_id
  | _ => Raise ValueError
  end.

(** *** Relation ids *)

Definition _create_relation_id (relation : Relation) : string :=
  Str.join (delimiter RELATION_ID_DELIMITER)
    [source relation; destination relation; type relation].

Definition _parse_relation_id (relation_id : string)
    : result (string * string * string) :=
  match Str.split RELATION_ID_DELIMITER relation_id with
  | [source; destination; relation_type] =>
      Ok (source, destination, relation_type)
  | _ => Raise ValueError
  end.

(** *** Queries *)

Definition _select_relations_by_source (st : store) (source : string)
    (resource_type : option string) : list Relation :=
  match truthy resource_type with
  | Some t =>
      Relation_select st {| where_source := source; where_type := Some t |}
        [col_destination]
  | None =>
      Relation_select st {| where_source := source; where_type := None |}
        [col_type; col_destination]
  end.

Definition _select_relations_for_resource (st : store)
    (resource : Resource.t) (resource_type : option string)
    : list Relation :=
  _select_relations_by_source st (get_resource_id_from_instance resource)
    resource_type.

(** *** Validators *)

Definition render_relation_type (end_ : string) : result string :=
  getitem (_labels self) end_.

(** [depth] is the number of nested calls the interpreter still allows;
    exceeding it raises [RuntimeError]. *)
Fixpoint _find_cycle (depth : nat) (st : store) (source_to_check : string)
    (relation : Relation) (path : list string)
    : result (option (list string)) :=
  match depth with
  | O => Raise RuntimeError
  | S depth' =>
      let destination := destination relation in
      if String.eqb source_to_check destination
      then Ok (Some (path ++ [destination]))
      else
        let path := path ++ [destination] in
        let relations :=
          Relation_select st
            {| where_source := destination;
               where_type := Some (type relation) |}
            [col_destination] in
        first_not_None
          (λ linked_relation,
             _find_cycle depth' st source_to_check linked_relation path)
          relations
  end.

Definition _validate_no_cycle (depth : nat) (st : store)
    (relation : Relation) : result (option string) :=
  cycle ←! _find_cycle depth st (source relation) relation [];
  match cycle with
  | Some cycle =>
      cycle_str ←! comprehension _get_resource_name_from_id cycle;
      label ←! render_relation_type (type relation);
      Ok (Some ("Cycle in " +:+ label +:+ ": "
                +:+ Str.join " -> " cycle_str))
  | None => Ok None
  end.

(** The list comprehension over [parent_relations] rebinds [relation]
    (Python 2 scoping), so the label rendered afterwards is that of the
    last selected row. *)
Definition _validate_parent (depth : nat) (st : store)
    (relation : Relation) : result (option string) :=
  cycle_validation ←! _validate_no_cycle depth st relation;
  match cycle_validation with
  | Some (String _ _ as msg) => Ok (Some msg)
  | _ =>
      if String.eqb (type relation) PARENT_RELATION_TYPE then
        let parent_relations :=
          _select_relations_by_source st (source relation)
            (Some (type relation)) in
        match parent_relations with
        | [] => Ok None
        | _ :: _ =>
            source_resource_name ←!
              _get_resource_name_from_id (source relation);
            parent_ids ←!
              comprehension
                (λ relation, _get_resource_name_from_id (destination relation))
                parent_relations;
            let relation := List.last parent_relations relation in
            label ←! render_relation_type (type relation);
            Ok (Some ("Multiple links in '" +:+ label +:+ "': #"
                      +:+ source_resource_name +:+ " -> ["
                      +:+ Str.join ", " parent_ids +:+ "]"))
        end
      else Ok None
  end.

Definition _validate_any (depth : nat) (st : store) (relation : Relation)
    : result (option string) :=
  Ok None.

Definition _get_validator (relation_type : string)
    : nat → store → Relation → result (option string) :=
  let validator_name := _validators self !! relation_type in
  if is_str validator_name "no_cycle" then _validate_no_cycle
  else if is_str validator_name "parent_child"
            && String.eqb relation_type PARENT_RELATION_TYPE
  then _validate_parent
  else _validate_any.

Definition validate (depth : nat) (st : store) (relation : Relation)
    : result unit :=
  let validator := _get_validator (type relation) in
  result ←! validator depth st relation;
  match result with
  | Some reason => Raise (ValidationError reason)
  | None => Ok tt
  end.

(** *** Adding and deleting *)

(** The [with self.env.db_transaction] block: an exception inside it rolls
    the table back to its state at entry. *)
Definition add_relation (depth : nat) (st : store) (relation : Relation)
    : result unit * store :=
  match validate depth st relation with
  | Raise e => (Raise e, st)
  | Ok _ =>
      let transaction :=
        st1 ←! Relation_insert st relation;
        other_end ←! getitem (link_ends_map self) (type relation);
        match truthy other_end with
        | Some other_end =>
            let reverted_relation := clone_reverted relation other_end in
            Relation_insert st1 reverted_relation
        | None => Ok st1
        end in
      match transaction with
      | Ok st' => (Ok tt, st')
      | Raise e => (Raise e, st)
      end
  end.

(** [add] has no [return] statement: its value is [None] whenever it does
    not raise. *)
Definition add (depth : nat) (st : store)
    (source_resource_instance destination_resource_instance : Resource.t)
    (relation_type : string) (comment : option string)
    : result (option string) * store :=
  let source := get_resource_id_from_instance source_resource_instance in
  let destination :=
    get_resource_id_from_instance destination_resource_instance in
  let relation :=
    {| source := source; destination := destination;
       type := relation_type; comment := comment |} in
  match add_relation depth st relation with
  | (Ok _, st') => (Ok None, st')
  | (Raise e, st') => (Raise e, st')
  end.

Definition _delete_relation (st : store) (relation : Relation)
    : result unit * store :=
  let source := source relation in
  let destination := destination relation in
  let relation_type := type relation in
  let transaction :=
    let st1 := Relation_delete st relation in
    other_end ←! getitem (link_ends_map self) relation_type;
    match truthy other_end with
    | Some other_end =>
        let reverted_relation :=
          Relation_keys destination source other_end in
        Ok (Relation_delete st1 reverted_relation)
    | None => Ok st1
    end in
  match transaction with
  | Ok st' => (Ok tt, st')
  | Raise e => (Raise e, st)
  end.

Definition delete (st : store) (relation_id : string)
    : result unit * store :=
  match _parse_relation_id relation_id with
  | Raise e => (Raise e, st)
  | Ok (source, destination, relation_type) =>
      let relation := Relation_keys source destination relation_type in
      _delete_relation st relation
  end.

(** *** Blockers *)

Definition is_blocker (relation_type : string) : result bool :=
  getitem (_blockers self) relation_type.

(** A [Ticket] always has realm ["ticket"], so only the first branch of
    [_is_resource_blocked] applies to it; [ticket['status']] is the status
    that the ticket was loaded with. *)
Definition _is_resource_blocked (resource_instance : Ticket) : bool :=
  negb (is_str
          (ticket_status (env self) (ticket_prefix resource_instance)
             (ticket_id resource_instance))
          "closed").

(** [find_blockers(self, relation, blockers)]: [blockers] is appended to in
    place and returned. *)
Fixpoint find_blockers (depth : nat) (st : store) (relation : Relation)
    (blockers : list Ticket) : result (list Ticket) :=
  match depth with
  | O => Raise RuntimeError
  | S depth' =>
      (fix loop (relations : list Relation) (blockers : list Ticket)
         : result (list Ticket) :=
         match relations with
         | [] => Ok blockers
         | linked_relation :: relations' =>
             resource_instance ←!
               _create_resource_instance_by_full_id
                 (destination linked_relation);
             if _is_resource_blocked resource_instance
             then loop relations' (blockers ++ [resource_instance])
             else
               blockers ←! find_blockers depth' st linked_relation blockers;
               loop relations' blockers
         end)
        (_select_relations_by_source st (destination relation) None)
        blockers
  end.

(** A call [self.find_blockers(...)]: the method takes exactly two
    arguments after [self]; any other call raises [TypeError]. *)
Definition call_find_blockers (depth : nat) (st : store)
    (args : list pyarg) : result (list Ticket) :=
  match args with
  | [arg_relation relation; arg_list blockers] =>
      find_blockers depth st relation blockers
  | _ => Raise TypeError
  end.

(** The body of the generator [can_be_resolved] over the selected
    relations. The call on line 338 passes one argument; the message on
    lines 342-344 reads the unbound name [end] before anything is
    yielded. *)
Fixpoint can_be_resolved_loop (depth : nat) (st : store)
    (relations : list Relation) : generated (option string * string) :=
  match relations with
  | [] => ([], None)
  | relation :: relations' =>
      match is_blocker (type relation) with
      | Raise e => ([], Some e)
      | Ok false => can_be_resolved_loop depth st relations'
      | Ok true =>
          match call_find_blockers depth st [arg_relation relation] with
          | Raise e => ([], Some e)
          | Ok [] => can_be_resolved_loop depth st relations'
          | Ok (_ :: _) => ([], Some (NameError "end"))
          end
      end
  end.

Definition can_be_resolved (depth : nat) (st : store)
    (resource : Resource.t) : generated (option string * string) :=
  can_be_resolved_loop depth st
    (_select_relations_for_resource st resource None).

End RelationsSystem.

(** ** Configurations and resources of the scenarios *)

(** [parent = parent, child] with [parent.validator = parent_child]. *)
Definition parent_child_system (e : Environment) : RelationsSystem :=
  {| env := e;
     _links := [("parent", Some "child")];
     _labels := {[ "parent" := "Parent"; "child" := "Child" ]};
     _validators :=
       {[ "parent" := "parent_child"; "child" := "parent_child" ]};
     _blockers := {[ "parent" := false; "child" := false ]};
     _copy_fields := ∅ |}.

(** [blocks = blocks, blocked_by] with [blocks.blocks = true]. *)
Definition blocks_system (e : Environment) : RelationsSystem :=
  {| env := e;
     _links := [("blocks", Some "blocked_by")];
     _labels := {[ "blocks" := "Blocks"; "blocked_by" := "Blocked_by" ]};
     _validators := ∅;
     _blockers := {[ "blocks" := true; "blocked_by" := false ]};
     _copy_fields := ∅ |}.

(** [dependson = dependson] (no reverse end) with
    [dependson.validator = no_cycle]. *)
Definition dependson_system (e : Environment) : RelationsSystem :=
  {| env := e;
     _links := [("dependson", None)];
     _labels := {[ "dependson" := "Dependson" ]};
     _validators := {[ "dependson" := "no_cycle" ]};
     _blockers := {[ "dependson" := false ]};
     _copy_fields := ∅ |}.

(** [dependson = dependson, dependson] with
    [dependson.validator = no_cycle]: a link whose two ends have the same
    name. *)
Definition dependson_both_ends_system (e : Environment) : RelationsSystem :=
  {| env := e;
     _links := [("dependson", Some "dependson")];
     _labels := {[ "dependson" := "Dependson" ]};
     _validators := {[ "dependson" := "no_cycle" ]};
     _blockers := {[ "dependson" := false ]};
     _copy_fields := ∅ |}.

(** Ticket [n] of the global environment. *)
Definition ticket (n : string) : Resource.t :=
  Resource.Build "" "ticket" n.

(** Ticket [n] of the product with prefix [p]. *)
Definition product_ticket (p n : string) : Resource.t :=
  Resource.Build p "ticket" n.

(** An environment in which tickets are named [#id], every id names a
    ticket, and the tickets have the status given by [status]. *)
Definition ticket_env (status : string → string) : Environment :=
  {| get_resource_shortname := λ _ _ resource_id, "#" +:+ resource_id;
     ticket_status := λ _ resource_id, Some (status resource_id) |}.

(** The rows of the scenarios: relation [t] from ticket [a] to ticket [b]
    of the global environment, without a comment. *)
Definition row (a b t : string) : Relation :=
  {| source := get_resource_id_from_instance (ticket a);
     destination := get_resource_id_from_instance (ticket b);
     type := t; comment := None |}.

(** The same between tickets [a] and [b] of the product with prefix [p]. *)
Definition product_row (p a b t : string) : Relation :=
  {| source := get_resource_id_from_instance (product_ticket p a);
     destination := get_resource_id_from_instance (product_ticket p b);
     type := t; comment := None |}.

(** ** The vocabulary of the properties *)

(** A stored row of type [t] from [x] to [y]. *)
Definition edge (st : store) (t : string) : relation string :=
  λ x y, ∃ r, r ∈ st ∧ source r = x ∧ destination r = y ∧ type r = t.

(** A path of stored rows, all of type [t] (possibly of length zero). *)
Definition same_type_path (st : store) (t : string) : relation string :=
  rtc (edge st t).

(** Consecutive members of [l] are joined by rows of type [t]. *)
Fixpoint chain (st : store) (t : string) (l : list string) : Prop :=
  match l with
  | x :: ((y :: _) as l') => edge st t x y ∧ chain st t l'
  | _ => True
  end.

(** A full id of the global environment: the empty prefix, a realm and a
    local id. *)
Definition global_id (resource_id : string) : Prop :=
  ∃ realm local_id,
    split_full_id resource_id = [EmptyString; realm; local_id].

(** A full id of a product: a prefix that is not empty, a realm and a
    local id. *)
Definition product_id (resource_id : string) : Prop :=
  ∃ c nbhprefix realm local_id,
    split_full_id resource_id = [String c nbhprefix; realm; local_id].

(** The name of the resource with a full id of the global environment. *)
Definition resource_name (e : Environment) (resource_id : string) : string :=
  match split_full_id resource_id with
  | [nbhprefix; realm; local_id] =>
      get_resource_shortname e nbhprefix realm local_id
  | _ => EmptyString
  end.

(** The full id of a ticket that the global environment has. *)
Definition existing_ticket (e : Environment) (resource_id : string) : Prop :=
  ∃ n, split_full_id resource_id = [EmptyString; "ticket"; n]
       ∧ is_Some (ticket_status e EmptyString n).

(** From [x] no resource that lies on a cycle of rows of type [t] can be
    reached. *)
Definition acyclic_from (st : store) (t : string) (x : string) : Prop :=
  ∀ z, rtc (edge st t) x z → ¬ tc (edge st t) z z.

(** [t] and [t'] are the two ends of one link: each names the other in
    [link_ends_map], and both count as true. *)
Definition paired (self : RelationsSystem) (t t' : string) : Prop :=
  link_ends_map self !! t = Some (Some t')
  ∧ link_ends_map self !! t' = Some (Some t)
  ∧ t ≠ EmptyString ∧ t' ≠ EmptyString.

(** [t] is configured and has no other end. *)
Definition unpaired (self : RelationsSystem) (t : string) : Prop :=
  ∃ o, link_ends_map self !! t = Some o ∧ truthy o = None.

(** All end names that the configured links mention, in order. *)
Definition end_names (ends : list (string * option string)) : list string :=
  flat_map (λ '(end1, end2), end1 :: option_list end2) ends.

(** No row of [st] has the key of [r]. *)
Definition fresh (st : store) (r : Relation) : Prop :=
  existsb (same_key r) st = false.

(** ** Further operations of [RelationsSystem] *)

(** [unique]: the generator keeps an element when it is not in [seen], and
    adds it to [seen] as it does. *)
Fixpoint unique_from `{Countable A} (seen : gset A) (seq : list A) : list A :=
  match seq with
  | [] => []
  | x :: seq' =>
      if decide (x ∈ seen) then unique_from seen seq'
      else x :: unique_from ({[x]} ∪ seen) seq'
  end.

Definition unique `{Countable A} (seq : list A) : list A :=
  unique_from ∅ seq.

(** One dict of the list [get_relations] returns. *)
Record relation_entry : Type := {
  entry_relation_id : string;
  entry_destination_id : string;
  entry_destination : Ticket;
  entry_type : string;
  entry_comment : option string
}.

(** [get_relations]: the rows leaving the resource, in the order of the
    select; building the destination instance can raise. *)
Definition get_relations (self : RelationsSystem) (st : store)
    (resource_instance : Resource.t) : result (list relation_entry) :=
  comprehension
    (λ relation,
       let relation_id := _create_relation_id relation in
       instance ←!
         _create_resource_instance_by_full_id self (destination relation);
       Ok {| entry_relation_id := relation_id;
             entry_destination_id := destination relation;
             entry_destination := instance;
             entry_type := type relation;
             entry_comment := comment relation |})
    (_select_relations_for_resource st resource_instance None).

(** The [for] loop of [find_blockers], over the recursive call [rec]. *)
Definition find_blockers_loop (self : RelationsSystem)
    (rec : Relation → list Ticket → result (list Ticket))
    : list Relation → list Ticket → result (list Ticket) :=
  fix loop (relations : list Relation) (blockers : list Ticket)
    : result (list Ticket) :=
    match relations with
    | [] => Ok blockers
    | linked_relation :: relations' =>
        resource_instance ←!
          _create_resource_instance_by_full_id self
            (destination linked_relation);
        if _is_resource_blocked self resource_instance
        then loop relations' (blockers ++ [resource_instance])
        else
          blockers ←! rec linked_relation blockers;
          loop relations' blockers
    end.

(** ** [_get_links_config] *)

(** The section [bhrelations_links] of the configuration, as the methods
    of trac's [Section] that the component calls: [options()] (names with
    values, in order), [get(key)], [getbool(key, default)], [getlist(key)]
    and [key in config]. *)
Record ConfigSection : Type := {
  config_options : list (string * string);
  config_get : string → string;
  config_getbool : string → bool → bool;
  config_getlist : string → list string;
  config_contains : string → bool
}.

(** What [_get_links_config] returns. *)
Record LinksConfig : Type := {
  cfg_links : list (string * option string);
  cfg_labels : gmap string string;
  cfg_validators : gmap string string;
  cfg_blockers : gmap string bool;
  cfg_copy_fields : gmap string (list string)
}.

(** Truth value of a string. *)
Definition str_true (s : string) : bool :=
  match s with
  | EmptyString => false
  | String _ _ => true
  end.

Section _get_links_config.

(** [str.strip] and [str.capitalize]. *)
Context (strip capitalize : string → string).
Context (config : ConfigSection).

(** [<end>.copy_fields] for one [end] of the loop over [[end1, end2]]. *)
Definition copy_fields_of_end (end_ : option string)
    (copy_fields : gmap string (list string)) : gmap string (list string) :=
  match truthy end_ with
  | Some e =>
      let cf_key := e +:+ ".copy_fields" in
      if config_contains config cf_key
      then <[e := config_getlist config cf_key]> copy_fields
      else copy_fields
  | None => copy_fields
  end.

(** The body of the loop for the option [name]. *)
Definition _get_links_config_step (acc : LinksConfig) (name : string)
    : LinksConfig :=
  let ends := strip <$> Str.split ","%char (config_get config name) in
  match ends with
  | [] => acc
  | end1 :: rest =>
      let end2 := head rest in
      let links := cfg_links acc ++ [(end1, end2)] in
      let label1 :=
        if str_true (config_get config (end1 +:+ ".label"))
        then config_get config (end1 +:+ ".label") else capitalize end1 in
      let labels := <[end1 := label1]> (cfg_labels acc) in
      let labels :=
        match truthy end2 with
        | Some e2 =>
            let label2 :=
              if str_true (config_get config (e2 +:+ ".label"))
              then config_get config (e2 +:+ ".label") else capitalize e2 in
            <[e2 := label2]> labels
        | None => labels
        end in
      let validator := config_get config (name +:+ ".validator") in
      let validators :=
        if str_true validator then
          let validators := <[end1 := validator]> (cfg_validators acc) in
          match truthy end2 with
          | Some e2 => <[e2 := validator]> validators
          | None => validators
          end
        else cfg_validators acc in
      let blockers :=
        <[end1 := config_getbool config (end1 +:+ ".blocks") false]>
          (cfg_blockers acc) in
      let blockers :=
        match truthy end2 with
        | Some e2 =>
            <[e2 := config_getbool config (e2 +:+ ".blocks") false]> blockers
        | None => blockers
        end in
      let copy_fields :=
        copy_fields_of_end end2
          (copy_fields_of_end (Some end1) (cfg_copy_fields acc)) in
      {| cfg_links := links; cfg_labels := labels;
         cfg_validators := validators; cfg_blockers := blockers;
         cfg_copy_fields := copy_fields |}
  end.

(** The options without a [.] in their name, in order. *)
Definition link_option_names : list string :=
  List.filter (λ option, negb (Str.contains "."%char option))
    (fst <$> config_options config).

Definition _get_links_config : LinksConfig :=
  fold_left _get_links_config_step link_option_names
    {| cfg_links := []; cfg_labels := ∅; cfg_validators := ∅;
       cfg_blockers := ∅; cfg_copy_fields := ∅ |}.

(** [__init__]: the component with what [_get_links_config] returned. *)
Definition RelationsSystem_init (e : Environment) : RelationsSystem :=
  {| env := e;
     _links := cfg_links _get_links_config;
     _labels := cfg_labels _get_links_config;
     _validators := cfg_validators _get_links_config;
     _blockers := cfg_blockers _get_links_config;
     _copy_fields := cfg_copy_fields _get_links_config |}.

(** The link that the option [name] declares. *)
Definition link_of_option (name : string) : string * option string :=
  let parts := Str.split ","%char (config_get config name) in
  (strip (List.hd EmptyString parts), strip <$> head (List.tl parts)).

End _get_links_config.

(** The ends that get a label and a blocking flag: every first end, and
    every second end that counts as true. *)
Definition labelled_ends (links : list (string * option string))
    : list string :=
  flat_map (λ '(end1, end2), end1 :: option_list (truthy end2)) links.

(** The keys of the labels and of the blocking flags are the labelled ends
    of the links; validators and copy fields have keys among them. *)
Definition links_config_keys (cfg : LinksConfig) : Prop :=
  (∀ t, is_Some (cfg_labels cfg !! t) ↔ t ∈ labelled_ends (cfg_links cfg))
  ∧ (∀ t, is_Some (cfg_blockers cfg !! t)
          ↔ t ∈ labelled_ends (cfg_links cfg))
  ∧ (∀ t, is_Some (cfg_validators cfg !! t)
          → t ∈ labelled_ends (cfg_links cfg))
  ∧ (∀ t, is_Some (cfg_copy_fields cfg !! t)
          → t ∈ labelled_ends (cfg_links cfg)).

(** A configuration section given by its options alone, with trac's
    defaults: [get] of a missing option is the empty string, [getbool] of a
    missing option is the default and of a present one whether it is
    ["true"], [getlist] splits on [,]. *)
Definition section_of_options (options : list (string * string))
    : ConfigSection :=
  let table : gmap string string := list_to_map options in
  {| config_options := options;
     config_get := λ key, default EmptyString (table !! key);
     config_getbool := λ key d,
       match table !! key with
       | Some v => String.eqb v "true"
       | None => d
       end;
     config_getlist := λ key,
       Str.split ","%char (default EmptyString (table !! key));
     config_contains := λ key, bool_decide (is_Some (table !! key)) |}.

(** [str.strip] and [str.capitalize] on ASCII text, for the examples. *)
Fixpoint ascii_lstrip (s : string) : string :=
  match s with
  | EmptyString => EmptyString
  | String c s' => if Ascii.is_space c then ascii_lstrip s' else s
  end.

Definition ascii_strip (s : string) : string :=
  String.rev (ascii_lstrip (String.rev (ascii_lstrip s))).

Definition ascii_upper (c : ascii) : ascii :=
  let n := nat_of_ascii c in
  if (97 <=? n)%nat && (n <=? 122)%nat then ascii_of_nat (n - 32) else c.

Definition ascii_lower (c : ascii) : ascii :=
  let n := nat_of_ascii c in
  if (65 <=? n)%nat && (n <=? 90)%nat then ascii_of_nat (n + 32) else c.

Fixpoint ascii_map (f : ascii → ascii) (s : string) : string :=
  match s with
  | EmptyString => EmptyString
  | String c s' => String (f c) (ascii_map f s')
  end.

Definition ascii_capitalize (s : string) : string :=
  match s with
  | EmptyString => EmptyString
  | String c s' => String (ascii_upper c) (ascii_map ascii_lower s')
  end.

(** The section [blocks = blocks, blocked_by] with [blocks.blocks = true]
    and a validator. *)
Definition blocks_section : ConfigSection :=
  section_of_options
    [("blocks", "blocks, blocked_by");
     ("blocks.blocks", "true");
     ("blocks.validator", "no_cycle")].

(** ** [EnvironmentSetup] *)

(** What [EnvironmentSetup] can raise: [TracError], the [ValueError] of
    [int] on a stored value that is no number, and the errors of the
    database: on an [INSERT] of a name that the [system] table already
    holds, on an integer parameter that does not fit the database's
    integers, and on the creation of a table or index that exists. *)
Inductive setup_exn : Type :=
| SetupTracError (msg : string)
| SetupValueError
| SetupIntegrityError
| SetupOverflowError
| SetupOperationalError.

(** The part of the database that [EnvironmentSetup] touches: the rows
    (name, value) of the table [system], and the schema statements executed
    so far, in order. A schema statement creates a table or an index; the
    tables and indexes that exist are those whose statement is listed. *)
Record Database : Type := {
  system : gmap string string;
  statements : list string
}.

(** The integers that the database accepts as a statement parameter: the
    signed 64-bit range (sqlite3, trac's default backend, raises
    [OverflowError] outside it). *)
Definition fits_database_integer (z : Z) : bool :=
  (- 2 ^ 63 <=? z)%Z && (z <? 2 ^ 63)%Z.

(** [db(statement)] for a statement of the schema: the database refuses to
    create a table or an index that exists (sqlite3's [OperationalError],
    which [_upgrade_mp] in tests/env.py catches for the sibling plugin when
    the table remained and the version row did not). *)
Definition execute_create (db : Database) (statement : string)
    : setup_exn + Database :=
  if bool_decide (statement ∈ statements db) then inl SetupOperationalError
  else inr {| system := system db;
              statements := statements db ++ [statement] |}.

(** [for statement in ...: db(statement)]: the first failure ends the
    loop. *)
Fixpoint execute_creates (db : Database) (sql : list string)
    : setup_exn + Database :=
  match sql with
  | [] => inr db
  | statement :: sql' =>
      match execute_create db statement with
      | inl e => inl e
      | inr db' => execute_creates db' sql'
      end
  end.

Definition PLUGIN_NAME : string := "Bloodhound Relations Plugin".

Section EnvironmentSetup.

(** [db_default.DB_VERSION], [db_default.DB_SYSTEM_KEY] and the statements
    that the connector's [to_sql] gives for the tables of
    [db_default.SCHEMA], in order: the module [db_default] is not part of
    the sources. [int_of_text] is [int] on a stored value, [text_of_int] the
    text that formatting an integer into a statement stores. *)
Context (DB_VERSION : Z) (DB_SYSTEM_KEY : string) (schema_sql : list string).
Context (int_of_text : string → option Z) (text_of_int : Z → string).

Definition _get_version (db : Database) : setup_exn + Z :=
  match system db !! DB_SYSTEM_KEY with
  | Some value =>
      match int_of_text value with
      | Some version => inr version
      | None => inl SetupValueError
      end
  | None => inr (-1)%Z
  end.

Definition environment_needs_upgrade (db : Database) : setup_exn + bool :=
  match _get_version db with
  | inl e => inl e
  | inr db_installed_version =>
      let db_version := DB_VERSION in
      if (db_version <? db_installed_version)%Z
      then inl (SetupTracError
                  ("Current db version (" +:+ text_of_int db_installed_version
                   +:+ ") newer than supported by"
                   +:+ String "010"%char
                         ("            this version of the " +:+ PLUGIN_NAME
                          +:+ " (" +:+ text_of_int db_version +:+ ").")))
      else inr (db_installed_version <? db_version)%Z
  end.

(** [UPDATE] when a version is stored, [INSERT] otherwise. The [UPDATE]
    hands [version] to the database as a parameter of the statement, which
    fails for an integer that the database does not accept; the [INSERT]
    formats it into the text of the statement, and fails when the name is
    already there. *)
Definition _update_db_version (db : Database) (version : Z)
    : setup_exn + (Z * Database) :=
  match _get_version db with
  | inl e => inl e
  | inr old_version =>
      if bool_decide (old_version ≠ (-1)%Z)
      then
        if fits_database_integer version
        then inr (version,
                  {| system :=
                       <[DB_SYSTEM_KEY := text_of_int version]> (system db);
                     statements := statements db |})
        else inl SetupOverflowError
      else
        match system db !! DB_SYSTEM_KEY with
        | Some _ => inl SetupIntegrityError
        | None =>
            inr (version,
                 {| system :=
                      <[DB_SYSTEM_KEY := text_of_int version]> (system db);
                    statements := statements db |})
        end
  end.

(** The statements of every table of the schema are executed in order. *)
Definition _initialize_db (db : Database) : setup_exn + Database :=
  execute_creates db schema_sql.

(** The transaction: an exception leaves the database as it was, so only
    the exception is returned. *)
Definition upgrade_environment (db : Database) : setup_exn + Database :=
  match _get_version db with
  | inl e => inl e
  | inr db_installed_version =>
      if (db_installed_version <? 1)%Z then
        match _initialize_db db with
        | inl e => inl e
        | inr db1 =>
            match _update_db_version db1 1 with
            | inl e => inl e
            | inr (_, db') => inr db'
            end
        end
      else inr db
  end.

Definition environment_created (db : Database) : setup_exn + Database :=
  upgrade_environment db.

End EnvironmentSetup.

(** Decimal numerals for the stored version. *)
Definition decimal_of_Z (z : Z) : string :=
  DecimalString.NilZero.string_of_int (Z.to_int z).

Definition Z_of_decimal (s : string) : option Z :=
  option_map Z.of_int (DecimalString.NilZero.int_of_string s).

(** ** Further vocabulary *)

(** The key of a row. *)
Definition key (r : Relation) : string * string * string :=
  (source r, destination r, type r).

(** No two rows have the same key. *)
Definition unique_keys (st : store) : Prop := NoDup (key <$> st).

(** Every other end that counts as true points back. *)
Definition symmetric_pairing (self : RelationsSystem) : Prop :=
  ∀ t t', link_ends_map self !! t = Some (Some t') → t' ≠ EmptyString →
          link_ends_map self !! t' = Some (Some t) ∧ t ≠ EmptyString.

(** Every row of a type with another end has its reverse row stored. *)
Definition reverse_closed (self : RelationsSystem) (st : store) : Prop :=
  ∀ r t', r ∈ st →
          link_ends_map self !! type r = Some (Some t') → t' ≠ EmptyString →
          ∃ r', r' ∈ st ∧ same_key r' (clone_reverted r t') = true.

(** No resource reaches itself through one or more rows of type [t]. *)
Definition acyclic (st : store) (t : string) : Prop :=
  ∀ x, ¬ tc (edge st t) x x.

(** No resource is the source of two rows of type [t] with different
    destinations. *)
Definition single_destination (st : store) (t : string) : Prop :=
  ∀ r1 r2, r1 ∈ st → r2 ∈ st → type r1 = t → type r2 = t →
           source r1 = source r2 → destination r1 = destination r2.

(** A row from [x] to [y], of whatever type. *)
Definition any_edge (st : store) : relation string :=
  λ x y, ∃ r, r ∈ st ∧ source r = x ∧ destination r = y.

(** What makes a ticket a blocker found from resource [x]: it is not
    closed, and it is the destination of a stored row whose source is
    reached from [x] along stored rows. *)
Definition blocker_from (self : RelationsSystem) (st : store) (x : string)
    (t : Ticket) : Prop :=
  _is_resource_blocked self t = true
  ∧ ∃ r, r ∈ st
         ∧ split_full_id (destination r)
           = [ticket_prefix t; "ticket"; ticket_id t]
         ∧ rtc (any_edge st) x (source r).

(** A row from [x] to the id [y] of a closed ticket: the rows that the
    blocker search follows further. *)
Definition closed_edge (self : RelationsSystem) (st : store)
    : relation string :=
  λ x y, ∃ r t, r ∈ st ∧ source r = x ∧ destination r = y
                ∧ _create_resource_instance_by_full_id self y = Ok t
                ∧ _is_resource_blocked self t = false.

(** Number of occurrences of [sep] in [s]. *)
Fixpoint occurrences (sep : ascii) (s : string) : nat :=
  match s with
  | EmptyString => 0
  | String c s' => (if Ascii.eqb c sep then 1 else 0) + occurrences sep s'
  end.

(** * Properties *)

(** ** Splitting and joining *)

Lemma split_not_nil sep s : Str.split sep s ≠ [].
Proof.
  destruct s as [|c s]; simpl; [done|].
  destruct (Ascii.eqb c sep); [done|].
  by destruct (Str.split sep s).
Qed.

Lemma split_without_sep sep s :
  Str.contains sep s = false → Str.split sep s = [s].
Proof.
  induction s as [|c s IH]; simpl; [done|].
  intros [Hc Hs]%orb_false_iff. rewrite Hc, (IH Hs). done.
Qed.

Lemma split_append sep a b :
  Str.contains sep a = false →
  Str.split sep (a +:+ String sep b) = a :: Str.split sep b.
Proof.
  induction a as [|c a IH]; simpl.
  - intros _. by rewrite Ascii.eqb_refl.
  - intros [Hc Ha]%orb_false_iff. rewrite Hc, (IH Ha). done.
Qed.

Lemma split_join3 sep a b c :
  Str.contains sep a = false →
  Str.contains sep b = false →
  Str.contains sep c = false →
  Str.split sep (Str.join (delimiter sep) [a; b; c]) = [a; b; c].
Proof.
  intros Ha Hb Hc. unfold delimiter.
  change (Str.join (String sep "") [a; b; c])
    with (a +:+ String sep (b +:+ String sep c)).
  rewrite (split_append sep a) by done.
  rewrite (split_append sep b) by done.
  by rewrite split_without_sep.
Qed.

(** ** Resource ids *)

(** C4, as the code has it: a resource key whose prefix, realm and local id
    are all free of the delimiter [:] is recovered by splitting its
    serialized form; the prefix may be empty. *)
Theorem split_full_id_get_resource_id (resource : Resource.t) :
  Str.contains RESOURCE_ID_DELIMITER (Resource.neighborhood_prefix resource) = false →
  Str.contains RESOURCE_ID_DELIMITER (Resource.realm resource) = false →
  Str.contains RESOURCE_ID_DELIMITER (Resource.id resource) = false →
  split_full_id (get_resource_id_from_instance resource)
  = [Resource.neighborhood_prefix resource;
     Resource.realm resource;
     Resource.id resource].
Proof.
  intros Hp Hr Hi. unfold split_full_id, get_resource_id_from_instance.
  by apply split_join3.
Qed.

Lemma split_full_id_get_resource_id_witness :
  split_full_id (get_resource_id_from_instance (ticket "123"))
  = [""; "ticket"; "123"].
Proof.
  apply (split_full_id_get_resource_id (ticket "123")); reflexivity.
Defined.

(** C4 as stated fails: with realm and local id free of [:] but a prefix
    that contains it, the serialized key splits into four parts. *)
Lemma split_full_id_prefix_with_delimiter :
  ¬ (∀ resource : Resource.t,
       Str.contains RESOURCE_ID_DELIMITER (Resource.realm resource) = false →
       Str.contains RESOURCE_ID_DELIMITER (Resource.id resource) = false →
       split_full_id (get_resource_id_from_instance resource)
       = [Resource.neighborhood_prefix resource;
          Resource.realm resource;
          Resource.id resource]).
Proof.
  intros H.
  specialize (H (Resource.Build "a:b" "ticket" "1") eq_refl eq_refl).
  vm_compute in H. discriminate H.
Qed.

(** ** Malformed relation ids *)

(** C8: an id that does not split on [,] into exactly three parts makes
    [delete] raise the unpacking error ([ValueError], the code's
    malformed-id failure) and leaves the table as it was; ["onlytwo,parts"]
    is such an id. *)
Theorem delete_malformed_id (self : RelationsSystem) (st : store)
    (relation_id : string) :
  List.length (Str.split RELATION_ID_DELIMITER relation_id) ≠ 3 →
  delete self st relation_id = (Raise ValueError, st)
  ∧ delete self st "onlytwo,parts" = (Raise ValueError, st).
Proof.
  intros Hlen. split; [|reflexivity].
  unfold delete, _parse_relation_id.
  destruct (Str.split RELATION_ID_DELIMITER relation_id)
    as [|a [|b [|c [|d l]]]]; try reflexivity.
  by simpl in Hlen.
Qed.

Lemma delete_malformed_id_witness :
  delete (blocks_system (ticket_env (λ _, "new")))
    [Relation_keys ":ticket:1" ":ticket:2" "blocks"] "a,b,c,d"
  = (Raise ValueError, [Relation_keys ":ticket:1" ":ticket:2" "blocks"]).
Proof.
  apply (delete_malformed_id (blocks_system (ticket_env (λ _, "new")))
           [Relation_keys ":ticket:1" ":ticket:2" "blocks"] "a,b,c,d").
  vm_compute. lia.
Defined.

(** ** Validation *)

(** C10: a type whose validator tag is [parent_child] but whose name is not
    [parent] gets [_validate_any], so [validate] approves every relation of
    that type, whatever the table holds and without any search. *)
Theorem validate_parent_child_tag_other_type (self : RelationsSystem)
    (depth : nat) (st : store) (relation : Relation) :
  _validators self !! type relation = Some "parent_child" →
  type relation ≠ PARENT_RELATION_TYPE →
  _get_validator self (type relation) = _validate_any
  ∧ validate self depth st relation = Ok tt.
Proof.
  intros Htag Hname.
  assert (_get_validator self (type relation) = _validate_any) as Hv.
  { unfold _get_validator. rewrite Htag. simpl.
    apply String.eqb_neq in Hname. by rewrite Hname. }
  split; [done|]. unfold validate. by rewrite Hv.
Qed.

Lemma validate_parent_child_tag_other_type_witness :
  validate (parent_child_system (ticket_env (λ _, "new"))) 0
    [Relation_keys ":ticket:2" ":ticket:1" "child"]
    (Relation_keys ":ticket:1" ":ticket:2" "child")
  = Ok tt.
Proof.
  apply (validate_parent_child_tag_other_type
           (parent_child_system (ticket_env (λ _, "new"))) 0
           [Relation_keys ":ticket:2" ":ticket:1" "child"]
           (Relation_keys ":ticket:1" ":ticket:2" "child")).
  - vm_compute. reflexivity.
  - vm_compute. discriminate.
Defined.

(** C2: when the validator selected for the relation's type returns a
    rejection reason, [add_relation] and [add] raise [ValidationError] with
    exactly that reason and the table is unchanged: neither the relation nor
    its reverse is inserted. *)
Theorem add_validation_failure (self : RelationsSystem) (depth : nat)
    (st : store) (relation : Relation) (reason : string) :
  _get_validator self (type relation) depth st relation = Ok (Some reason) →
  add_relation self depth st relation = (Raise (ValidationError reason), st)
  ∧ ∀ src dst : Resource.t,
      source relation = get_resource_id_from_instance src →
      destination relation = get_resource_id_from_instance dst →
      add self depth st src dst (type relation) (comment relation)
      = (Raise (ValidationError reason), st).
Proof.
  intros Hrej.
  assert (add_relation self depth st relation
          = (Raise (ValidationError reason), st)) as Hadd.
  { unfold add_relation, validate. by rewrite Hrej. }
  split; [done|]. intros src dst Hsrc Hdst. unfold add.
  rewrite <- Hsrc, <- Hdst.
  replace {| source := source relation; destination := destination relation;
             type := type relation; comment := comment relation |}
    with relation by by destruct relation.
  by rewrite Hadd.
Qed.

Lemma add_validation_failure_witness :
  add_relation (parent_child_system (ticket_env (λ _, "new"))) 1
    [Relation_keys ":ticket:1" ":ticket:2" "parent";
     Relation_keys ":ticket:2" ":ticket:1" "child"]
    (Relation_keys ":ticket:1" ":ticket:3" "parent")
  = (Raise (ValidationError "Multiple links in 'Parent': ##1 -> [#2]"),
     [Relation_keys ":ticket:1" ":ticket:2" "parent";
      Relation_keys ":ticket:2" ":ticket:1" "child"]).
Proof.
  apply (add_validation_failure
           (parent_child_system (ticket_env (λ _, "new"))) 1
           [Relation_keys ":ticket:1" ":ticket:2" "parent";
            Relation_keys ":ticket:2" ":ticket:1" "child"]
           (Relation_keys ":ticket:1" ":ticket:3" "parent")
           "Multiple links in 'Parent': ##1 -> [#2]").
  vm_compute. reflexivity.
Defined.

(** ** The relation table *)

Lemma same_key_spec r1 r2 :
  same_key r1 r2 = true
  ↔ source r1 = source r2 ∧ destination r1 = destination r2
    ∧ type r1 = type r2.
Proof.
  unfold same_key. rewrite !andb_true_iff, !String.eqb_eq. tauto.
Qed.

Lemma same_key_sym r1 r2 : same_key r1 r2 = same_key r2 r1.
Proof.
  unfold same_key.
  by rewrite (String.eqb_sym (source r1)), (String.eqb_sym (destination r1)),
    (String.eqb_sym (type r1)).
Qed.

Lemma same_key_refl r : same_key r r = true.
Proof. by apply same_key_spec. Qed.

Lemma elem_of_Relation_select st w cols r :
  r ∈ Relation_select st w cols ↔ r ∈ st ∧ matches w r = true.
Proof.
  unfold Relation_select. rewrite merge_sort_Permutation.
  rewrite !list_elem_of_In. apply filter_In.
Qed.

Lemma matches_spec w r :
  matches w r = true
  ↔ source r = where_source w
    ∧ match where_type w with Some t => type r = t | None => True end.
Proof.
  unfold matches. rewrite andb_true_iff, String.eqb_eq.
  destruct (where_type w); [by rewrite String.eqb_eq|tauto].
Qed.

Lemma Relation_delete_fresh st r : fresh st r → Relation_delete st r = st.
Proof.
  unfold fresh, Relation_delete. induction st as [|row st IH]; simpl; [done|].
  intros [Hrow Hst]%orb_false_iff.
  rewrite same_key_sym, Hrow. simpl. by rewrite IH.
Qed.

Lemma Relation_delete_app st1 st2 r :
  Relation_delete (st1 ++ st2) r = Relation_delete st1 r ++ Relation_delete st2 r.
Proof. apply List.filter_app. Qed.

Lemma fresh_same_key st r1 r2 :
  same_key r1 r2 = true → fresh st r1 → fresh st r2.
Proof.
  unfold fresh. intros Hk Hf.
  assert (existsb (same_key r2) st = existsb (same_key r1) st) as ->; [|done].
  clear Hf. apply same_key_spec in Hk as (Hs & Hd & Ht).
  induction st as [|row st IH]; simpl; [done|]. f_equal; [|done].
  unfold same_key. by rewrite Hs, Hd, Ht.
Qed.

Lemma Relation_insert_Ok st r st' :
  Relation_insert st r = Ok st' ↔ fresh st r ∧ st' = st ++ [r].
Proof.
  unfold Relation_insert, fresh.
  destruct (existsb (same_key r) st); split.
  - discriminate.
  - by intros [? _].
  - by intros [= <-].
  - by intros [_ ->].
Qed.

Lemma Relation_delete_ext st k r :
  same_key k r = true → Relation_delete st k = Relation_delete st r.
Proof.
  intros (Hs & Hd & Ht)%same_key_spec. unfold Relation_delete.
  apply filter_ext. intros row. unfold same_key. by rewrite Hs, Hd, Ht.
Qed.

Lemma fresh_app st1 st2 r : fresh (st1 ++ st2) r ↔ fresh st1 r ∧ fresh st2 r.
Proof. unfold fresh. rewrite existsb_app. apply orb_false_iff. Qed.

Lemma fresh_singleton r1 r2 : fresh [r1] r2 ↔ same_key r2 r1 = false.
Proof. unfold fresh. simpl. by rewrite orb_false_r. Qed.

Lemma Relation_delete_cons_same row st r :
  same_key row r = true → Relation_delete (row :: st) r = Relation_delete st r.
Proof. intros H. unfold Relation_delete. simpl. by rewrite H. Qed.

Lemma Relation_delete_cons_other row st r :
  same_key row r = false →
  Relation_delete (row :: st) r = row :: Relation_delete st r.
Proof. intros H. unfold Relation_delete. simpl. by rewrite H. Qed.

Lemma Relation_delete_single st fwd :
  fresh st fwd → Relation_delete (st ++ [fwd]) fwd = st.
Proof.
  intros Hfwd. rewrite Relation_delete_app, Relation_delete_fresh by done.
  rewrite Relation_delete_cons_same by apply same_key_refl.
  apply app_nil_r.
Qed.

(** Deleting the two rows a paired add appended, in either order, gives
    back the table the add started from. *)
Lemma Relation_delete_pair st fwd rev :
  fresh st fwd → fresh (st ++ [fwd]) rev →
  Relation_delete (Relation_delete (st ++ [fwd; rev]) fwd) rev = st
  ∧ Relation_delete (Relation_delete (st ++ [fwd; rev]) rev) fwd = st.
Proof.
  intros Hfwd [Hrev Hne%fresh_singleton]%fresh_app.
  assert (same_key fwd rev = false) as Hne' by by rewrite same_key_sym.
  split.
  - rewrite (Relation_delete_app st), (Relation_delete_fresh st fwd) by done.
    rewrite (Relation_delete_cons_same fwd) by apply same_key_refl.
    rewrite (Relation_delete_cons_other rev) by done.
    by apply Relation_delete_single.
  - rewrite (Relation_delete_app st), (Relation_delete_fresh st rev) by done.
    rewrite (Relation_delete_cons_other fwd) by done.
    rewrite (Relation_delete_cons_same rev) by apply same_key_refl.
    by apply Relation_delete_single.
Qed.

Lemma truthy_Some t : t ≠ EmptyString → truthy (Some t) = Some t.
Proof. by destruct t. Qed.

(** ** [link_ends_map] as [__init__] fills it *)

Lemma init_link_ends_map_app ends1 ends2 :
  init_link_ends_map (ends1 ++ ends2)
  = fold_left
      (λ m '(end1, end2),
         let m := <[end1 := end2]> m in
         match end2 with
         | Some e2 => <[e2 := Some end1]> m
         | None => m
         end)
      ends2 (init_link_ends_map ends1).
Proof. unfold init_link_ends_map. by rewrite fold_left_app. Qed.

Lemma fold_link_ends_other ends (m : gmap string (option string)) k :
  k ∉ end_names ends →
  fold_left
    (λ m '(end1, end2),
       let m := <[end1 := end2]> m in
       match end2 with
       | Some e2 => <[e2 := Some end1]> m
       | None => m
       end)
    ends m !! k = m !! k.
Proof.
  revert m. induction ends as [|[end1 end2] ends IH]; intros m Hk; [done|].
  simpl in Hk. apply not_elem_of_cons in Hk as [Hk1 Hk].
  apply not_elem_of_app in Hk as [Hk2 Hk]. simpl. rewrite IH by done.
  destruct end2 as [e2|]; simpl in *.
  - apply not_elem_of_cons in Hk2 as [Hk2 _].
    by rewrite !lookup_insert_ne.
  - by rewrite lookup_insert_ne.
Qed.

(** When no end name is configured twice and none is empty, the two ends of
    every configured link are paired, and an end configured alone is
    unpaired. *)
Lemma link_ends_map_of_links self :
  NoDup (end_names (get_ends self)) →
  (∀ end1 end2,
     (end1, Some end2) ∈ get_ends self →
     end1 ≠ EmptyString → end2 ≠ EmptyString →
     paired self end1 end2 ∧ paired self end2 end1)
  ∧ (∀ end1, (end1, None) ∈ get_ends self → unpaired self end1).
Proof.
  intros Hnd.
  assert (∀ end1 end2,
            (end1, end2) ∈ get_ends self →
            link_ends_map self !! end1 = Some end2
            ∧ ∀ e2, end2 = Some e2 →
                    link_ends_map self !! e2 = Some (Some end1)) as Hmap.
  { intros end1 end2 (ends1 & ends2 & Hsplit)%list_elem_of_split.
    unfold link_ends_map. rewrite Hsplit in Hnd |- *.
    rewrite init_link_ends_map_app. simpl.
    unfold end_names in Hnd. rewrite flat_map_app in Hnd. simpl in Hnd.
    apply NoDup_app in Hnd as (_ & _ & Hnd).
    apply NoDup_cons in Hnd as [Hend1 Hnd].
    apply not_elem_of_app in Hend1 as [Hne Hend1].
    destruct end2 as [e2|]; simpl in *.
    - apply not_elem_of_cons in Hne as [Hne _].
      apply NoDup_cons in Hnd as [He2 _].
      split.
      + rewrite fold_link_ends_other by done.
        rewrite lookup_insert_ne by done. by rewrite lookup_insert_eq.
      + intros ? [= <-]. rewrite fold_link_ends_other by done.
        by rewrite lookup_insert_eq.
    - rewrite fold_link_ends_other by done. split; [|done].
      by rewrite lookup_insert_eq. }
  split.
  - intros end1 end2 [H1 H2]%Hmap Hne1 Hne2. specialize (H2 _ eq_refl).
    by repeat split.
  - intros end1 [H1 _]%Hmap. by exists None.
Qed.

(** What a successful [add_relation] did. *)
Lemma add_relation_Ok self depth st relation st' :
  add_relation self depth st relation = (Ok tt, st') →
  validate self depth st relation = Ok tt
  ∧ fresh st relation
  ∧ ∃ o, link_ends_map self !! type relation = Some o
         ∧ match truthy o with
           | Some other_end =>
               fresh (st ++ [relation]) (clone_reverted relation other_end)
               ∧ st' = st ++ [relation; clone_reverted relation other_end]
           | None => st' = st ++ [relation]
           end.
Proof.
  unfold add_relation. destruct (validate self depth st relation) as [[]|e];
    [|by intros [=]].
  destruct (Relation_insert st relation) as [st1|e] eqn:Hins;
    [|by intros [=]].
  apply Relation_insert_Ok in Hins as [Hfresh ->]. simpl.
  unfold getitem.
  destruct (link_ends_map self !! type relation) as [o|]; [|by intros [=]].
  simpl. intros Hres. split; [done|]. split; [done|]. exists o. split; [done|].
  destruct (truthy o) as [other_end|].
  - destruct (Relation_insert _ _) as [st2|e] eqn:Hins2; [|by inversion Hres].
    apply Relation_insert_Ok in Hins2 as [Hfresh2 ->].
    inversion Hres. split; [done|]. by rewrite <- app_assoc.
  - by inversion Hres.
Qed.

(** What [_delete_relation] does for the two ends of a link. *)
Lemma _delete_relation_paired self st s d t t' :
  link_ends_map self !! t = Some (Some t') → t' ≠ EmptyString →
  _delete_relation self st (Relation_keys s d t)
  = (Ok tt,
     Relation_delete (Relation_delete st (Relation_keys s d t))
       (Relation_keys d s t')).
Proof.
  intros Hmap Ht'. destruct t' as [|c t']; [done|].
  unfold _delete_relation, getitem. simpl. by rewrite Hmap.
Qed.

Lemma _delete_relation_unpaired self st s d t :
  unpaired self t →
  _delete_relation self st (Relation_keys s d t)
  = (Ok tt, Relation_delete st (Relation_keys s d t)).
Proof.
  intros (o & Hmap & Ho). unfold _delete_relation, getitem. simpl.
  rewrite Hmap. simpl. by rewrite Ho.
Qed.

Lemma _parse_create_relation_id relation :
  Str.contains RELATION_ID_DELIMITER (source relation) = false →
  Str.contains RELATION_ID_DELIMITER (destination relation) = false →
  Str.contains RELATION_ID_DELIMITER (type relation) = false →
  _parse_relation_id (_create_relation_id relation)
  = Ok (source relation, destination relation, type relation).
Proof.
  intros Hs Hd Ht. unfold _parse_relation_id, _create_relation_id.
  by rewrite split_join3.
Qed.

Lemma Relation_delete_comm st a b :
  Relation_delete (Relation_delete st a) b
  = Relation_delete (Relation_delete st b) a.
Proof.
  induction st as [|row st IH]; [done|].
  destruct (same_key row a) eqn:Ha, (same_key row b) eqn:Hb;
    repeat first
      [ rewrite (Relation_delete_cons_same row) by done
      | rewrite (Relation_delete_cons_other row) by done ];
    by rewrite ?IH.
Qed.

Lemma elem_of_Relation_delete row st r :
  row ∈ Relation_delete st r ↔ row ∈ st ∧ same_key row r = false.
Proof.
  unfold Relation_delete. rewrite !list_elem_of_In, filter_In.
  by rewrite negb_true_iff.
Qed.

Lemma fresh_elem_of st r :
  fresh st r ↔ ∀ row, row ∈ st → same_key row r = false.
Proof.
  unfold fresh. induction st as [|row' st IH]; simpl.
  - split; [|done]. intros _ row Hrow. by apply elem_of_nil in Hrow.
  - rewrite orb_false_iff, IH, (same_key_sym r). split.
    + intros [H1 H2] row [->|Hrow]%elem_of_cons; auto.
    + intros H. split; [apply H; left|intros row Hrow; apply H; by right].
Qed.

(** After [_delete_relation] on one end of a link neither end is stored,
    and every other row is. *)
Lemma Relation_delete_both st a b st3 :
  st3 = Relation_delete (Relation_delete st a) b →
  fresh st3 a ∧ fresh st3 b
  ∧ ∀ row, row ∈ st3
           ↔ row ∈ st ∧ same_key row a = false ∧ same_key row b = false.
Proof.
  intros ->.
  assert (∀ row, row ∈ Relation_delete (Relation_delete st a) b
                 ↔ row ∈ st ∧ same_key row a = false ∧ same_key row b = false)
    as Hin.
  { intros row. rewrite !elem_of_Relation_delete. tauto. }
  split; [|split; [|done]].
  - apply fresh_elem_of. intros row Hrow. by apply Hin in Hrow as (_ & ? & _).
  - apply fresh_elem_of. intros row Hrow. by apply Hin in Hrow as (_ & _ & ?).
Qed.

(** What [delete] does with the id of either end of a paired relation, on
    any table. *)
Lemma delete_paired_id self st relation t' :
  paired self (type relation) t' →
  Str.contains RELATION_ID_DELIMITER (source relation) = false →
  Str.contains RELATION_ID_DELIMITER (destination relation) = false →
  Str.contains RELATION_ID_DELIMITER (type relation) = false →
  Str.contains RELATION_ID_DELIMITER t' = false →
  let reverse := clone_reverted relation t' in
  let st3 := Relation_delete (Relation_delete st relation) reverse in
  delete self st (_create_relation_id relation) = (Ok tt, st3)
  ∧ delete self st (_create_relation_id reverse) = (Ok tt, st3).
Proof.
  intros (Hfwd & Hrev & Ht & Ht') Hs Hd Hty Hty' reverse st3.
  assert (same_key
            (Relation_keys (source relation) (destination relation)
               (type relation)) relation = true) as Hk1
    by by apply same_key_spec.
  assert (same_key
            (Relation_keys (destination relation) (source relation) t')
            reverse = true) as Hk2
    by by apply same_key_spec.
  unfold delete, st3. split.
  - rewrite _parse_create_relation_id by done.
    rewrite (_delete_relation_paired self st _ _ _ t') by done.
    rewrite (Relation_delete_ext st _ _ Hk1).
    by rewrite (Relation_delete_ext _ _ _ Hk2).
  - rewrite _parse_create_relation_id by done.
    rewrite (_delete_relation_paired self st _ _ _ (type relation)) by done.
    rewrite (Relation_delete_comm st relation).
    unfold reverse in *. cbn [source destination type clone_reverted].
    rewrite (Relation_delete_ext st _ _ Hk2).
    by rewrite (Relation_delete_ext _ _ _ Hk1).
Qed.

(** ** Adding and deleting relations *)

(** What [add_relation] does once validation has passed. *)
Lemma add_relation_paired self depth st relation t' :
  paired self (type relation) t' →
  validate self depth st relation = Ok tt →
  fresh st relation →
  fresh (st ++ [relation]) (clone_reverted relation t') →
  add_relation self depth st relation
  = (Ok tt, st ++ [relation; clone_reverted relation t']).
Proof.
  intros (Hfwd & _ & _ & Ht') Hval Hfresh Hfresh2.
  unfold add_relation, Relation_insert, getitem. rewrite Hval.
  unfold fresh in Hfresh, Hfresh2. rewrite Hfresh. cbn [bind].
  rewrite Hfwd. cbn [bind]. rewrite truthy_Some by done.
  rewrite Hfresh2. by rewrite <- app_assoc.
Qed.

Lemma add_relation_unpaired self depth st relation :
  unpaired self (type relation) →
  validate self depth st relation = Ok tt →
  fresh st relation →
  add_relation self depth st relation = (Ok tt, st ++ [relation]).
Proof.
  intros (o & Hmap & Ho) Hval Hfresh.
  unfold add_relation, Relation_insert, getitem. rewrite Hval.
  unfold fresh in Hfresh. rewrite Hfresh. cbn [bind].
  rewrite Hmap. cbn [bind]. by rewrite Ho.
Qed.

(** C1, as the code has it. For a relation whose type is one end of a link,
    [add_relation] succeeds whenever validation passes and neither the
    relation nor its reverse (endpoints swapped, type replaced by the other
    end) is stored, and a successful add appends exactly these two rows;
    for a type without another end it succeeds whenever validation passes
    and the relation is not stored, and appends exactly that one row.
    [_delete_relation] for the key of either direction removes both rows
    and gives back the table the add started from. [delete] by the relation
    id of either direction does so as well, provided that the keys are free
    of [,]: then, on any table, it leaves no row with either key and
    keeps every other row. *)
Theorem add_relation_rows_delete_both (self : RelationsSystem) (depth : nat)
    (st : store) (relation : Relation) :
  (∀ t', paired self (type relation) t' →
     let reverse := clone_reverted relation t' in
     (validate self depth st relation = Ok tt →
      fresh st relation → fresh (st ++ [relation]) reverse →
      add_relation self depth st relation
      = (Ok tt, st ++ [relation; reverse]))
     ∧ ∀ st',
         add_relation self depth st relation = (Ok tt, st') →
         st' = st ++ [relation; reverse]
         ∧ _delete_relation self st'
             (Relation_keys (source relation) (destination relation)
                (type relation)) = (Ok tt, st)
         ∧ _delete_relation self st'
             (Relation_keys (source reverse) (destination reverse)
                (type reverse)) = (Ok tt, st)
         ∧ (Str.contains RELATION_ID_DELIMITER (source relation) = false →
            Str.contains RELATION_ID_DELIMITER (destination relation) = false →
            Str.contains RELATION_ID_DELIMITER (type relation) = false →
            Str.contains RELATION_ID_DELIMITER t' = false →
            delete self st' (_create_relation_id relation) = (Ok tt, st)
            ∧ delete self st' (_create_relation_id reverse) = (Ok tt, st)
            ∧ ∀ st2, ∃ st3,
                delete self st2 (_create_relation_id relation) = (Ok tt, st3)
                ∧ delete self st2 (_create_relation_id reverse) = (Ok tt, st3)
                ∧ fresh st3 relation ∧ fresh st3 reverse
                ∧ ∀ row, row ∈ st3
                         ↔ row ∈ st2 ∧ same_key row relation = false
                           ∧ same_key row reverse = false))
  ∧ (unpaired self (type relation) →
     (validate self depth st relation = Ok tt →
      fresh st relation →
      add_relation self depth st relation = (Ok tt, st ++ [relation]))
     ∧ ∀ st',
         add_relation self depth st relation = (Ok tt, st') →
         st' = st ++ [relation]
         ∧ _delete_relation self st'
             (Relation_keys (source relation) (destination relation)
                (type relation)) = (Ok tt, st)
         ∧ (Str.contains RELATION_ID_DELIMITER (source relation) = false →
            Str.contains RELATION_ID_DELIMITER (destination relation) = false →
            Str.contains RELATION_ID_DELIMITER (type relation) = false →
            delete self st' (_create_relation_id relation) = (Ok tt, st))).
Proof.
  split.
  - intros t' Hpaired reverse. split; [by apply add_relation_paired|].
    intros st' (_ & Hfresh & o & Hmap & Hrows)%add_relation_Ok.
    pose proof Hpaired as (Hfwd & Hrev & Ht & Ht').
    rewrite Hfwd in Hmap. injection Hmap as <-.
    rewrite truthy_Some in Hrows by done. destruct Hrows as [Hfresh2 ->].
    fold reverse in Hfresh2 |- *.
    destruct (Relation_delete_pair st relation reverse Hfresh Hfresh2)
      as [Hd1 Hd2].
    assert (same_key
              (Relation_keys (source relation) (destination relation)
                 (type relation)) relation = true) as Hk1
      by by apply same_key_spec.
    assert (same_key
              (Relation_keys (destination relation) (source relation) t')
              reverse = true) as Hk2
      by by apply same_key_spec.
    assert (_delete_relation self (st ++ [relation; reverse])
              (Relation_keys (source relation) (destination relation)
                 (type relation)) = (Ok tt, st)) as Hdel1.
    { rewrite (_delete_relation_paired self _ _ _ _ t') by done.
      rewrite (Relation_delete_ext _ _ _ Hk1).
      by rewrite (Relation_delete_ext _ _ _ Hk2), Hd1. }
    assert (_delete_relation self (st ++ [relation; reverse])
              (Relation_keys (source reverse) (destination reverse)
                 (type reverse)) = (Ok tt, st)) as Hdel2.
    { rewrite (_delete_relation_paired self _ _ _ _ (type relation)) by done.
      unfold reverse in *. cbn [source destination type clone_reverted].
      rewrite (Relation_delete_ext _ _ _ Hk2).
      by rewrite (Relation_delete_ext _ _ _ Hk1), Hd2. }
    split; [done|]. split; [done|]. split; [done|].
    intros Hs Hd Hty Hty'.
    destruct (delete_paired_id self (st ++ [relation; reverse]) relation t'
                Hpaired Hs Hd Hty Hty') as [Hid1 Hid2].
    fold reverse in Hid1, Hid2. rewrite Hd1 in Hid1, Hid2.
    split; [done|]. split; [done|]. intros st2.
    destruct (delete_paired_id self st2 relation t' Hpaired Hs Hd Hty Hty')
      as [Hg1 Hg2].
    eexists. split; [exact Hg1|]. split; [exact Hg2|].
    by apply Relation_delete_both.
  - intros Hun. split; [by apply add_relation_unpaired|].
    intros st' (_ & Hfresh & o & Hmap & Hrows)%add_relation_Ok.
    pose proof Hun as (o' & Hmap' & Ho').
    rewrite Hmap in Hmap'. injection Hmap' as <-.
    rewrite Ho' in Hrows. subst st'.
    assert (_delete_relation self (st ++ [relation])
              (Relation_keys (source relation) (destination relation)
                 (type relation)) = (Ok tt, st)) as Hdel.
    { rewrite _delete_relation_unpaired by done.
      rewrite (Relation_delete_ext _ _ relation) by by apply same_key_spec.
      by rewrite Relation_delete_single. }
    split; [done|]. split; [done|]. intros Hs Hd Hty.
    unfold delete. by rewrite _parse_create_relation_id.
Qed.

Lemma add_relation_rows_delete_both_witness :
  (add_relation (blocks_system (ticket_env (λ _, "new"))) 1 []
     (row "1" "2" "blocks")
   = (Ok tt, [row "1" "2" "blocks"; row "2" "1" "blocked_by"])
   ∧ delete (blocks_system (ticket_env (λ _, "new")))
       [row "1" "2" "blocks"; row "2" "1" "blocked_by"]
       ":ticket:1,:ticket:2,blocks" = (Ok tt, [])
   ∧ delete (blocks_system (ticket_env (λ _, "new")))
       [row "1" "2" "blocks"; row "2" "1" "blocked_by"]
       ":ticket:2,:ticket:1,blocked_by" = (Ok tt, []))
  ∧ (add_relation (dependson_system (ticket_env (λ _, "new"))) 1 []
       (row "1" "2" "dependson")
     = (Ok tt, [row "1" "2" "dependson"])
     ∧ delete (dependson_system (ticket_env (λ _, "new")))
         [row "1" "2" "dependson"] ":ticket:1,:ticket:2,dependson"
       = (Ok tt, [])).
Proof.
  split.
  - destruct (add_relation_rows_delete_both
                (blocks_system (ticket_env (λ _, "new"))) 1 []
                (row "1" "2" "blocks")) as [Hpaired _].
    assert (paired (blocks_system (ticket_env (λ _, "new")))
              (type (row "1" "2" "blocks")) "blocked_by") as Hp.
    { repeat split; vm_compute; (reflexivity || discriminate). }
    destruct (Hpaired "blocked_by" Hp) as [Hadd Hrows].
    assert (add_relation (blocks_system (ticket_env (λ _, "new"))) 1 []
              (row "1" "2" "blocks")
            = (Ok tt, [row "1" "2" "blocks"; row "2" "1" "blocked_by"]))
      as Hdone.
    { apply Hadd; vm_compute; reflexivity. }
    split; [exact Hdone|].
    destruct (Hrows _ Hdone) as (_ & _ & _ & Hid).
    destruct (Hid eq_refl eq_refl eq_refl eq_refl) as (H1 & H2 & _).
    split; [exact H1|exact H2].
  - destruct (add_relation_rows_delete_both
                (dependson_system (ticket_env (λ _, "new"))) 1 []
                (row "1" "2" "dependson")) as [_ Hunpaired].
    assert (unpaired (dependson_system (ticket_env (λ _, "new")))
              (type (row "1" "2" "dependson"))) as Hu.
    { exists None. split; vm_compute; reflexivity. }
    destruct (Hunpaired Hu) as [Hadd Hrows].
    assert (add_relation (dependson_system (ticket_env (λ _, "new"))) 1 []
              (row "1" "2" "dependson")
            = (Ok tt, [row "1" "2" "dependson"])) as Hdone.
    { apply Hadd; vm_compute; reflexivity. }
    split; [exact Hdone|].
    destruct (Hrows _ Hdone) as (_ & _ & Hid).
    exact (Hid eq_refl eq_refl eq_refl).
Defined.

(** C1 as stated fails: a wiki page whose name holds a [,] is related to
    ticket 2 by [blocks]; the add stores the relation and its reverse, yet
    [delete] by the relation id of either direction raises [ValueError] and
    both rows stay stored. *)
Lemma delete_by_id_keeps_rows_of_key_with_delimiter :
  add_relation (blocks_system (ticket_env (λ _, "new"))) 1 []
    (Relation_keys ":wiki:Plan,B" ":ticket:2" "blocks")
  = (Ok tt,
     [Relation_keys ":wiki:Plan,B" ":ticket:2" "blocks";
      Relation_keys ":ticket:2" ":wiki:Plan,B" "blocked_by"])
  ∧ delete (blocks_system (ticket_env (λ _, "new")))
      [Relation_keys ":wiki:Plan,B" ":ticket:2" "blocks";
       Relation_keys ":ticket:2" ":wiki:Plan,B" "blocked_by"]
      (_create_relation_id (Relation_keys ":wiki:Plan,B" ":ticket:2" "blocks"))
    = (Raise ValueError,
       [Relation_keys ":wiki:Plan,B" ":ticket:2" "blocks";
        Relation_keys ":ticket:2" ":wiki:Plan,B" "blocked_by"])
  ∧ delete (blocks_system (ticket_env (λ _, "new")))
      [Relation_keys ":wiki:Plan,B" ":ticket:2" "blocks";
       Relation_keys ":ticket:2" ":wiki:Plan,B" "blocked_by"]
      (_create_relation_id
         (Relation_keys ":ticket:2" ":wiki:Plan,B" "blocked_by"))
    = (Raise ValueError,
       [Relation_keys ":wiki:Plan,B" ":ticket:2" "blocks";
        Relation_keys ":ticket:2" ":wiki:Plan,B" "blocked_by"]).
Proof. repeat split; vm_compute; reflexivity. Qed.

Lemma add_Ok self depth st src dst relation_type comment r st' :
  add self depth st src dst relation_type comment = (Ok r, st') →
  r = None
  ∧ add_relation self depth st
      {| source := get_resource_id_from_instance src;
         destination := get_resource_id_from_instance dst;
         type := relation_type; comment := comment |} = (Ok tt, st').
Proof.
  unfold add. destruct (add_relation _ _ _ _) as [[[]|e] st1]; [|by intros [=]].
  by intros [= <- <-].
Qed.

(** C9, as the code has it: [add] has no return value, so a successful
    [add] returns [None]. The relation id [source,destination,type] that
    [_create_relation_id] builds for the created relation, and the one it
    builds for the reverse relation of a paired type, each address the pair
    for deletion: [delete] on either gives back the table the add started
    from (the keys being free of [,]). *)
Theorem add_returns_None_ids_address_pair (self : RelationsSystem)
    (depth : nat) (st st' : store) (src dst : Resource.t)
    (relation_type : string) (comment : option string)
    (r : option string) :
  add self depth st src dst relation_type comment = (Ok r, st') →
  let relation :=
    {| source := get_resource_id_from_instance src;
       destination := get_resource_id_from_instance dst;
       type := relation_type; comment := comment |} in
  r = None
  ∧ _create_relation_id relation
    = get_resource_id_from_instance src +:+ ","
      +:+ get_resource_id_from_instance dst +:+ "," +:+ relation_type
  ∧ (Str.contains RELATION_ID_DELIMITER (get_resource_id_from_instance src) = false →
     Str.contains RELATION_ID_DELIMITER (get_resource_id_from_instance dst) = false →
     Str.contains RELATION_ID_DELIMITER relation_type = false →
     (∀ t', paired self relation_type t' →
        Str.contains RELATION_ID_DELIMITER t' = false →
        delete self st' (_create_relation_id relation) = (Ok tt, st)
        ∧ delete self st' (_create_relation_id (clone_reverted relation t'))
          = (Ok tt, st))
     ∧ (unpaired self relation_type →
        delete self st' (_create_relation_id relation) = (Ok tt, st))).
Proof.
  intros [-> Hadd]%add_Ok relation. fold relation in Hadd.
  split; [done|]. split; [done|]. intros Hs Hd Hty.
  apply add_relation_Ok in Hadd as (_ & Hfresh & o & Hmap & Hrows). split.
  - intros t' Hpaired Hty'. pose proof Hpaired as (Hfwd & Hrev & Ht & Ht').
    simpl in Hmap. rewrite Hfwd in Hmap. injection Hmap as <-.
    rewrite truthy_Some in Hrows by done. destruct Hrows as [Hfresh2 ->].
    destruct (Relation_delete_pair st relation _ Hfresh Hfresh2) as [Hd1 _].
    destruct (delete_paired_id self (st ++ [relation; clone_reverted relation t'])
                relation t' Hpaired Hs Hd Hty Hty') as [Hid1 Hid2].
    rewrite Hd1 in Hid1, Hid2. done.
  - intros Hun. pose proof Hun as (o' & Hmap' & Ho').
    simpl in Hmap. rewrite Hmap in Hmap'. injection Hmap' as <-.
    rewrite Ho' in Hrows. subst st'.
    unfold delete. rewrite _parse_create_relation_id by done.
    rewrite _delete_relation_unpaired by done.
    rewrite (Relation_delete_ext _ _ relation) by by apply same_key_spec.
    by rewrite Relation_delete_single.
Qed.

Lemma add_returns_None_ids_address_pair_witness :
  delete (blocks_system (ticket_env (λ _, "new")))
    [row "1" "2" "blocks"; row "2" "1" "blocked_by"]
    (_create_relation_id (row "2" "1" "blocked_by")) = (Ok tt, []).
Proof.
  assert (add (blocks_system (ticket_env (λ _, "new"))) 1 []
            (ticket "1") (ticket "2") "blocks" None
          = (Ok None, [row "1" "2" "blocks"; row "2" "1" "blocked_by"]))
    as Hadd by (vm_compute; reflexivity).
  destruct (add_returns_None_ids_address_pair _ _ _ _ _ _ _ _ _ Hadd)
    as (_ & _ & Hid).
  destruct (Hid eq_refl eq_refl eq_refl) as [Hpaired _].
  assert (paired (blocks_system (ticket_env (λ _, "new"))) "blocks"
            "blocked_by") as Hp.
  { repeat split; vm_compute; (reflexivity || discriminate). }
  destruct (Hpaired "blocked_by" Hp eq_refl) as [_ H2]. exact H2.
Defined.

(** C9 as stated fails: in the scenario [blocks = blocks, blocked_by] the
    add of ticket 1 blocks ticket 2 succeeds and returns [None], not the
    relation id. *)
Lemma add_does_not_return_relation_id :
  add (blocks_system (ticket_env (λ _, "new"))) 1 []
    (ticket "1") (ticket "2") "blocks" None
  = (Ok None, [row "1" "2" "blocks"; row "2" "1" "blocked_by"])
  ∧ fst (add (blocks_system (ticket_env (λ _, "new"))) 1 []
           (ticket "1") (ticket "2") "blocks" None)
    ≠ Ok (Some (_create_relation_id (row "1" "2" "blocks"))).
Proof.
  split; [vm_compute; reflexivity|]. vm_compute. discriminate.
Qed.

(** ** Loops and comprehensions *)

Lemma first_not_None_Some {A B} (body : A → result (option B)) l b :
  first_not_None body l = Ok (Some b) → ∃ x, x ∈ l ∧ body x = Ok (Some b).
Proof.
  induction l as [|x l IH]; simpl; [done|].
  destruct (body x) as [[b'|]|e] eqn:Hx; simpl; [| |done].
  - intros [= ->]. exists x. split; [left|done].
  - intros (y & Hy & Hb)%IH. exists y. split; [by right|done].
Qed.

Lemma first_not_None_None {A B} (body : A → result (option B)) l :
  first_not_None body l = Ok None ↔ ∀ x, x ∈ l → body x = Ok None.
Proof.
  induction l as [|x l IH]; simpl.
  - split; [|done]. intros _ x Hx. by apply elem_of_nil in Hx.
  - destruct (body x) as [[b'|]|e] eqn:Hx; simpl.
    + split; [done|]. intros H. specialize (H x (list_elem_of_here _ _)).
      congruence.
    + rewrite IH. split.
      * intros H y [->|Hy]%elem_of_cons; auto.
      * intros H y Hy. apply H. by right.
    + split; [done|]. intros H. specialize (H x (list_elem_of_here _ _)).
      congruence.
Qed.

Lemma first_not_None_Raise {A B} (body : A → result (option B)) l e :
  first_not_None body l = Raise e → ∃ x, x ∈ l ∧ body x = Raise e.
Proof.
  induction l as [|x l IH]; simpl; [done|].
  destruct (body x) as [[b'|]|e'] eqn:Hx; simpl; [done| |].
  - intros (y & Hy & Hb)%IH. exists y. split; [by right|done].
  - intros [= ->]. exists x. split; [left|done].
Qed.

Lemma comprehension_Ok {A B} (f : A → result B) (g : A → B) l :
  (∀ x, x ∈ l → f x = Ok (g x)) → comprehension f l = Ok (g <$> l).
Proof.
  induction l as [|x l IH]; simpl; [done|]. intros H.
  rewrite (H x) by left. simpl. rewrite IH; [done|].
  intros y Hy. apply H. by right.
Qed.

(** ** Names of resources *)

Lemma _get_resource_name_from_id_global self resource_id :
  global_id resource_id →
  _get_resource_name_from_id self resource_id
  = Ok (resource_name (env self) resource_id).
Proof.
  intros (realm & local_id & Hsplit).
  unfold _get_resource_name_from_id, _get_resource_by_id, resource_name.
  by rewrite Hsplit.
Qed.

Lemma _get_resource_name_from_id_product self resource_id :
  product_id resource_id →
  _get_resource_name_from_id self resource_id = Raise TypeError.
Proof.
  intros (c & nbhprefix & realm & local_id & Hsplit).
  unfold _get_resource_name_from_id, _get_resource_by_id.
  by rewrite Hsplit.
Qed.

Lemma global_id_ticket n :
  Str.contains RESOURCE_ID_DELIMITER n = false →
  global_id (get_resource_id_from_instance (ticket n)).
Proof.
  intros Hn. exists "ticket", n.
  unfold split_full_id, get_resource_id_from_instance.
  by rewrite split_join3.
Qed.

(** ** The cycle search *)

Section find_cycle.

Context (st : store) (source_to_check : string).

Lemma selected_edge (relation linked : Relation) cols :
  linked ∈ Relation_select st
             {| where_source := destination relation;
                where_type := Some (type relation) |} cols →
  type linked = type relation
  ∧ edge st (type relation) (destination relation) (destination linked).
Proof.
  intros [Hin [Hs Ht]%matches_spec]%elem_of_Relation_select.
  simpl in Hs, Ht. split; [done|]. by exists linked.
Qed.

Lemma edge_selected (relation : Relation) y cols :
  edge st (type relation) (destination relation) y →
  ∃ linked,
    linked ∈ Relation_select st
               {| where_source := destination relation;
                  where_type := Some (type relation) |} cols
    ∧ destination linked = y ∧ type linked = type relation.
Proof.
  intros (r & Hin & Hs & Hd & Ht). exists r. split; [|done].
  apply elem_of_Relation_select. split; [done|]. by apply matches_spec.
Qed.

Lemma chain_cons t x y l :
  edge st t x y → head l = Some y → chain st t l → chain st t (x :: l).
Proof. destruct l as [|z l]; [done|]. intros He [= ->] Hc. by split. Qed.

Lemma chain_rtc t l x y :
  chain st t l → head l = Some x → last l = Some y → rtc (edge st t) x y.
Proof.
  revert x. induction l as [|z l IH]; [done|]. intros x Hc [= ->].
  destruct l as [|z' l].
  - intros [= ->]. done.
  - intros Hl. destruct Hc as [He Hc]. eapply rtc_l; [exact He|].
    apply IH; [done|done|]. by rewrite last_cons_cons in Hl.
Qed.

(** A cycle that is reported is the path so far followed by a chain of
    stored rows of the relation's type, from the relation's destination
    to the source that is checked. *)
Lemma _find_cycle_Some depth relation path cycle :
  _find_cycle depth st source_to_check relation path = Ok (Some cycle) →
  ∃ c, cycle = path ++ c
       ∧ head c = Some (destination relation)
       ∧ last c = Some source_to_check
       ∧ chain st (type relation) c.
Proof.
  revert relation path. induction depth as [|depth IH]; [done|].
  intros relation path. simpl.
  destruct (String.eqb_spec source_to_check (destination relation))
    as [Heq|Hne].
  - intros [= <-]. exists [destination relation]. by rewrite Heq.
  - intros (linked & Hin & Hrec)%first_not_None_Some.
    apply selected_edge in Hin as [Ht He].
    apply IH in Hrec as (c & -> & Hh & Hl & Hc). rewrite Ht in Hc.
    exists (destination relation :: c). split; [by rewrite <- app_assoc|].
    split; [done|]. split.
    + destruct c; [done|]. by rewrite last_cons_cons.
    + by eapply chain_cons.
Qed.

(** When the search reports no cycle, no path of rows of the relation's
    type leads from its destination to the source that is checked. *)
Lemma _find_cycle_None depth relation path :
  _find_cycle depth st source_to_check relation path = Ok None →
  ¬ same_type_path st (type relation) (destination relation)
      source_to_check.
Proof.
  revert relation path. induction depth as [|depth IH]; [done|].
  intros relation path. simpl.
  destruct (String.eqb_spec source_to_check (destination relation))
    as [Heq|Hne]; [done|].
  intros Hall Hpath. rewrite first_not_None_None in Hall.
  apply rtc_inv in Hpath as [Heq|(y & He & Hpath)]; [done|].
  apply (edge_selected _ _ [col_destination])
    in He as (linked & Hin & <- & Ht).
  apply Hall in Hin. apply IH in Hin. rewrite Ht in Hin. done.
Qed.

(** The only exception of the search is the recursion limit, and it is
    reached only along a walk of [depth] rows of the relation's type. *)
Lemma _find_cycle_Raise depth relation path e :
  _find_cycle depth st source_to_check relation path = Raise e →
  e = RuntimeError
  ∧ ∃ y, nsteps (edge st (type relation)) depth (destination relation) y.
Proof.
  revert relation path. induction depth as [|depth IH].
  - intros relation path [= <-]. split; [done|].
    exists (destination relation). constructor.
  - intros relation path. simpl.
    destruct (String.eqb_spec source_to_check (destination relation))
      as [Heq|Hne]; [done|].
    intros (linked & Hin & Hrec)%first_not_None_Raise.
    apply selected_edge in Hin as [Ht He].
    apply IH in Hrec as [-> [y Hy]]. split; [done|]. rewrite Ht in Hy.
    exists y. by eapply nsteps_l.
Qed.

End find_cycle.

(** ** Termination of the cycle search *)

Lemma acyclic_from_step st t x y :
  acyclic_from st t x → edge st t x y → acyclic_from st t y.
Proof. intros Hx He z Hz. apply Hx. by eapply rtc_l. Qed.

(** Where no cycle can be reached, the resources a walk leaves from are
    distinct sources of stored rows. *)
Lemma walk_sources st t n x y :
  acyclic_from st t x → nsteps (edge st t) n x y →
  ∃ l : list string,
    List.length l = n ∧ NoDup l
    ∧ ∀ z, z ∈ l → rtc (edge st t) x z ∧ z ∈ source <$> st.
Proof.
  intros Hx Hn. induction Hn as [x|n x y z He Hn IH].
  - exists []. split; [done|]. split; [constructor|].
    intros z Hz. by apply elem_of_nil in Hz.
  - destruct IH as (l & Hlen & Hnd & Hl); [by eapply acyclic_from_step|].
    exists (x :: l). split; [by rewrite <- Hlen|]. split.
    + constructor; [|done]. intros [Hyx _]%Hl.
      apply (Hx x); [done|]. eapply tc_rtc_r; [by apply tc_once|done].
    + intros w [->|Hw]%elem_of_cons.
      * split; [done|]. destruct He as (r & Hin & <- & _).
        by apply list_elem_of_fmap_2.
      * apply Hl in Hw as [Hyw Hsrc]. split; [by eapply rtc_l|done].
Qed.

Lemma walk_bound st t n x y :
  acyclic_from st t x → nsteps (edge st t) n x y → (n ≤ List.length st)%nat.
Proof.
  intros Hx Hn.
  destruct (walk_sources st t n x y Hx Hn) as (l & <- & Hnd & Hl).
  rewrite <- (length_fmap source st). apply submseteq_length.
  apply NoDup_submseteq; [done|]. intros z Hz. by apply Hl.
Qed.

(** With a recursion limit above the number of stored rows, the search
    returns whenever no cycle of the relation's type can be reached from
    the relation's destination. *)
Lemma _find_cycle_returns st source_to_check depth relation path :
  acyclic_from st (type relation) (destination relation) →
  List.length st < depth →
  ∃ r, _find_cycle depth st source_to_check relation path = Ok r.
Proof.
  intros Hacyclic Hdepth.
  destruct (_find_cycle depth st source_to_check relation path)
    as [r|e] eqn:Hrun; [by exists r|].
  apply _find_cycle_Raise in Hrun as [_ [y Hy]].
  apply walk_bound in Hy; [lia|done].
Qed.

(** A table whose rows of type [t] all lead to a resource of smaller rank
    has no cycle of that type. *)
Lemma acyclic_from_rank st t (rank : string → nat) x :
  Forall (λ r, type r = t → (rank (destination r) < rank (source r))%nat) st →
  acyclic_from st t x.
Proof.
  intros Hrank z _ Hcycle.
  assert (∀ a b, tc (edge st t) a b → (rank b < rank a)%nat) as Hlt.
  { intros a b Htc. induction Htc as [a b He|a b c He _ IH].
    - destruct He as (r & Hin & <- & <- & Ht).
      rewrite Forall_forall in Hrank. by apply Hrank.
    - destruct He as (r & Hin & <- & <- & Ht).
      rewrite Forall_forall in Hrank. specialize (Hrank r Hin Ht). lia. }
  apply Hlt in Hcycle. lia.
Qed.

Lemma chain_global_id st t c x :
  chain st t c → head c = Some x → global_id x →
  (∀ r, r ∈ st → type r = t → global_id (destination r)) →
  ∀ z, z ∈ c → global_id z.
Proof.
  intros Hc Hh Hx Hst. revert x Hc Hh Hx.
  induction c as [|y c IH]; intros x Hc [= ->] Hx z Hz.
  apply elem_of_cons in Hz as [->|Hz]; [done|].
  destruct c as [|y c]; [by apply elem_of_nil in Hz|].
  destruct Hc as [(r & Hin & _ & Hd & Ht) Hc].
  apply (IH y); [done|done| |done]. rewrite <- Hd. by apply Hst.
Qed.

Lemma _get_validator_no_cycle self relation_type :
  _validators self !! relation_type = Some "no_cycle" →
  _get_validator self relation_type = _validate_no_cycle self.
Proof. intros H. unfold _get_validator. by rewrite H. Qed.

(** What [_validate_no_cycle] returns once the search has returned. *)
Lemma _validate_no_cycle_result self depth st relation label r :
  _labels self !! type relation = Some label →
  global_id (destination relation) →
  (∀ r, r ∈ st → type r = type relation → global_id (destination r)) →
  _find_cycle depth st (source relation) relation [] = Ok r →
  match r with
  | Some cycle =>
      head cycle = Some (destination relation)
      ∧ last cycle = Some (source relation)
      ∧ chain st (type relation) cycle
      ∧ _validate_no_cycle self depth st relation
        = Ok (Some ("Cycle in " +:+ label +:+ ": "
                    +:+ Str.join " -> " (resource_name (env self) <$> cycle)))
  | None =>
      ¬ same_type_path st (type relation) (destination relation)
          (source relation)
      ∧ _validate_no_cycle self depth st relation = Ok None
  end.
Proof.
  intros Hlabel Hwf Hst Hrun. unfold _validate_no_cycle. rewrite Hrun.
  destruct r as [cycle|]; simpl.
  - apply _find_cycle_Some in Hrun as (c & -> & Hh & Hl & Hc). simpl.
    split; [done|]. split; [done|]. split; [done|].
    rewrite (comprehension_Ok _ (resource_name (env self))).
    + simpl. unfold render_relation_type, getitem. by rewrite Hlabel.
    + intros z Hz. apply _get_resource_name_from_id_global.
      by eapply chain_global_id.
  - split; [|done]. by eapply _find_cycle_None.
Qed.

(** ** The cycle search on a table that already holds a cycle *)

(** A set of resources that does not contain the checked source and in
    which the first selected row of every member leads to a member again
    traps the search: it exceeds every recursion limit. *)
Lemma _find_cycle_trapped st source_to_check t (P : string → Prop) :
  (∀ x, P x →
     x ≠ source_to_check
     ∧ ∃ linked rest,
         Relation_select st {| where_source := x; where_type := Some t |}
           [col_destination] = linked :: rest
         ∧ P (destination linked) ∧ type linked = t) →
  ∀ depth relation path,
    P (destination relation) → type relation = t →
    _find_cycle depth st source_to_check relation path = Raise RuntimeError.
Proof.
  intros Htrap depth. induction depth as [|depth IH]; [done|].
  intros relation path HP Ht. simpl.
  destruct (Htrap _ HP) as (Hne & linked & rest & Hsel & HP' & Ht').
  destruct (String.eqb_spec source_to_check (destination relation))
    as [Heq|_]; [by destruct Hne|].
  rewrite Ht, Hsel. simpl. by rewrite IH.
Qed.

(** A set of resources closed under the rows of type [t] contains
    everything that a member reaches. *)
Lemma same_type_path_closed st t (P : string → Prop) x z :
  Forall (λ r, type r = t → P (source r) → P (destination r)) st →
  P x → same_type_path st t x z → P z.
Proof.
  intros Hclosed Hx Hpath. induction Hpath as [x|x y z He _ IH]; [done|].
  apply IH. destruct He as (r & Hin & <- & <- & Ht).
  rewrite Forall_forall in Hclosed. by apply Hclosed.
Qed.

Lemma add_validate_Raise self depth st src dst relation_type comment e :
  validate self depth st
    {| source := get_resource_id_from_instance src;
       destination := get_resource_id_from_instance dst;
       type := relation_type; comment := comment |} = Raise e →
  add self depth st src dst relation_type comment = (Raise e, st).
Proof. unfold add, add_relation. by intros ->. Qed.

(** C3 fails on the code: with the rows 2 -> 3 and 3 -> 2 of a type under
    the validator [no_cycle] stored, no path of such rows leads from
    ticket 2 to ticket 1, so the relation 1 -> 2 is to be accepted; yet the
    cycle search for it exceeds every recursion limit, and [validate] and
    [add] end in [RuntimeError] whatever the limit is. With a link whose
    two ends have the same name these rows are what the one add of 2 -> 3
    stores. *)
Theorem no_cycle_validation_exceeds_every_depth (e : Environment)
    (depth : nat) :
  ¬ same_type_path
      [row "2" "3" "dependson"; row "3" "2" "dependson"]
      "dependson" ":ticket:2" ":ticket:1"
  ∧ _find_cycle depth
      [row "2" "3" "dependson"; row "3" "2" "dependson"]
      ":ticket:1" (row "1" "2" "dependson") [] = Raise RuntimeError
  ∧ validate (dependson_system e) depth
      [row "2" "3" "dependson"; row "3" "2" "dependson"]
      (row "1" "2" "dependson") = Raise RuntimeError
  ∧ add (dependson_system e) depth
      [row "2" "3" "dependson"; row "3" "2" "dependson"]
      (ticket "1") (ticket "2") "dependson" None
    = (Raise RuntimeError,
       [row "2" "3" "dependson"; row "3" "2" "dependson"])
  ∧ add (dependson_both_ends_system e) (S depth) []
      (ticket "2") (ticket "3") "dependson" None
    = (Ok None, [row "2" "3" "dependson"; row "3" "2" "dependson"])
  ∧ add (dependson_both_ends_system e) depth
      [row "2" "3" "dependson"; row "3" "2" "dependson"]
      (ticket "1") (ticket "2") "dependson" None
    = (Raise RuntimeError,
       [row "2" "3" "dependson"; row "3" "2" "dependson"]).
Proof.
  set (P := λ x : string, x = ":ticket:2" ∨ x = ":ticket:3").
  assert (_find_cycle depth
            [row "2" "3" "dependson"; row "3" "2" "dependson"]
            ":ticket:1" (row "1" "2" "dependson") [] = Raise RuntimeError)
    as Hrun.
  { apply (_find_cycle_trapped _ _ "dependson" P); [|by left|done].
    intros x [-> | ->]; (split; [discriminate|]); eexists _, _;
      (split; [vm_compute; reflexivity|]); split;
      first [done | by left | by right]. }
  assert (∀ self,
            _validators self !! "dependson" = Some "no_cycle" →
            validate self depth
              [row "2" "3" "dependson"; row "3" "2" "dependson"]
              (row "1" "2" "dependson") = Raise RuntimeError) as Hval.
  { intros self Htag. unfold validate.
    rewrite (_get_validator_no_cycle self) by exact Htag.
    unfold _validate_no_cycle.
    change (source (row "1" "2" "dependson")) with ":ticket:1".
    by rewrite Hrun. }
  split; [|split; [exact Hrun|split; [by apply Hval|split; [|split]]]].
  - intros Hpath.
    apply (same_type_path_closed _ _ P) in Hpath as [?|?];
      [done|done| |by left].
    repeat constructor; simpl; intros _ [?|?];
      first [done | by left | by right].
  - apply add_validate_Raise. by apply Hval.
  - vm_compute. reflexivity.
  - apply add_validate_Raise. by apply Hval.
Qed.

(** C5 fails on the code: with [parent = parent, child] under
    [parent_child], the unvalidated adds 2 child-of 3 and 3 child-of 2 store
    the [parent] rows 3 -> 2 and 2 -> 3; no [parent] path leads from
    ticket 2 to ticket 1, and the search for the proposed 1 -> 2 exceeds
    every recursion limit, so [add] ends in [RuntimeError] whatever the
    limit is. *)
Theorem find_cycle_exceeds_every_depth_on_stored_cycle (e : Environment)
    (depth : nat) :
  add (parent_child_system e) depth [] (ticket "2") (ticket "3") "child" None
  = (Ok None, [row "2" "3" "child"; row "3" "2" "parent"])
  ∧ add (parent_child_system e) depth
      [row "2" "3" "child"; row "3" "2" "parent"]
      (ticket "3") (ticket "2") "child" None
    = (Ok None,
       [row "2" "3" "child"; row "3" "2" "parent";
        row "3" "2" "child"; row "2" "3" "parent"])
  ∧ ¬ same_type_path
        [row "2" "3" "child"; row "3" "2" "parent";
         row "3" "2" "child"; row "2" "3" "parent"]
        "parent" ":ticket:2" ":ticket:1"
  ∧ _find_cycle depth
      [row "2" "3" "child"; row "3" "2" "parent";
       row "3" "2" "child"; row "2" "3" "parent"]
      ":ticket:1" (row "1" "2" "parent") [] = Raise RuntimeError
  ∧ add (parent_child_system e) depth
      [row "2" "3" "child"; row "3" "2" "parent";
       row "3" "2" "child"; row "2" "3" "parent"]
      (ticket "1") (ticket "2") "parent" None
    = (Raise RuntimeError,
       [row "2" "3" "child"; row "3" "2" "parent";
        row "3" "2" "child"; row "2" "3" "parent"]).
Proof.
  set (P := λ x : string, x = ":ticket:2" ∨ x = ":ticket:3").
  assert (_find_cycle depth
            [row "2" "3" "child"; row "3" "2" "parent";
             row "3" "2" "child"; row "2" "3" "parent"]
            ":ticket:1" (row "1" "2" "parent") [] = Raise RuntimeError)
    as Hrun.
  { apply (_find_cycle_trapped _ _ "parent" P); [|by left|done].
    intros x [-> | ->]; (split; [discriminate|]); eexists _, _;
      (split; [vm_compute; reflexivity|]); split;
      first [done | by left | by right]. }
  split; [vm_compute; reflexivity|]. split; [vm_compute; reflexivity|].
  split; [|split; [exact Hrun|]].
  - intros Hpath.
    apply (same_type_path_closed _ _ P) in Hpath as [?|?];
      [done|done| |by left].
    repeat constructor; simpl; intros ? [?|?];
      first [done | by left | by right].
  - apply add_validate_Raise. fold (row "1" "2" "parent").
    unfold validate.
    change (_get_validator (parent_child_system e) _)
      with (_validate_parent (parent_child_system e)).
    unfold _validate_parent, _validate_no_cycle.
    change (source (row "1" "2" "parent")) with ":ticket:1".
    by rewrite Hrun.
Qed.

(** ** The [parent_child] validator *)

Lemma _get_validator_parent self :
  _validators self !! PARENT_RELATION_TYPE = Some "parent_child" →
  _get_validator self PARENT_RELATION_TYPE = _validate_parent self.
Proof. intros H. unfold _get_validator. by rewrite H. Qed.

Lemma last_elem_of {A} (l : list A) (d : A) : l ≠ [] → List.last l d ∈ l.
Proof.
  induction l as [|x [|y l] IH]; [done|left|]. intros _. right. by apply IH.
Qed.

(** C7 fails on the code for tickets of a product. In the scenario
    [parent = parent, child] with the tickets 1, 2 and 3 of the product
    [tp]: ticket 1 gets parent ticket 2; giving it parent ticket 3 then
    passes the cycle check and finds the stored parent, but building the
    reason looks up the name of [tp:ticket:1], which ends in [TypeError]:
    no [ValidationError] names ticket 1 and its parent. With tickets of
    the global environment the second add is rejected with the reason that
    names ticket 1 and its parent ticket 2. *)
Theorem parent_validation_raises_TypeError_for_product (e : Environment)
    (d : nat) :
  add (parent_child_system e) (S d) []
    (product_ticket "tp" "1") (product_ticket "tp" "2") "parent" None
  = (Ok None,
     [product_row "tp" "1" "2" "parent"; product_row "tp" "2" "1" "child"])
  ∧ _validate_no_cycle (parent_child_system e) (S d)
      [product_row "tp" "1" "2" "parent"; product_row "tp" "2" "1" "child"]
      (product_row "tp" "1" "3" "parent") = Ok None
  ∧ _select_relations_by_source
      [product_row "tp" "1" "2" "parent"; product_row "tp" "2" "1" "child"]
      "tp:ticket:1" (Some "parent")
    = [product_row "tp" "1" "2" "parent"]
  ∧ _get_resource_name_from_id (parent_child_system e) "tp:ticket:1"
    = Raise TypeError
  ∧ add (parent_child_system e) (S d)
      [product_row "tp" "1" "2" "parent"; product_row "tp" "2" "1" "child"]
      (product_ticket "tp" "1") (product_ticket "tp" "3") "parent" None
    = (Raise TypeError,
       [product_row "tp" "1" "2" "parent"; product_row "tp" "2" "1" "child"])
  ∧ add (parent_child_system e) (S d) []
      (ticket "1") (ticket "2") "parent" None
    = (Ok None, [row "1" "2" "parent"; row "2" "1" "child"])
  ∧ add (parent_child_system e) (S d)
      [row "1" "2" "parent"; row "2" "1" "child"]
      (ticket "1") (ticket "3") "parent" None
    = (Raise (ValidationError
                ("Multiple links in 'Parent': #"
                 +:+ get_resource_shortname e "" "ticket" "1" +:+ " -> ["
                 +:+ get_resource_shortname e "" "ticket" "2" +:+ "]")),
       [row "1" "2" "parent"; row "2" "1" "child"]).
Proof. repeat split; vm_compute; reflexivity. Qed.

(** ** Blockers *)

Lemma can_be_resolved_loop_yields_nothing self depth st relations :
  fst (can_be_resolved_loop self depth st relations) = [].
Proof.
  induction relations as [|relation relations IH]; simpl; [done|].
  destruct (is_blocker self (type relation)) as [[]|]; [|done|done].
  by destruct (call_find_blockers self depth st [arg_relation relation])
    as [[|]|].
Qed.

(** Called with both arguments, [find_blockers] for the relation 1 blocks 2
    looks at the relations that leave ticket 2: it reaches ticket 1 through
    the reverse row and reports it while it is open, whatever the status of
    ticket 2. *)
Lemma find_blockers_follows_reverse_row (status : string → string) (d : nat) :
  status "1" = "new" →
  call_find_blockers (blocks_system (ticket_env status)) (S d)
    [row "1" "2" "blocks"; row "2" "1" "blocked_by"]
    [arg_relation (row "1" "2" "blocks"); arg_list []]
  = Ok [{| ticket_prefix := ""; ticket_id := "1" |}].
Proof.
  intros Hstatus. unfold call_find_blockers.
  cbn [find_blockers].
  change (_select_relations_by_source _ _ None)
    with [row "2" "1" "blocked_by"].
  cbn. unfold _create_resource_instance_by_full_id, _is_resource_blocked.
  cbn. change (split_full_id _) with [""; "ticket"; "1"].
  cbn. by rewrite Hstatus.
Qed.

(** C6 fails on the code: with [blocks = blocks, blocked_by] and [blocks]
    flagged as blocking, after ticket 1 blocks ticket 2 was added,
    exhausting [can_be_resolved] for ticket 1 yields no rejection and ends
    in [TypeError], whatever the status of ticket 2 is: [find_blockers] is
    called with one argument where it takes two. On no input at all does
    [can_be_resolved] yield a rejection. *)
Theorem can_be_resolved_raises_TypeError (e : Environment) (depth : nat) :
  add (blocks_system e) depth [] (ticket "1") (ticket "2") "blocks" None
  = (Ok None, [row "1" "2" "blocks"; row "2" "1" "blocked_by"])
  ∧ can_be_resolved (blocks_system e) depth
      [row "1" "2" "blocks"; row "2" "1" "blocked_by"] (ticket "1")
    = ([], Some TypeError)
  ∧ ∀ (self : RelationsSystem) (st : store) (resource : Resource.t),
      fst (can_be_resolved self depth st resource) = [].
Proof.
  split; [vm_compute; reflexivity|]. split; [vm_compute; reflexivity|].
  intros self st resource. apply can_be_resolved_loop_yields_nothing.
Qed.

(** * Further properties *)

Set Warnings "-clear-no-such-hyp".

(** ** [unique] *)

Lemma unique_from_elem_of `{Countable A} (seen : gset A) (seq : list A) x :
  x ∈ unique_from seen seq ↔ x ∈ seq ∧ x ∉ seen.
Proof.
  revert seen. induction seq as [|y seq IH]; intros seen; simpl.
  - split; [by intros ?%elem_of_nil|by intros [?%elem_of_nil _]].
  - destruct (decide (y ∈ seen)) as [Hy|Hy].
    + rewrite IH, elem_of_cons. split; [naive_solver|].
      intros [[->|?] ?]; [done|by split].
    + rewrite !elem_of_cons, IH. split.
      * intros [->|[? ?]]; [by split; [left|]|]. split; [by right|set_solver].
      * intros [[->|Hx] Hs]; [by left|].
        destruct (decide (x = y)) as [->|Hne]; [by left|].
        right. split; [done|set_solver].
Qed.

Lemma unique_from_NoDup `{Countable A} (seen : gset A) (seq : list A) :
  NoDup (unique_from seen seq).
Proof.
  revert seen. induction seq as [|y seq IH]; intros seen; simpl;
    [constructor|].
  destruct (decide (y ∈ seen)); [done|]. constructor; [|done].
  rewrite unique_from_elem_of. set_solver.
Qed.

Lemma unique_from_sublist `{Countable A} (seen : gset A) (seq : list A) :
  unique_from seen seq `sublist_of` seq.
Proof.
  revert seen. induction seq as [|y seq IH]; intros seen; simpl; [done|].
  destruct (decide (y ∈ seen)); [by apply sublist_cons|by apply sublist_skip].
Qed.

Lemma unique_from_insert `{Countable A} (seen : gset A) (seq : list A) x :
  unique_from ({[x]} ∪ seen) seq
  = unique_from seen (List.filter (λ y, bool_decide (y ≠ x)) seq).
Proof.
  revert seen. induction seq as [|y seq IH]; intros seen; simpl; [done|].
  destruct (decide (y = x)) as [->|Hne].
  - rewrite bool_decide_eq_false_2 by naive_solver.
    rewrite decide_True by set_solver. apply IH.
  - rewrite bool_decide_eq_true_2 by done. simpl.
    destruct (decide (y ∈ seen)) as [Hy|Hy].
    + rewrite decide_True by set_solver. apply IH.
    + rewrite decide_False by set_solver. f_equal.
      rewrite <- IH. f_equal. set_solver.
Qed.

(** [unique] yields every element of the sequence exactly once, in the
    order of first occurrence: the result has no duplicates and the same
    members, it is the sequence with some positions dropped, and its first
    item is the first of the sequence, followed by what [unique] yields on
    the rest without that item. *)
Theorem unique_first_occurrences `{Countable A} (seq : list A) :
  NoDup (unique seq)
  ∧ (∀ x, x ∈ unique seq ↔ x ∈ seq)
  ∧ unique seq `sublist_of` seq
  ∧ match seq with
    | [] => unique seq = []
    | x :: seq' =>
        unique seq = x :: unique (List.filter (λ y, bool_decide (y ≠ x)) seq')
    end.
Proof.
  unfold unique. split; [apply unique_from_NoDup|]. split.
  { intros x. rewrite unique_from_elem_of. set_solver. }
  split; [apply unique_from_sublist|].
  destruct seq as [|x seq']; [done|]. simpl.
  rewrite decide_False by set_solver. f_equal.
  rewrite unique_from_insert. done.
Qed.

(** A sequence without duplicates passes through [unique] unchanged, so
    applying [unique] twice is the same as applying it once. *)
Theorem unique_idempotent `{Countable A} (seq : list A) :
  (NoDup seq → unique seq = seq) ∧ unique (unique seq) = unique seq.
Proof.
  assert (∀ (l : list A) (seen : gset A),
            NoDup l → (∀ x, x ∈ l → x ∉ seen) → unique_from seen l = l)
    as Hfix.
  { induction l as [|x l IH]; intros seen Hnd Hseen; simpl; [done|].
    apply NoDup_cons in Hnd as [Hx Hnd].
    rewrite decide_False by (apply Hseen; left). f_equal.
    apply IH; [done|]. intros y Hy. specialize (Hseen y).
    rewrite elem_of_cons in Hseen. set_solver. }
  split.
  - intros Hnd. apply Hfix; [done|set_solver].
  - apply Hfix; [apply unique_from_NoDup|set_solver].
Qed.

Lemma unique_idempotent_witness :
  unique ["#2"; "#5"; "#3"] = ["#2"; "#5"; "#3"].
Proof.
  apply (unique_idempotent ["#2"; "#5"; "#3"]).
  repeat constructor; rewrite ?elem_of_cons, ?elem_of_nil; naive_solver.
Defined.

(** ** Ids as delimited strings *)

Lemma split_length sep s :
  List.length (Str.split sep s) = S (occurrences sep s).
Proof.
  induction s as [|c s IH]; simpl; [done|].
  destruct (Ascii.eqb c sep); simpl; [by rewrite IH|].
  destruct (Str.split sep s); simpl in *; [done|by rewrite IH].
Qed.

Lemma join_split sep s : Str.join (delimiter sep) (Str.split sep s) = s.
Proof.
  unfold delimiter. induction s as [|c s IH]; simpl; [done|].
  destruct (Ascii.eqb_spec c sep) as [->|Hne].
  - pose proof (split_not_nil sep s) as Hnil.
    destruct (Str.split sep s) as [|w ws]; [done|].
    simpl in *. by rewrite IH.
  - destruct (Str.split sep s) as [|w ws]; [simpl in *; by subst|].
    destruct ws as [|w' ws]; simpl in *; by rewrite <- IH.
Qed.

Lemma contains_occurrences sep s :
  Str.contains sep s = false ↔ occurrences sep s = 0.
Proof.
  induction s as [|c s IH]; simpl; [done|].
  destruct (Ascii.eqb c sep); simpl; [split; [done|lia]|done].
Qed.

Lemma occurrences_app sep a b :
  occurrences sep (a +:+ b) = occurrences sep a + occurrences sep b.
Proof. induction a as [|c a IH]; simpl; [done|]. rewrite IH. lia. Qed.

Lemma split_parts_without_sep sep s w :
  w ∈ Str.split sep s → Str.contains sep w = false.
Proof.
  revert w. induction s as [|c s IH]; simpl; intros w.
  - by intros ->%list_elem_of_singleton.
  - destruct (Ascii.eqb c sep) eqn:Hc.
    + intros [->|Hw]%elem_of_cons; [done|by apply IH].
    + destruct (Str.split sep s) as [|w' ws]; simpl.
      * intros ->%list_elem_of_singleton. simpl. by rewrite Hc.
      * intros [->|Hw]%elem_of_cons.
        -- simpl. rewrite Hc. apply IH. left.
        -- apply IH. by right.
Qed.

Lemma occurrences_create_relation_id relation :
  occurrences RELATION_ID_DELIMITER (_create_relation_id relation)
  = 2 + occurrences RELATION_ID_DELIMITER (source relation)
    + occurrences RELATION_ID_DELIMITER (destination relation)
    + occurrences RELATION_ID_DELIMITER (type relation).
Proof.
  unfold _create_relation_id, delimiter. cbn [Str.join].
  rewrite !occurrences_app. simpl. lia.
Qed.

Lemma _parse_relation_id_other_count relation_id :
  occurrences RELATION_ID_DELIMITER relation_id ≠ 2 →
  _parse_relation_id relation_id = Raise ValueError.
Proof.
  pose proof (split_length RELATION_ID_DELIMITER relation_id) as Hlen.
  unfold _parse_relation_id.
  destruct (Str.split RELATION_ID_DELIMITER relation_id)
    as [|s [|d [|t [|u l]]]]; simpl in Hlen; intros Hocc; try done; lia.
Qed.

(** A string is a relation id exactly when it holds two [,]:
    [_parse_relation_id] then returns three parts free of [,] from which
    [_create_relation_id] rebuilds the string; on every other string it
    raises [ValueError]. *)
Theorem _parse_relation_id_two_delimiters (relation_id : string) :
  (occurrences RELATION_ID_DELIMITER relation_id = 2 →
   ∃ s d t,
     _parse_relation_id relation_id = Ok (s, d, t)
     ∧ _create_relation_id (Relation_keys s d t) = relation_id
     ∧ Str.contains RELATION_ID_DELIMITER s = false
     ∧ Str.contains RELATION_ID_DELIMITER d = false
     ∧ Str.contains RELATION_ID_DELIMITER t = false)
  ∧ (occurrences RELATION_ID_DELIMITER relation_id ≠ 2 →
     _parse_relation_id relation_id = Raise ValueError).
Proof.
  pose proof (split_length RELATION_ID_DELIMITER relation_id) as Hlen.
  pose proof (join_split RELATION_ID_DELIMITER relation_id) as Hjoin.
  pose proof (split_parts_without_sep RELATION_ID_DELIMITER relation_id)
    as Hparts.
  unfold _parse_relation_id, _create_relation_id.
  destruct (Str.split RELATION_ID_DELIMITER relation_id)
    as [|s [|d [|t [|u l]]]]; simpl in Hlen; split; intros Hocc;
    try lia; try done.
  exists s, d, t. split; [done|]. split; [done|].
  repeat split; apply Hparts; set_solver.
Qed.

Lemma _parse_relation_id_two_delimiters_witness :
  ∃ s d t,
    _parse_relation_id ":ticket:1,:ticket:2,blocks" = Ok (s, d, t)
    ∧ _create_relation_id (Relation_keys s d t) = ":ticket:1,:ticket:2,blocks"
    ∧ Str.contains RELATION_ID_DELIMITER s = false
    ∧ Str.contains RELATION_ID_DELIMITER d = false
    ∧ Str.contains RELATION_ID_DELIMITER t = false.
Proof.
  apply (proj1 (_parse_relation_id_two_delimiters ":ticket:1,:ticket:2,blocks")).
  reflexivity.
Defined.

(** A relation one of whose keys holds a [,] cannot be addressed by its own
    id: the id built by [_create_relation_id] has more than two [,], so
    parsing it raises [ValueError] and [delete] leaves the table as it
    was. *)
Theorem delete_key_with_delimiter (self : RelationsSystem) (st : store)
    (relation : Relation) :
  Str.contains RELATION_ID_DELIMITER (source relation) = true
  ∨ Str.contains RELATION_ID_DELIMITER (destination relation) = true
  ∨ Str.contains RELATION_ID_DELIMITER (type relation) = true →
  _parse_relation_id (_create_relation_id relation) = Raise ValueError
  ∧ delete self st (_create_relation_id relation) = (Raise ValueError, st).
Proof.
  intros Hcomma.
  assert (_parse_relation_id (_create_relation_id relation) = Raise ValueError)
    as Hparse.
  { apply _parse_relation_id_other_count.
    rewrite occurrences_create_relation_id.
    assert (∀ s, Str.contains RELATION_ID_DELIMITER s = true →
                 occurrences RELATION_ID_DELIMITER s ≠ 0) as Hpos.
    { intros s Hs Hz. apply contains_occurrences in Hz. congruence. }
    destruct Hcomma as [H|[H|H]]; apply Hpos in H; lia. }
  split; [done|]. unfold delete. by rewrite Hparse.
Qed.

Lemma delete_key_with_delimiter_witness :
  delete (blocks_system (ticket_env (λ _, "new")))
    [Relation_keys ":ticket:1,2" ":ticket:3" "blocks"]
    (_create_relation_id (Relation_keys ":ticket:1,2" ":ticket:3" "blocks"))
  = (Raise ValueError, [Relation_keys ":ticket:1,2" ":ticket:3" "blocks"]).
Proof.
  apply (delete_key_with_delimiter (blocks_system (ticket_env (λ _, "new")))
           [Relation_keys ":ticket:1,2" ":ticket:3" "blocks"]
           (Relation_keys ":ticket:1,2" ":ticket:3" "blocks")).
  left. reflexivity.
Defined.

(** Resources whose prefix, realm and id are free of [:] have the same
    resource id only when they are the same resource. *)
Theorem get_resource_id_from_instance_injective (r1 r2 : Resource.t) :
  Str.contains RESOURCE_ID_DELIMITER (Resource.neighborhood_prefix r1) = false →
  Str.contains RESOURCE_ID_DELIMITER (Resource.realm r1) = false →
  Str.contains RESOURCE_ID_DELIMITER (Resource.id r1) = false →
  Str.contains RESOURCE_ID_DELIMITER (Resource.neighborhood_prefix r2) = false →
  Str.contains RESOURCE_ID_DELIMITER (Resource.realm r2) = false →
  Str.contains RESOURCE_ID_DELIMITER (Resource.id r2) = false →
  get_resource_id_from_instance r1 = get_resource_id_from_instance r2 →
  r1 = r2.
Proof.
  intros Hp1 Hr1 Hi1 Hp2 Hr2 Hi2 Heq.
  apply (f_equal split_full_id) in Heq.
  unfold split_full_id, get_resource_id_from_instance in Heq.
  rewrite !split_join3 in Heq by done.
  destruct r1, r2. simpl in *. by injection Heq as -> -> ->.
Qed.

Lemma get_resource_id_from_instance_injective_witness :
  ticket "7" = Resource.Build "" "ticket" "7".
Proof.
  apply (get_resource_id_from_instance_injective (ticket "7")
           (Resource.Build "" "ticket" "7")); reflexivity.
Defined.

(** ** Types that are not configured *)

(** A relation of a type that [link_ends_map] does not know is never
    stored: [add_relation] always raises and leaves the table as it was;
    when validation passes and the relation is new, the row is inserted
    first and then rolled back by the [KeyError] of the lookup. *)
Theorem add_relation_unconfigured_type (self : RelationsSystem) (depth : nat)
    (st : store) (relation : Relation) :
  link_ends_map self !! type relation = None →
  (∃ e, add_relation self depth st relation = (Raise e, st))
  ∧ (validate self depth st relation = Ok tt → fresh st relation →
     add_relation self depth st relation
     = (Raise (KeyError (type relation)), st)).
Proof.
  intros Hmap. unfold add_relation, Relation_insert, fresh, getitem.
  rewrite Hmap.
  destruct (validate self depth st relation) as [[]|e].
  - destruct (existsb (same_key relation) st); simpl.
    + split; [by eexists|]. by intros _ [=].
    + split; [by eexists|done].
  - split; [by eexists|]. by intros [=].
Qed.

Lemma add_relation_unconfigured_type_witness :
  add_relation (blocks_system (ticket_env (λ _, "new"))) 1 []
    (row "1" "2" "duplicates")
  = (Raise (KeyError "duplicates"), []).
Proof.
  apply (add_relation_unconfigured_type
           (blocks_system (ticket_env (λ _, "new"))) 1 []
           (row "1" "2" "duplicates")); vm_compute; reflexivity.
Defined.

(** A stored relation of a type that [link_ends_map] does not know cannot
    be deleted: [_delete_relation] removes the row, fails on the lookup of
    the other end with [KeyError], and the transaction restores the row;
    [delete] by id does the same. *)
Theorem delete_unconfigured_type (self : RelationsSystem) (st : store)
    (s d t : string) :
  link_ends_map self !! t = None →
  _delete_relation self st (Relation_keys s d t) = (Raise (KeyError t), st)
  ∧ (Str.contains RELATION_ID_DELIMITER s = false →
     Str.contains RELATION_ID_DELIMITER d = false →
     Str.contains RELATION_ID_DELIMITER t = false →
     delete self st (_create_relation_id (Relation_keys s d t))
     = (Raise (KeyError t), st)).
Proof.
  intros Hmap.
  assert (_delete_relation self st (Relation_keys s d t)
          = (Raise (KeyError t), st)) as Hdel.
  { unfold _delete_relation, getitem. simpl. by rewrite Hmap. }
  split; [done|]. intros Hs Hd Ht. unfold delete.
  by rewrite _parse_create_relation_id.
Qed.

Lemma delete_unconfigured_type_witness :
  delete (blocks_system (ticket_env (λ _, "new")))
    [row "1" "2" "duplicates"] ":ticket:1,:ticket:2,duplicates"
  = (Raise (KeyError "duplicates"), [row "1" "2" "duplicates"]).
Proof.
  apply (delete_unconfigured_type (blocks_system (ticket_env (λ _, "new")))
           [row "1" "2" "duplicates"] ":ticket:1" ":ticket:2" "duplicates");
    vm_compute; reflexivity.
Defined.

(** ** Invariants of the table *)

Lemma key_same_key r1 r2 : key r1 = key r2 ↔ same_key r1 r2 = true.
Proof.
  rewrite same_key_spec. unfold key. split; [by intros [= -> -> ->]|].
  by intros (-> & -> & ->).
Qed.

Lemma fresh_key st r : fresh st r ↔ key r ∉ key <$> st.
Proof.
  rewrite fresh_elem_of, list_elem_of_fmap. split.
  - intros Hf (row & Hk & Hin). apply Hf in Hin.
    symmetry in Hk. apply key_same_key in Hk. congruence.
  - intros Hk row Hin. destruct (same_key row r) eqn:Hsame; [|done].
    destruct Hk. exists row. split; [|done]. symmetry. by apply key_same_key.
Qed.

Lemma unique_keys_delete st r :
  unique_keys st → unique_keys (Relation_delete st r).
Proof.
  unfold unique_keys. induction st as [|row st IH]; [done|].
  rewrite fmap_cons, NoDup_cons. intros [Hrow Hst].
  destruct (same_key row r) eqn:Hsame.
  - rewrite Relation_delete_cons_same by done. by apply IH.
  - rewrite Relation_delete_cons_other by done.
    rewrite fmap_cons, NoDup_cons. split; [|by apply IH].
    rewrite list_elem_of_fmap in Hrow |- *.
    intros (row' & Hk & Hin). apply elem_of_Relation_delete in Hin as [Hin _].
    destruct Hrow. by exists row'.
Qed.

Lemma unique_keys_snoc st r :
  unique_keys st → fresh st r → unique_keys (st ++ [r]).
Proof.
  unfold unique_keys. intros Hnd Hfresh%fresh_key.
  rewrite fmap_app, NoDup_app. split; [done|]. split.
  - intros k Hk ->%list_elem_of_singleton. done.
  - apply NoDup_singleton.
Qed.

Lemma add_relation_Raise self depth st relation e st' :
  add_relation self depth st relation = (Raise e, st') → st' = st.
Proof.
  unfold add_relation.
  destruct (validate self depth st relation); [|congruence].
  destruct (bind _ _); congruence.
Qed.

(** The table never holds two rows with the same (source, destination,
    type): whatever [add_relation], [_delete_relation] and [delete] return,
    a table without duplicate keys stays without. *)
Theorem unique_keys_preserved (self : RelationsSystem) (depth : nat)
    (st : store) :
  unique_keys st →
  (∀ relation, unique_keys (snd (add_relation self depth st relation)))
  ∧ (∀ relation, unique_keys (snd (_delete_relation self st relation)))
  ∧ (∀ relation_id, unique_keys (snd (delete self st relation_id))).
Proof.
  intros Hst.
  assert (∀ relation, unique_keys (snd (_delete_relation self st relation)))
    as Hdel.
  { intros relation. unfold _delete_relation, getitem.
    destruct (link_ends_map self !! type relation) as [o|]; simpl; [|done].
    destruct (truthy o); simpl; repeat apply unique_keys_delete; done. }
  split; [|split; [done|]].
  - intros relation.
    destruct (add_relation self depth st relation) as [[[]|e] st'] eqn:Hadd.
    + apply add_relation_Ok in Hadd as (_ & Hfresh & o & _ & Hrows). simpl.
      destruct (truthy o) as [other_end|].
      * destruct Hrows as [Hfresh2 ->].
        change (st ++ [relation; clone_reverted relation other_end])
          with (st ++ [relation] ++ [clone_reverted relation other_end]).
        rewrite app_assoc. by repeat apply unique_keys_snoc.
      * subst st'. by apply unique_keys_snoc.
    + apply add_relation_Raise in Hadd as ->. done.
  - intros relation_id. unfold delete.
    destruct (_parse_relation_id relation_id) as [[[s d] t]|e]; [|done].
    apply Hdel.
Qed.

Lemma unique_keys_preserved_witness :
  unique_keys
    (snd (add_relation (blocks_system (ticket_env (λ _, "new"))) 1
            [row "1" "2" "blocks"; row "2" "1" "blocked_by"]
            (row "1" "3" "blocks"))).
Proof.
  apply (unique_keys_preserved (blocks_system (ticket_env (λ _, "new"))) 1
           [row "1" "2" "blocks"; row "2" "1" "blocked_by"]).
  unfold unique_keys. vm_compute.
  repeat constructor; rewrite ?elem_of_cons, ?elem_of_nil; naive_solver.
Defined.

Lemma truthy_Some_inv o t : truthy o = Some t → o = Some t ∧ t ≠ EmptyString.
Proof. destruct o as [[|c s]|]; simpl; [done| |done]. by intros [= <-]. Qed.

Lemma reverse_closed_add self depth st relation :
  symmetric_pairing self → reverse_closed self st →
  reverse_closed self (snd (add_relation self depth st relation)).
Proof.
  intros Hsym Hst.
  destruct (add_relation self depth st relation) as [[[]|e] st'] eqn:Hadd;
    [|by apply add_relation_Raise in Hadd as ->].
  apply add_relation_Ok in Hadd as (_ & _ & o & Hmap & Hrows). simpl.
  assert (∀ r t', r ∈ st →
            link_ends_map self !! type r = Some (Some t') → t' ≠ EmptyString →
            ∃ r', r' ∈ st' ∧ same_key r' (clone_reverted r t') = true) as Hold.
  { intros r t' Hin Hr Ht'. destruct (Hst r t' Hin Hr Ht') as (r' & Hin' & Hk).
    exists r'. split; [|done].
    destruct (truthy o); [destruct Hrows as [_ ->]|subst st'];
      apply elem_of_app; by left. }
  destruct (truthy o) as [other_end|] eqn:Ho.
  - destruct Hrows as [_ ->]. apply truthy_Some_inv in Ho as [-> Hne].
    intros r t' Hin Hr Ht'.
    apply elem_of_app in Hin as [Hin|Hin]; [by apply Hold|].
    apply elem_of_cons in Hin as [->|Hin].
    + rewrite Hmap in Hr. injection Hr as <-.
      exists (clone_reverted relation other_end).
      split; [|apply same_key_refl]. set_solver.
    + apply list_elem_of_singleton in Hin as ->. simpl in Hr.
      destruct (Hsym _ _ Hmap Hne) as [Hback _].
      rewrite Hback in Hr. injection Hr as <-.
      exists relation. split; [set_solver|]. by apply same_key_spec.
  - subst st'. intros r t' Hin Hr Ht'.
    apply elem_of_app in Hin as [Hin|Hin]; [by apply Hold|].
    apply list_elem_of_singleton in Hin as ->.
    rewrite Hmap in Hr. injection Hr as ->. by destruct t'.
Qed.

Lemma reverse_closed_delete self st relation :
  symmetric_pairing self → reverse_closed self st →
  reverse_closed self (snd (_delete_relation self st relation)).
Proof.
  intros Hsym Hst. unfold _delete_relation, getitem.
  destruct (link_ends_map self !! type relation) as [o|] eqn:Hmap;
    simpl; [|done].
  destruct (truthy o) as [t2|] eqn:Ho; simpl.
  - apply truthy_Some_inv in Ho as [-> Ht2].
    destruct (Hsym _ _ Hmap Ht2) as [Hback Hne].
    intros r t' Hin Hr Ht'.
    apply elem_of_Relation_delete in Hin as [Hin Hk2].
    apply elem_of_Relation_delete in Hin as [Hin Hk1].
    destruct (Hst r t' Hin Hr Ht') as (r' & Hin' & Hk).
    destruct (Hsym _ _ Hr Ht') as [Hback' Hne'].
    exists r'. split; [|done].
    apply same_key_spec in Hk as (Hs & Hd & Ht). simpl in Hs, Hd, Ht.
    rewrite !elem_of_Relation_delete. split; [split; [done|]|].
    + destruct (same_key r' relation) eqn:Hsame; [|done].
      apply same_key_spec in Hsame as (Hs' & Hd' & Ht'').
      assert (t2 = type r) as -> by congruence.
      assert (same_key r
                (Relation_keys (destination relation) (source relation)
                   (type r)) = true); [|congruence].
      apply same_key_spec. simpl. repeat split; congruence.
    + destruct (same_key r' (Relation_keys _ _ _)) eqn:Hsame; [|done].
      apply same_key_spec in Hsame as (Hs' & Hd' & Ht''). simpl in *.
      assert (type r = type relation) by congruence.
      assert (same_key r relation = true); [|congruence].
      apply same_key_spec. repeat split; congruence.
  - intros r t' Hin Hr Ht'.
    apply elem_of_Relation_delete in Hin as [Hin Hk1].
    destruct (Hst r t' Hin Hr Ht') as (r' & Hin' & Hk).
    destruct (Hsym _ _ Hr Ht') as [Hback' Hne'].
    exists r'. split; [|done].
    apply same_key_spec in Hk as (Hs & Hd & Ht). simpl in Hs, Hd, Ht.
    rewrite elem_of_Relation_delete. split; [done|].
    destruct (same_key r' relation) eqn:Hsame; [|done].
    apply same_key_spec in Hsame as (Hs' & Hd' & Ht'').
    assert (o = Some (type r)) as -> by congruence.
    rewrite truthy_Some in Ho; done.
Qed.

(** With a pairing that points back, the table stays closed under
    reversal: when every stored row of a paired type has its reverse row
    stored, the same holds after [add_relation], [_delete_relation] and
    [delete], whatever they return. *)
Theorem reverse_closed_preserved (self : RelationsSystem) (depth : nat)
    (st : store) :
  symmetric_pairing self → reverse_closed self st →
  (∀ relation,
     reverse_closed self (snd (add_relation self depth st relation)))
  ∧ (∀ relation,
       reverse_closed self (snd (_delete_relation self st relation)))
  ∧ (∀ relation_id, reverse_closed self (snd (delete self st relation_id))).
Proof.
  intros Hsym Hst. split; [|split].
  - intros relation. by apply reverse_closed_add.
  - intros relation. by apply reverse_closed_delete.
  - intros relation_id. unfold delete.
    destruct (_parse_relation_id relation_id) as [[[s d] t]|e]; [|done].
    by apply reverse_closed_delete.
Qed.

(** ** [link_ends_map] *)

Lemma fold_link_ends_origin ends (m : gmap string (option string)) t v :
  fold_left
    (λ m '(end1, end2),
       let m := <[end1 := end2]> m in
       match end2 with
       | Some e2 => <[e2 := Some end1]> m
       | None => m
       end)
    ends m !! t = Some v →
  m !! t = Some v
  ∨ (t, v) ∈ ends
  ∨ ∃ end1, (end1, Some t) ∈ ends ∧ v = Some end1.
Proof.
  revert m. induction ends as [|[end1 end2] ends IH]; intros m; simpl;
    [by left|].
  intros [Hm|[Hin|(e & Hin & ->)]]%IH.
  - destruct end2 as [e2|].
    + destruct (decide (e2 = t)) as [->|Hne2].
      * rewrite lookup_insert_eq in Hm. injection Hm as <-.
        right. right. exists end1. split; [left|done].
      * rewrite lookup_insert_ne in Hm by done.
        destruct (decide (end1 = t)) as [->|Hne1].
        -- rewrite lookup_insert_eq in Hm. injection Hm as <-.
           right. left. left.
        -- rewrite lookup_insert_ne in Hm by done. by left.
    + destruct (decide (end1 = t)) as [->|Hne1].
      * rewrite lookup_insert_eq in Hm. injection Hm as <-.
        right. left. left.
      * rewrite lookup_insert_ne in Hm by done. by left.
  - right. left. by right.
  - right. right. exists e. split; [by right|done].
Qed.

Lemma end_names_elem_of ends end1 end2 :
  (end1, end2) ∈ ends →
  end1 ∈ end_names ends ∧ ∀ e2, end2 = Some e2 → e2 ∈ end_names ends.
Proof.
  intros Hin. unfold end_names. split.
  - apply list_elem_of_In, in_flat_map. exists (end1, end2).
    split; [by apply list_elem_of_In|left; done].
  - intros e2 ->. apply list_elem_of_In, in_flat_map. exists (end1, Some e2).
    split; [by apply list_elem_of_In|right; left; done].
Qed.

Lemma symmetric_pairing_of_links self :
  NoDup (end_names (get_ends self)) →
  EmptyString ∉ end_names (get_ends self) →
  symmetric_pairing self.
Proof.
  intros Hnd Hempty t t' Hmap Ht'.
  destruct (link_ends_map_of_links self Hnd) as [Hpaired _].
  assert (∀ e1 e2, (e1, Some e2) ∈ get_ends self →
                   e1 ≠ EmptyString ∧ e2 ≠ EmptyString) as Hne.
  { intros e1 e2 [H1 H2]%end_names_elem_of. specialize (H2 _ eq_refl).
    split; intros ->; done. }
  pose proof Hmap as Horigin. unfold link_ends_map, init_link_ends_map in Horigin.
  apply fold_link_ends_origin in Horigin as [Hm|[Hin|(e & Hin & [= ->])]].
  - by rewrite lookup_empty in Hm.
  - destruct (Hne _ _ Hin) as [H1 H2].
    destruct (Hpaired _ _ Hin H1 H2) as [(_ & Hback & _) _]. done.
  - destruct (Hne _ _ Hin) as [H1 H2].
    destruct (Hpaired _ _ Hin H1 H2) as [(Hfwd & _) _]. done.
Qed.

(** When no end name is configured twice and none is empty, the map that
    [__init__] builds pairs the two ends of every configured link with each
    other, leaves an end configured alone without another end, knows no
    other type, and every other end it gives points back. *)
Theorem link_ends_map_distinct_ends (self : RelationsSystem) :
  NoDup (end_names (get_ends self)) →
  EmptyString ∉ end_names (get_ends self) →
  (∀ end1 end2, (end1, Some end2) ∈ get_ends self →
                paired self end1 end2 ∧ paired self end2 end1)
  ∧ (∀ end1, (end1, None) ∈ get_ends self → unpaired self end1)
  ∧ (∀ t, t ∉ end_names (get_ends self) → link_ends_map self !! t = None)
  ∧ symmetric_pairing self.
Proof.
  intros Hnd Hempty.
  destruct (link_ends_map_of_links self Hnd) as [Hpaired Hunpaired].
  split; [|split; [done|split]].
  - intros end1 end2 Hin. pose proof Hin as [H1 H2]%end_names_elem_of.
    specialize (H2 _ eq_refl). apply Hpaired; [done| |]; intros ->; done.
  - intros t Ht. unfold link_ends_map, init_link_ends_map.
    rewrite fold_link_ends_other by done. apply lookup_empty.
  - by apply symmetric_pairing_of_links.
Qed.

Lemma blocks_system_end_names e :
  NoDup (end_names (get_ends (blocks_system e)))
  ∧ EmptyString ∉ end_names (get_ends (blocks_system e)).
Proof.
  change (end_names (get_ends (blocks_system e)))
    with ["blocks"; "blocked_by"].
  split.
  - repeat constructor; rewrite ?elem_of_cons, ?elem_of_nil; naive_solver.
  - rewrite !elem_of_cons, elem_of_nil. naive_solver.
Qed.

Lemma link_ends_map_distinct_ends_witness :
  symmetric_pairing (blocks_system (ticket_env (λ _, "new"))).
Proof.
  apply (link_ends_map_distinct_ends (blocks_system (ticket_env (λ _, "new"))));
    apply blocks_system_end_names.
Defined.

Lemma reverse_closed_preserved_witness :
  reverse_closed (blocks_system (ticket_env (λ _, "new")))
    (snd (add_relation (blocks_system (ticket_env (λ _, "new"))) 1 []
            (row "1" "2" "blocks"))).
Proof.
  apply (reverse_closed_preserved (blocks_system (ticket_env (λ _, "new"))) 1
           []).
  - apply symmetric_pairing_of_links; apply blocks_system_end_names.
  - intros r t' Hr. by apply elem_of_nil in Hr.
Defined.

(** ** What the validators maintain *)

Lemma _validate_no_cycle_Ok self depth st relation r :
  _validate_no_cycle self depth st relation = Ok r →
  match r with
  | Some msg => msg ≠ EmptyString
  | None => _find_cycle depth st (source relation) relation [] = Ok None
  end.
Proof.
  unfold _validate_no_cycle.
  destruct (_find_cycle depth st (source relation) relation [])
    as [[cycle|]|e]; simpl; [| |done].
  - destruct (comprehension _ cycle) as [names|e]; simpl; [|done].
    destruct (render_relation_type self (type relation)) as [label|e];
      simpl; [|done].
    by intros [= <-].
  - by intros [= <-].
Qed.

Lemma _validate_parent_Ok_None self depth st relation :
  _validate_parent self depth st relation = Ok None →
  _find_cycle depth st (source relation) relation [] = Ok None
  ∧ (type relation = PARENT_RELATION_TYPE →
     _select_relations_by_source st (source relation) (Some (type relation))
     = []).
Proof.
  unfold _validate_parent.
  destruct (_validate_no_cycle self depth st relation) as [r|e] eqn:Hcycle;
    simpl; [|done].
  apply _validate_no_cycle_Ok in Hcycle.
  destruct r as [[|c msg]|]; [done|done|].
  intros Hres. split; [done|]. intros Htype.
  rewrite (proj2 (String.eqb_eq _ _) Htype) in Hres.
  destruct (_select_relations_by_source _ _ _) as [|p ps]; [done|].
  destruct (_get_resource_name_from_id self (source relation));
    cbn [bind] in Hres; [|done].
  destruct (comprehension _ (p :: ps)); cbn [bind] in Hres; [|done].
  by destruct (render_relation_type _ _).
Qed.

(** A relation that passes a validator with a cycle check closes no path. *)
Lemma validate_Ok_no_path self depth st relation :
  _validators self !! type relation = Some "no_cycle"
  ∨ (_validators self !! type relation = Some "parent_child"
     ∧ type relation = PARENT_RELATION_TYPE) →
  validate self depth st relation = Ok tt →
  ¬ same_type_path st (type relation) (destination relation)
      (source relation).
Proof.
  intros Htag Hval. unfold validate in Hval.
  destruct Htag as [Htag|[Htag Htype]].
  - rewrite (_get_validator_no_cycle self _ Htag) in Hval.
    destruct (_validate_no_cycle self depth st relation) as [[msg|]|e]
      eqn:Hcycle; [done| |done].
    apply _validate_no_cycle_Ok in Hcycle. by eapply _find_cycle_None.
  - rewrite Htype in Htag, Hval.
    rewrite (_get_validator_parent self Htag) in Hval.
    destruct (_validate_parent self depth st relation) as [[msg|]|e]
      eqn:Hparent; [done| |done].
    apply _validate_parent_Ok_None in Hparent as [Hcycle _].
    by eapply _find_cycle_None.
Qed.

Lemma rtc_added_edge {A} (R R' : relation A) a b x y :
  (∀ u v, R' u v → R u v ∨ (u = a ∧ v = b)) →
  rtc R' x y → rtc R x y ∨ (rtc R x a ∧ rtc R b y).
Proof.
  intros Hadded Hpath. induction Hpath as [x|x z y Hstep _ IH]; [by left|].
  destruct (Hadded _ _ Hstep) as [Hold|[-> ->]].
  - destruct IH as [IH|[IH1 IH2]].
    + left. by eapply rtc_l.
    + right. split; [by eapply rtc_l|done].
  - destruct IH as [IH|[_ IH2]]; right; by split.
Qed.

Lemma acyclic_added_edge {A} (R R' : relation A) a b :
  (∀ u v, R' u v → R u v ∨ (u = a ∧ v = b)) →
  (∀ x, ¬ tc R x x) → ¬ rtc R b a → ∀ x, ¬ tc R' x x.
Proof.
  intros Hadded Hacyclic Hno x Hcycle.
  assert (∃ z, R' x z ∧ rtc R' z x) as (z & Hstep & Hback).
  { inversion Hcycle as [? ? Hs|? z ? Hs Ht]; subst.
    - by exists x.
    - exists z. split; [done|by apply tc_rtc]. }
  apply (rtc_added_edge R R' a b) in Hback; [|done].
  destruct (Hadded _ _ Hstep) as [Hold|[-> ->]].
  - destruct Hback as [Hback|[Hza Hbx]].
    + apply (Hacyclic x). by eapply tc_rtc_r; [apply tc_once|].
    + apply Hno. eapply rtc_trans; [exact Hbx|]. by eapply rtc_l.
  - destruct Hback as [Hback|[Hza _]]; by apply Hno.
Qed.

(** The rows of type [type relation] that a successful add of a relation
    whose type is not its own other end appends. *)
Lemma add_relation_Ok_edges self depth st st' relation :
  link_ends_map self !! type relation ≠ Some (Some (type relation)) →
  add_relation self depth st relation = (Ok tt, st') →
  ∀ r, r ∈ st' → type r = type relation → r ∈ st ∨ r = relation.
Proof.
  intros Hself (_ & _ & o & Hmap & Hrows)%add_relation_Ok r Hin Ht.
  destruct (truthy o) as [other_end|] eqn:Ho.
  - destruct Hrows as [_ ->]. apply truthy_Some_inv in Ho as [-> _].
    apply elem_of_app in Hin as [Hin|Hin]; [by left|].
    apply elem_of_cons in Hin as [->|Hin]; [by right|].
    apply list_elem_of_singleton in Hin as ->. simpl in Ht. congruence.
  - subst st'. apply elem_of_app in Hin as [Hin|Hin]; [by left|].
    apply list_elem_of_singleton in Hin as ->. by right.
Qed.

(** The cycle check does its work: where the rows of a type validated by
    [no_cycle], or of the type [parent] under [parent_child], form no
    cycle, they form none after a successful [add_relation] of that type
    (the type not being its own other end). *)
Theorem add_relation_keeps_acyclic (self : RelationsSystem) (depth : nat)
    (st st' : store) (relation : Relation) :
  _validators self !! type relation = Some "no_cycle"
  ∨ (_validators self !! type relation = Some "parent_child"
     ∧ type relation = PARENT_RELATION_TYPE) →
  link_ends_map self !! type relation ≠ Some (Some (type relation)) →
  acyclic st (type relation) →
  add_relation self depth st relation = (Ok tt, st') →
  acyclic st' (type relation).
Proof.
  intros Htag Hself Hacyclic Hadd.
  pose proof (add_relation_Ok_edges self depth st st' relation Hself Hadd)
    as Hrows.
  apply add_relation_Ok in Hadd as (Hval & _).
  apply (validate_Ok_no_path self depth st relation Htag) in Hval.
  unfold acyclic.
  apply (acyclic_added_edge (edge st (type relation))
           (edge st' (type relation))
           (source relation) (destination relation)); [|done|done].
  intros u v (r & Hin & Hs & Hd & Ht).
  destruct (Hrows r Hin Ht) as [Hold| ->]; [left; by exists r|by right].
Qed.

Lemma acyclic_rank st t (rank : string → nat) :
  Forall (λ r, type r = t → (rank (destination r) < rank (source r))%nat) st →
  acyclic st t.
Proof.
  intros Hrank x. by apply (acyclic_from_rank st t rank x Hrank x).
Qed.

Lemma add_relation_keeps_acyclic_witness :
  acyclic
    [row "1" "2" "parent"; row "2" "1" "child";
     row "2" "3" "parent"; row "3" "2" "child"] "parent".
Proof.
  apply (add_relation_keeps_acyclic
           (parent_child_system (ticket_env (λ _, "new"))) 2
           [row "1" "2" "parent"; row "2" "1" "child"]
           [row "1" "2" "parent"; row "2" "1" "child";
            row "2" "3" "parent"; row "3" "2" "child"]
           (row "2" "3" "parent")).
  - right. split; vm_compute; reflexivity.
  - vm_compute. discriminate.
  - apply (acyclic_rank _ _
             (λ x, if String.eqb x ":ticket:1" then 1 else 0)).
    repeat constructor; intros Ht; vm_compute; first [lia | discriminate Ht].
  - vm_compute. reflexivity.
Defined.

(** The single-parent check does its work: where no resource has two
    [parent] rows with different destinations, none has after a successful
    [add_relation] of type [parent] under [parent_child] ([parent] not being
    its own other end); the source of the added relation had no [parent]
    row before. *)
Theorem add_relation_keeps_single_parent (self : RelationsSystem)
    (depth : nat) (st st' : store) (relation : Relation) :
  _validators self !! PARENT_RELATION_TYPE = Some "parent_child" →
  link_ends_map self !! PARENT_RELATION_TYPE
  ≠ Some (Some PARENT_RELATION_TYPE) →
  type relation = PARENT_RELATION_TYPE →
  single_destination st PARENT_RELATION_TYPE →
  add_relation self depth st relation = (Ok tt, st') →
  single_destination st' PARENT_RELATION_TYPE
  ∧ ∀ r, r ∈ st → type r = PARENT_RELATION_TYPE →
         source r ≠ source relation.
Proof.
  intros Htag Hself Htype Hsingle Hadd.
  rewrite <- Htype in Hself.
  pose proof (add_relation_Ok_edges self depth st st' relation Hself Hadd)
    as Hrows.
  apply add_relation_Ok in Hadd as (Hval & _).
  assert (∀ r, r ∈ st → type r = PARENT_RELATION_TYPE →
               source r ≠ source relation) as Hnone.
  { intros r Hin Ht Hs. unfold validate in Hval.
    rewrite Htype, (_get_validator_parent self Htag) in Hval.
    destruct (_validate_parent self depth st relation) as [[msg|]|e]
      eqn:Hparent; [done| |done].
    apply _validate_parent_Ok_None in Hparent as [_ Hsel].
    specialize (Hsel Htype).
    assert (r ∈ _select_relations_by_source st (source relation)
                  (Some (type relation))) as Hr; [|by rewrite Hsel in Hr;
                                                    apply elem_of_nil in Hr].
    unfold _select_relations_by_source. rewrite Htype. simpl.
    apply elem_of_Relation_select. split; [done|]. by apply matches_spec. }
  split; [|done]. intros r1 r2 Hin1 Hin2 Ht1 Ht2 Hs.
  rewrite <- Htype in Ht1, Ht2.
  destruct (Hrows r1 Hin1 Ht1) as [Hold1| ->],
           (Hrows r2 Hin2 Ht2) as [Hold2| ->]; [| | |done].
  - apply Hsingle; congruence.
  - destruct (Hnone r1 Hold1); congruence.
  - destruct (Hnone r2 Hold2); congruence.
Qed.

Lemma add_relation_keeps_single_parent_witness :
  single_destination
    [row "1" "2" "parent"; row "2" "1" "child";
     row "2" "3" "parent"; row "3" "2" "child"] "parent".
Proof.
  apply (add_relation_keeps_single_parent
           (parent_child_system (ticket_env (λ _, "new"))) 2
           [row "1" "2" "parent"; row "2" "1" "child"]
           [row "1" "2" "parent"; row "2" "1" "child";
            row "2" "3" "parent"; row "3" "2" "child"]
           (row "2" "3" "parent")).
  - vm_compute. reflexivity.
  - vm_compute. discriminate.
  - reflexivity.
  - intros r1 r2 Hin1 Hin2 Ht1 Ht2 _.
    rewrite !elem_of_cons, elem_of_nil in Hin1, Hin2.
    destruct Hin1 as [->|[->|[]]], Hin2 as [->|[->|[]]];
      first [done | discriminate Ht1 | discriminate Ht2].
  - vm_compute. reflexivity.
Defined.

(** ** Edge cases of the cycle search *)

Lemma validate_self_relation self depth st relation label :
  _validators self !! type relation = Some "no_cycle"
  ∨ (_validators self !! type relation = Some "parent_child"
     ∧ type relation = PARENT_RELATION_TYPE) →
  _labels self !! type relation = Some label →
  source relation = destination relation →
  validate self (S depth) st relation
  = match _get_resource_name_from_id self (source relation) with
    | Ok name =>
        Raise (ValidationError ("Cycle in " +:+ label +:+ ": " +:+ name))
    | Raise e => Raise e
    end.
Proof.
  intros Htag Hlabel Hself.
  assert (_validate_no_cycle self (S depth) st relation
          = bind (_get_resource_name_from_id self (source relation))
              (λ name, Ok (Some ("Cycle in " +:+ label +:+ ": " +:+ name))))
    as Hcycle.
  { unfold _validate_no_cycle. cbn [_find_cycle].
    rewrite <- Hself, String.eqb_refl. cbn [bind app comprehension].
    destruct (_get_resource_name_from_id self (source relation));
      cbn [bind]; [|done].
    unfold render_relation_type, getitem. by rewrite Hlabel. }
  unfold validate. destruct Htag as [Htag|[Htag Htype]].
  - rewrite (_get_validator_no_cycle self _ Htag), Hcycle.
    by destruct (_get_resource_name_from_id self (source relation)).
  - rewrite Htype in Htag |- *.
    rewrite (_get_validator_parent self Htag).
    unfold _validate_parent. rewrite Hcycle.
    by destruct (_get_resource_name_from_id self (source relation)).
Qed.

(** A relation from a resource to itself never passes a validator with a
    cycle check, whatever the table holds: [validate] raises and
    [add_relation] stores nothing. For a resource of the global
    environment the exception is [ValidationError] with the one-resource
    cycle; for a resource of a product the name lookup for that message
    ends in [TypeError]. *)
Theorem validate_rejects_self_relation (self : RelationsSystem) (depth : nat)
    (st : store) (relation : Relation) (label : string) :
  _validators self !! type relation = Some "no_cycle"
  ∨ (_validators self !! type relation = Some "parent_child"
     ∧ type relation = PARENT_RELATION_TYPE) →
  _labels self !! type relation = Some label →
  source relation = destination relation →
  (∃ e, validate self (S depth) st relation = Raise e
        ∧ add_relation self (S depth) st relation = (Raise e, st))
  ∧ (global_id (source relation) →
     validate self (S depth) st relation
     = Raise (ValidationError
                ("Cycle in " +:+ label +:+ ": "
                 +:+ resource_name (env self) (source relation)))
     ∧ add_relation self (S depth) st relation
       = (Raise (ValidationError
                   ("Cycle in " +:+ label +:+ ": "
                    +:+ resource_name (env self) (source relation))), st))
  ∧ (product_id (source relation) →
     validate self (S depth) st relation = Raise TypeError
     ∧ add_relation self (S depth) st relation = (Raise TypeError, st)).
Proof.
  intros Htag Hlabel Hself.
  pose proof (validate_self_relation self depth st relation label
                Htag Hlabel Hself) as Hval.
  assert (∀ e, validate self (S depth) st relation = Raise e →
               add_relation self (S depth) st relation = (Raise e, st))
    as Hadd.
  { intros e He. unfold add_relation. by rewrite He. }
  split; [|split].
  - destruct (_get_resource_name_from_id self (source relation));
      eexists; (split; [exact Hval|by apply Hadd]).
  - intros Hglobal.
    rewrite (_get_resource_name_from_id_global self _ Hglobal) in Hval.
    split; [done|by apply Hadd].
  - intros Hproduct.
    rewrite (_get_resource_name_from_id_product self _ Hproduct) in Hval.
    split; [done|by apply Hadd].
Qed.

Lemma validate_rejects_self_relation_witness :
  add_relation (dependson_system (ticket_env (λ _, "new"))) 1
    [row "2" "3" "dependson"; row "3" "2" "dependson"]
    (row "1" "1" "dependson")
  = (Raise (ValidationError "Cycle in Dependson: #1"),
     [row "2" "3" "dependson"; row "3" "2" "dependson"]).
Proof.
  destruct (validate_rejects_self_relation
              (dependson_system (ticket_env (λ _, "new"))) 0
              [row "2" "3" "dependson"; row "3" "2" "dependson"]
              (row "1" "1" "dependson") "Dependson") as (_ & Hglobal & _).
  - left. vm_compute. reflexivity.
  - vm_compute. reflexivity.
  - reflexivity.
  - apply Hglobal. by apply global_id_ticket.
Defined.

Lemma first_not_None_mono {A B} (body body' : A → result (option B)) l r :
  (∀ x r, x ∈ l → body x = Ok r → body' x = Ok r) →
  first_not_None body l = Ok r → first_not_None body' l = Ok r.
Proof.
  induction l as [|x l IH]; intros Hmono; simpl; [done|].
  destruct (body x) as [[b|]|e] eqn:Hx; simpl; [| |done].
  - intros [= <-]. by rewrite (Hmono x (Some b)) by (done || left).
  - intros Hrest. rewrite (Hmono x None) by (done || left). simpl.
    apply IH; [|done]. intros y ry Hy. apply Hmono. by right.
Qed.

Lemma _find_cycle_mono st source_to_check depth depth' relation path r :
  (depth ≤ depth')%nat →
  _find_cycle depth st source_to_check relation path = Ok r →
  _find_cycle depth' st source_to_check relation path = Ok r.
Proof.
  revert depth' relation path r.
  induction depth as [|depth IH]; intros depth' relation path r Hle; [done|].
  destruct depth' as [|depth']; [lia|]. simpl.
  destruct (String.eqb source_to_check (destination relation)); [done|].
  apply first_not_None_mono. intros linked r' _. apply IH. lia.
Qed.

(** The recursion limit only decides whether the search returns: once
    [_find_cycle] returns at some limit, it returns the same under every
    larger limit, and so does [validate]. *)
Theorem validate_depth_monotone (self : RelationsSystem) (depth depth' : nat)
    (st : store) (relation : Relation) (r : option (list string)) :
  (depth ≤ depth')%nat →
  _find_cycle depth st (source relation) relation [] = Ok r →
  _find_cycle depth' st (source relation) relation [] = Ok r
  ∧ validate self depth' st relation = validate self depth st relation.
Proof.
  intros Hle Hrun.
  pose proof (_find_cycle_mono _ _ _ _ _ _ _ Hle Hrun) as Hrun'.
  split; [done|].
  assert (_validate_no_cycle self depth' st relation
          = _validate_no_cycle self depth st relation) as Hcycle.
  { unfold _validate_no_cycle. by rewrite Hrun, Hrun'. }
  unfold validate, _get_validator.
  destruct (is_str _ "no_cycle"); [by rewrite Hcycle|].
  destruct (_ && _); [|done].
  unfold _validate_parent. by rewrite Hcycle.
Qed.

Lemma validate_depth_monotone_witness :
  validate (parent_child_system (ticket_env (λ _, "new"))) 1000
    [row "1" "2" "parent"; row "2" "1" "child"] (row "2" "3" "parent")
  = validate (parent_child_system (ticket_env (λ _, "new"))) 1
      [row "1" "2" "parent"; row "2" "1" "child"] (row "2" "3" "parent").
Proof.
  apply (validate_depth_monotone
           (parent_child_system (ticket_env (λ _, "new"))) 1 1000
           [row "1" "2" "parent"; row "2" "1" "child"]
           (row "2" "3" "parent") None).
  - lia.
  - vm_compute. reflexivity.
Defined.

(** ** The blocker search *)

Lemma find_blockers_S self depth st relation blockers :
  find_blockers self (S depth) st relation blockers
  = find_blockers_loop self (find_blockers self depth st)
      (_select_relations_by_source st (destination relation) None) blockers.
Proof. reflexivity. Qed.

(** [_create_resource_instance_by_full_id] returns exactly for the id of
    a ticket that the global environment has. *)
Lemma _create_resource_instance_by_full_id_Ok self resource_full_id t :
  _create_resource_instance_by_full_id self resource_full_id = Ok t ↔
  split_full_id resource_full_id = [ticket_prefix t; "ticket"; ticket_id t]
  ∧ ticket_prefix t = EmptyString
  ∧ is_Some (ticket_status (env self) EmptyString (ticket_id t)).
Proof.
  unfold _create_resource_instance_by_full_id, _create_resource_by_ids.
  destruct (split_full_id resource_full_id) as [|p [|r [|i [|x l]]]];
    try (split; [done|by intros [[=] _]]).
  destruct p as [|c p]; cbn [_get_env_by_prefix bind].
  - destruct (String.eqb_spec r "ticket") as [->|Hne].
    + destruct (ticket_status (env self) "" i) as [status|] eqn:Hstatus.
      * split.
        -- intros [= <-]. simpl. by rewrite Hstatus.
        -- intros ([= Hp Hi] & _ & _). destruct t as [p' i']. simpl in *.
           by subst.
      * split; [done|]. intros ([= Hp Hi] & _ & Hsome). rewrite <- Hi in Hsome.
        rewrite Hstatus in Hsome. by destruct Hsome.
    + split; [done|]. intros ([= Hp Hr Hi] & _). done.
  - split; [done|]. intros ([= Hp] & Hempty & _). congruence.
Qed.

Lemma _create_resource_instance_by_full_id_existing self resource_full_id :
  (∃ t, _create_resource_instance_by_full_id self resource_full_id = Ok t)
  ↔ existing_ticket (env self) resource_full_id.
Proof.
  split.
  - intros [t Ht]. apply _create_resource_instance_by_full_id_Ok in Ht.
    destruct Ht as (Hsplit & Hp & Hsome). rewrite Hp in Hsplit.
    by exists (ticket_id t).
  - intros (n & Hsplit & Hsome).
    exists {| ticket_prefix := ""; ticket_id := n |}.
    by apply _create_resource_instance_by_full_id_Ok.
Qed.

(** What it raises otherwise: [ValueError] for an id that does not split
    into three parts, [TypeError] for an id of a product and for a realm
    other than [ticket], [ResourceNotFound] for the id of a ticket that
    the global environment does not have. *)
Lemma _create_resource_instance_by_full_id_Raise self resource_full_id :
  (List.length (split_full_id resource_full_id) ≠ 3 →
   _create_resource_instance_by_full_id self resource_full_id
   = Raise ValueError)
  ∧ (product_id resource_full_id →
     _create_resource_instance_by_full_id self resource_full_id
     = Raise TypeError)
  ∧ (∀ realm n,
       split_full_id resource_full_id = [EmptyString; realm; n] →
       realm ≠ "ticket" →
       _create_resource_instance_by_full_id self resource_full_id
       = Raise TypeError)
  ∧ (∀ n,
       split_full_id resource_full_id = [EmptyString; "ticket"; n] →
       ticket_status (env self) EmptyString n = None →
       _create_resource_instance_by_full_id self resource_full_id
       = Raise ResourceNotFound).
Proof.
  unfold _create_resource_instance_by_full_id, _create_resource_by_ids.
  split; [|split; [|split]].
  - by destruct (split_full_id resource_full_id) as [|p [|r [|i [|x l]]]].
  - intros (c & p & realm & n & ->). done.
  - intros realm n -> Hrealm. cbn [_get_env_by_prefix bind].
    by rewrite (proj2 (String.eqb_neq realm "ticket")).
  - intros n -> Hnone. cbn [_get_env_by_prefix bind]. simpl.
    by rewrite Hnone.
Qed.

Lemma _create_resource_instance_by_full_id_Raise_inv self resource_full_id e :
  _create_resource_instance_by_full_id self resource_full_id = Raise e →
  ¬ existing_ticket (env self) resource_full_id
  ∧ (e = ValueError ∨ e = TypeError ∨ e = ResourceNotFound).
Proof.
  intros Hraise. split.
  - intros Hexists.
    apply _create_resource_instance_by_full_id_existing in Hexists as [t Ht].
    congruence.
  - revert Hraise.
    unfold _create_resource_instance_by_full_id, _create_resource_by_ids.
    destruct (split_full_id resource_full_id) as [|p [|r [|i [|x l]]]];
      try (intros [= <-]; by left).
    destruct p as [|c p]; cbn [_get_env_by_prefix bind];
      [|intros [= <-]; right; by left].
    destruct (String.eqb r "ticket"); [|intros [= <-]; right; by left].
    destruct (ticket_status (env self) "" i); [done|].
    intros [= <-]. right. by right.
Qed.

Lemma elem_of_select_by_source_None st x r :
  r ∈ _select_relations_by_source st x None ↔ r ∈ st ∧ source r = x.
Proof.
  unfold _select_relations_by_source. simpl.
  rewrite elem_of_Relation_select, matches_spec. simpl. tauto.
Qed.

Lemma blocker_from_step self st x r t :
  r ∈ st → source r = x →
  blocker_from self st (destination r) t → blocker_from self st x t.
Proof.
  intros Hin Hs (Hopen & r' & Hin' & Hsplit & Hpath).
  split; [done|]. exists r'. split; [done|]. split; [done|].
  eapply rtc_l; [|exact Hpath]. by exists r.
Qed.

Lemma find_blockers_loop_sound self st x rec relations blockers result :
  (∀ r, r ∈ relations → r ∈ st ∧ source r = x) →
  (∀ linked b res,
     rec linked b = Ok res →
     ∃ new, res = b ++ new
            ∧ Forall (blocker_from self st (destination linked)) new) →
  find_blockers_loop self rec relations blockers = Ok result →
  ∃ new, result = blockers ++ new ∧ Forall (blocker_from self st x) new.
Proof.
  intros Hrels Hrec. revert blockers.
  induction relations as [|linked relations IH]; intros blockers; simpl.
  - intros [= <-]. exists []. by rewrite app_nil_r.
  - destruct (Hrels linked) as [Hin Hs]; [left|].
    assert (∀ r, r ∈ relations → r ∈ st ∧ source r = x) as Hrels'.
    { intros r Hr. apply Hrels. by right. }
    destruct (_create_resource_instance_by_full_id self (destination linked))
      as [t|e] eqn:Hcreate; simpl; [|done].
    apply _create_resource_instance_by_full_id_Ok in Hcreate as [Hcreate _].
    destruct (_is_resource_blocked self t) eqn:Hopen.
    + intros (new & -> & Hnew)%(IH Hrels').
      exists (t :: new). split; [by rewrite <- app_assoc|].
      constructor; [|done]. split; [done|]. exists linked.
      split; [done|]. split; [done|]. by rewrite Hs.
    + destruct (rec linked blockers) as [b'|e] eqn:Hcall; simpl; [|done].
      apply Hrec in Hcall as (new1 & -> & Hnew1).
      intros (new2 & -> & Hnew2)%(IH Hrels').
      exists (new1 ++ new2). split; [by rewrite app_assoc|].
      apply Forall_app. split; [|done].
      eapply Forall_impl; [exact Hnew1|]. intros t'.
      by apply blocker_from_step.
Qed.

(** What [find_blockers] returns extends the list it was given, and every
    ticket it appends is a blocker found from the relation's destination:
    a ticket that is not closed and that a stored row, reached from that
    destination, points to. *)
Theorem find_blockers_sound (self : RelationsSystem) (depth : nat)
    (st : store) (relation : Relation) (blockers result : list Ticket) :
  find_blockers self depth st relation blockers = Ok result →
  ∃ new, result = blockers ++ new
         ∧ Forall (blocker_from self st (destination relation)) new.
Proof.
  revert relation blockers result.
  induction depth as [|depth IH]; intros relation blockers result; [done|].
  rewrite find_blockers_S.
  apply find_blockers_loop_sound; [|by apply IH].
  intros r. by rewrite elem_of_select_by_source_None.
Qed.

Lemma find_blockers_sound_witness :
  ∃ new,
    [{| ticket_prefix := ""; ticket_id := "1" |}] = [] ++ new
    ∧ Forall
        (blocker_from (blocks_system (ticket_env (λ _, "new")))
           [row "1" "2" "blocks"; row "2" "1" "blocked_by"] ":ticket:2")
        new.
Proof.
  apply (find_blockers_sound (blocks_system (ticket_env (λ _, "new"))) 1
           [row "1" "2" "blocks"; row "2" "1" "blocked_by"]
           (row "1" "2" "blocks") []).
  vm_compute. reflexivity.
Defined.







Lemma walk_bound_sources {A} (R : relation A) (sources : list A) n x y :
  (∀ u v, R u v → u ∈ sources) →
  (∀ z, rtc R x z → ¬ tc R z z) →
  nsteps R n x y → (n ≤ List.length sources)%nat.
Proof.
  intros Hsrc Hacyclic Hn.
  assert (∃ l : list A,
            List.length l = n ∧ NoDup l
            ∧ ∀ z, z ∈ l → rtc R x z ∧ z ∈ sources) as (l & <- & Hnd & Hl).
  { induction Hn as [x|n x y z Hstep Hn IH].
    - exists []. split; [done|]. split; [constructor|].
      intros z Hz. by apply elem_of_nil in Hz.
    - destruct IH as (l & Hlen & Hnd & Hl).
      { intros w Hw. apply Hacyclic. by eapply rtc_l. }
      exists (x :: l). split; [by rewrite <- Hlen|]. split.
      + constructor; [|done]. intros [Hyx _]%Hl.
        apply (Hacyclic x); [done|]. eapply tc_rtc_r; [by apply tc_once|done].
      + intros w [->|Hw]%elem_of_cons.
        * split; [done|]. by eapply Hsrc.
        * apply Hl in Hw as [Hyw Hs]. split; [by eapply rtc_l|done]. }
  apply submseteq_length, NoDup_submseteq; [done|]. intros z Hz. by apply Hl.
Qed.

Lemma find_blockers_loop_Raise self st x rec relations blockers e depth :
  (∀ r, r ∈ relations → r ∈ st ∧ source r = x) →
  (∀ linked b e,
     rec linked b = Raise e →
     (e = RuntimeError
      ∧ ∃ y, nsteps (closed_edge self st) depth (destination linked) y)
     ∨ ∃ r, r ∈ st
            ∧ _create_resource_instance_by_full_id self (destination r) = Raise e) →
  find_blockers_loop self rec relations blockers = Raise e →
  (e = RuntimeError ∧ ∃ y, nsteps (closed_edge self st) (S depth) x y)
  ∨ ∃ r, r ∈ st
         ∧ _create_resource_instance_by_full_id self (destination r) = Raise e.
Proof.
  intros Hrels Hrec. revert blockers.
  induction relations as [|linked relations IH]; intros blockers; simpl;
    [done|].
  destruct (Hrels linked) as [Hin Hs]; [left|].
  assert (∀ r, r ∈ relations → r ∈ st ∧ source r = x) as Hrels'.
  { intros r Hr. apply Hrels. by right. }
  destruct (_create_resource_instance_by_full_id self (destination linked))
    as [t|e'] eqn:Hcreate; simpl.
  - destruct (_is_resource_blocked self t) eqn:Hopen; [by apply IH|].
    destruct (rec linked blockers) as [b'|e'] eqn:Hcall; simpl;
      [by apply IH|].
    intros [= ->]. apply Hrec in Hcall as [[-> [y Hy]]|Hbad]; [|by right].
    left. split; [done|]. exists y. eapply nsteps_l; [|exact Hy].
    by exists linked, t.
  - intros [= ->]. right. by exists linked.
Qed.

Lemma find_blockers_Raise self depth st relation blockers e :
  find_blockers self depth st relation blockers = Raise e →
  (e = RuntimeError
   ∧ ∃ y, nsteps (closed_edge self st) depth (destination relation) y)
  ∨ ∃ r, r ∈ st
         ∧ _create_resource_instance_by_full_id self (destination r) = Raise e.
Proof.
  revert relation blockers e.
  induction depth as [|depth IH]; intros relation blockers e.
  - intros [= <-]. left. split; [done|]. eexists. constructor.
  - rewrite find_blockers_S. apply find_blockers_loop_Raise; [|by apply IH].
    intros r. by rewrite elem_of_select_by_source_None.
Qed.

(** The blocker search returns when every stored destination is the id of
    a ticket that the global environment has, no cycle of rows leading to
    closed tickets can be reached from the relation's destination, and the
    recursion limit exceeds the number of stored rows. When it raises, the
    exception is the [RuntimeError] of the recursion limit, or what
    building the ticket of a stored destination raises: [ValueError],
    [TypeError] or [ResourceNotFound], for a destination that is not the
    id of such a ticket. *)
Theorem find_blockers_returns (self : RelationsSystem) (depth : nat)
    (st : store) (relation : Relation) (blockers : list Ticket) :
  ((∀ r, r ∈ st → existing_ticket (env self) (destination r)) →
   (∀ z, rtc (closed_edge self st) (destination relation) z →
         ¬ tc (closed_edge self st) z z) →
   (List.length st < depth)%nat →
   ∃ result, find_blockers self depth st relation blockers = Ok result)
  ∧ ∀ e,
      find_blockers self depth st relation blockers = Raise e →
      e = RuntimeError
      ∨ ∃ r, r ∈ st
             ∧ ¬ existing_ticket (env self) (destination r)
             ∧ (e = ValueError ∨ e = TypeError ∨ e = ResourceNotFound).
Proof.
  split.
  - intros Htickets Hacyclic Hdepth.
    destruct (find_blockers self depth st relation blockers) as [result|e]
      eqn:Hrun; [by exists result|].
    apply find_blockers_Raise in Hrun as [[_ [y Hy]]|(r & Hin & Hbad)].
    + apply (walk_bound_sources _ (source <$> st)) in Hy; [| |done].
      * rewrite length_fmap in Hy. lia.
      * intros u v (r & t & Hin & <- & _). by apply list_elem_of_fmap_2.
    + apply _create_resource_instance_by_full_id_Raise_inv in Hbad as [Hbad _].
      destruct Hbad. by apply Htickets.
  - intros e [[-> _]|(r & Hin & Hbad)]%find_blockers_Raise; [by left|].
    right. exists r. split; [done|].
    by apply _create_resource_instance_by_full_id_Raise_inv.
Qed.

Lemma find_blockers_returns_witness :
  ∃ result,
    find_blockers
      (blocks_system
         (ticket_env (λ n, if String.eqb n "2" then "closed" else "new")))
      3 [row "1" "2" "blocks"; row "2" "1" "blocked_by"]
      (row "1" "2" "blocks") [] = Ok result.
Proof.
  destruct (find_blockers_returns
              (blocks_system
                 (ticket_env
                    (λ n, if String.eqb n "2" then "closed" else "new")))
              3 [row "1" "2" "blocks"; row "2" "1" "blocked_by"]
              (row "1" "2" "blocks") []) as [Hreturns _].
  apply Hreturns.
  - intros r Hr. rewrite !elem_of_cons, elem_of_nil in Hr.
    destruct Hr as [->|[->|[]]]; eexists;
      (split; [vm_compute; reflexivity|by eexists]).
  - assert (∀ y, ¬ closed_edge
                     (blocks_system
                        (ticket_env
                           (λ n, if String.eqb n "2" then "closed" else "new")))
                     [row "1" "2" "blocks"; row "2" "1" "blocked_by"]
                     ":ticket:2" y) as Hnone.
    { intros y (r & t & Hin & Hs & Hd & Hc & Hb).
      rewrite !elem_of_cons, elem_of_nil in Hin.
      destruct Hin as [->|[->|[]]]; [discriminate Hs|].
      subst y. vm_compute in Hc. injection Hc as <-.
      vm_compute in Hb. discriminate Hb. }
    intros z Hz Hcycle.
    apply rtc_inv in Hz as [<-|(y & Hstep & _)]; [|by apply Hnone in Hstep].
    inversion Hcycle as [? ? Hstep|? y ? Hstep _]; by apply Hnone in Hstep.
  - simpl. lia.
Defined.

(** ** [can_be_resolved] *)

Lemma can_be_resolved_loop_app self depth st pre post :
  Forall (λ r, _blockers self !! type r = Some false) pre →
  can_be_resolved_loop self depth st (pre ++ post)
  = can_be_resolved_loop self depth st post.
Proof.
  induction 1 as [|r pre Hr _ IH]; [done|]. simpl.
  unfold is_blocker, getitem. by rewrite Hr.
Qed.

(** Exhausting [can_be_resolved] ends without an exception exactly when
    every relation leaving the resource has a type flagged as not
    blocking. Otherwise the first relation whose type is not flagged so
    ends it: with [TypeError] when the flag is true, with [KeyError] when
    the type has no flag. *)
Theorem can_be_resolved_outcomes (self : RelationsSystem) (depth : nat)
    (st : store) (resource : Resource.t) :
  (can_be_resolved self depth st resource = ([], None)
   ↔ Forall (λ r, _blockers self !! type r = Some false)
       (_select_relations_for_resource st resource None))
  ∧ ∀ pre r post,
      _select_relations_for_resource st resource None = pre ++ r :: post →
      Forall (λ r, _blockers self !! type r = Some false) pre →
      (_blockers self !! type r = Some true →
       can_be_resolved self depth st resource = ([], Some TypeError))
      ∧ (_blockers self !! type r = None →
         can_be_resolved self depth st resource
         = ([], Some (KeyError (type r)))).
Proof.
  unfold can_be_resolved. split.
  - generalize (_select_relations_for_resource st resource None).
    intros relations. induction relations as [|r relations IH]; simpl.
    + split; [constructor|done].
    + unfold is_blocker, getitem.
      destruct (_blockers self !! type r) as [[]|] eqn:Hr; simpl.
      * split; [done|]. intros [H _]%Forall_cons. simpl in H. congruence.
      * rewrite IH. split; [by constructor|by intros [_ ?]%Forall_cons].
      * split; [done|]. intros [H _]%Forall_cons. simpl in H. congruence.
  - intros pre r post -> Hpre.
    rewrite can_be_resolved_loop_app by done. simpl.
    unfold is_blocker, getitem. split; intros ->; done.
Qed.

Lemma can_be_resolved_outcomes_witness :
  can_be_resolved (blocks_system (ticket_env (λ _, "new"))) 1
    [row "1" "2" "blocks"; row "2" "1" "blocked_by"] (ticket "2")
  = ([], None).
Proof.
  apply (can_be_resolved_outcomes (blocks_system (ticket_env (λ _, "new"))) 1
           [row "1" "2" "blocks"; row "2" "1" "blocked_by"] (ticket "2")).
  change (_select_relations_for_resource _ (ticket "2") None)
    with [row "2" "1" "blocked_by"].
  repeat constructor.
Defined.

(** ** Listing relations *)

Lemma comprehension_Forall2 {A B} (f : A → result B) l ys :
  comprehension f l = Ok ys → Forall2 (λ y x, f x = Ok y) ys l.
Proof.
  revert ys. induction l as [|x l IH]; intros ys; simpl.
  - intros [= <-]. constructor.
  - destruct (f x) as [y|e] eqn:Hx; simpl; [|done].
    destruct (comprehension f l) as [ys'|e]; simpl; [|done].
    intros [= <-]. constructor; [done|by apply IH].
Qed.

Lemma comprehension_Raise {A B} (f : A → result B) pre x post e :
  Forall (λ x, ∃ y, f x = Ok y) pre → f x = Raise e →
  comprehension f (pre ++ x :: post) = Raise e.
Proof.
  intros Hpre Hx. induction Hpre as [|x' pre [y Hy] _ IH]; simpl.
  - by rewrite Hx.
  - by rewrite Hy, IH.
Qed.

Lemma comprehension_all_Ok {A B} (f : A → result B) l :
  Forall (λ x, ∃ y, f x = Ok y) l → ∃ ys, comprehension f l = Ok ys.
Proof.
  induction 1 as [|x l [y Hy] _ [ys IH]]; simpl; [by eexists|].
  rewrite Hy, IH. by eexists.
Qed.

(** [get_relations] lists the rows whose source is the resource. It
    returns exactly when the destination of each of them is the id of a
    ticket that the global environment has, and then gives one entry per
    row, in the order of the select, with the row's relation id,
    destination, type and comment and the ticket that the destination
    names. Otherwise the first row whose destination is not such an id
    makes the whole call raise: [ValueError] when the destination does not
    split into three parts, [TypeError] when it is the id of a product or
    has a realm other than [ticket], [ResourceNotFound] when the global
    environment has no ticket with that id. *)
Theorem get_relations_entries (self : RelationsSystem) (st : store)
    (resource : Resource.t) :
  (∀ r, r ∈ _select_relations_for_resource st resource None
        ↔ r ∈ st ∧ source r = get_resource_id_from_instance resource)
  ∧ ((∃ entries, get_relations self st resource = Ok entries)
     ↔ Forall (λ r, existing_ticket (env self) (destination r))
         (_select_relations_for_resource st resource None))
  ∧ (∀ entries,
       get_relations self st resource = Ok entries →
       Forall2
         (λ e r,
            entry_relation_id e = _create_relation_id r
            ∧ entry_destination_id e = destination r
            ∧ entry_type e = type r
            ∧ entry_comment e = comment r
            ∧ split_full_id (destination r)
              = [EmptyString; "ticket"; ticket_id (entry_destination e)]
            ∧ ticket_prefix (entry_destination e) = EmptyString
            ∧ is_Some (ticket_status (env self) EmptyString
                         (ticket_id (entry_destination e))))
         entries (_select_relations_for_resource st resource None))
  ∧ ∀ pre r post,
      _select_relations_for_resource st resource None = pre ++ r :: post →
      Forall (λ r, existing_ticket (env self) (destination r)) pre →
      (List.length (split_full_id (destination r)) ≠ 3 →
       get_relations self st resource = Raise ValueError)
      ∧ (product_id (destination r) →
         get_relations self st resource = Raise TypeError)
      ∧ (∀ realm n,
           split_full_id (destination r) = [EmptyString; realm; n] →
           realm ≠ "ticket" →
           get_relations self st resource = Raise TypeError)
      ∧ (∀ n,
           split_full_id (destination r) = [EmptyString; "ticket"; n] →
           ticket_status (env self) EmptyString n = None →
           get_relations self st resource = Raise ResourceNotFound).
Proof.
  unfold get_relations. split; [|split; [|split]].
  - intros r. unfold _select_relations_for_resource.
    apply elem_of_select_by_source_None.
  - split.
    + intros [entries Hentries%comprehension_Forall2].
      induction Hentries as [|e r entries relations Hr _ IH];
        constructor; [|done].
      apply _create_resource_instance_by_full_id_existing.
      destruct (_create_resource_instance_by_full_id self (destination r));
        [by eexists|done].
    + intros Hall. apply comprehension_all_Ok.
      eapply Forall_impl; [exact Hall|]. intros r Hr.
      apply _create_resource_instance_by_full_id_existing in Hr as [t Ht].
      rewrite Ht. by eexists.
  - intros entries Hentries%comprehension_Forall2.
    eapply Forall2_impl; [exact Hentries|]. intros e r Hr. simpl in Hr.
    destruct (_create_resource_instance_by_full_id self (destination r))
      as [t|] eqn:Ht; [|done].
    simpl in Hr. injection Hr as <-. simpl.
    apply _create_resource_instance_by_full_id_Ok in Ht
      as (Hsplit & Hp & Hsome).
    rewrite Hp in Hsplit. done.
  - intros pre r post -> Hpre.
    assert (∀ e,
              _create_resource_instance_by_full_id self (destination r)
              = Raise e →
              comprehension
                (λ relation,
                   bind
                     (_create_resource_instance_by_full_id self
                        (destination relation))
                     (λ instance,
                        Ok {| entry_relation_id := _create_relation_id relation;
                              entry_destination_id := destination relation;
                              entry_destination := instance;
                              entry_type := type relation;
                              entry_comment := comment relation |}))
                (pre ++ r :: post) = Raise e) as Hraise.
    { intros e Hr. apply comprehension_Raise.
      - eapply Forall_impl; [exact Hpre|]. intros r' Hr'.
        apply _create_resource_instance_by_full_id_existing in Hr' as [t Ht].
        rewrite Ht. by eexists.
      - by rewrite Hr. }
    destruct (_create_resource_instance_by_full_id_Raise self (destination r))
      as (Hvalue & Hproduct & Hrealm & Hmissing).
    split; [|split; [|split]].
    + intros Hlen. by apply Hraise, Hvalue.
    + intros Hprod. by apply Hraise, Hproduct.
    + intros realm n Hsplit Hne. apply Hraise. by eapply Hrealm.
    + intros n Hsplit Hnone. apply Hraise. by eapply Hmissing.
Qed.

Lemma get_relations_entries_witness :
  get_relations
    (blocks_system
       {| get_resource_shortname := λ _ _ resource_id, "#" +:+ resource_id;
          ticket_status :=
            λ _ resource_id,
              if String.eqb resource_id "99" then None else Some "new" |})
    [row "1" "99" "blocks"; row "1" "2" "blocks"] (ticket "1")
  = Raise ResourceNotFound.
Proof.
  destruct (get_relations_entries
              (blocks_system
                 {| get_resource_shortname :=
                      λ _ _ resource_id, "#" +:+ resource_id;
                    ticket_status :=
                      λ _ resource_id,
                        if String.eqb resource_id "99" then None
                        else Some "new" |})
              [row "1" "99" "blocks"; row "1" "2" "blocks"]
              (ticket "1")) as (_ & _ & _ & Hraise).
  destruct (Hraise [row "1" "2" "blocks"] (row "1" "99" "blocks") [])
    as (_ & _ & _ & Hmissing).
  - vm_compute. reflexivity.
  - repeat constructor. exists "2". split; [vm_compute; reflexivity|].
    by eexists.
  - apply (Hmissing "99"); vm_compute; reflexivity.
Defined.

(** ** The order of a select *)

Lemma order_leb_total cols r1 r2 :
  order_leb cols r1 r2 = true ∨ order_leb cols r2 r1 = true.
Proof.
  induction cols as [|c cols IH]; simpl; [by left|].
  rewrite (String.compare_antisym (column_value c r2) (column_value c r1)).
  destruct (column_value c r1 ?= column_value c r2)%string; simpl; auto.
Qed.

Global Instance order_le_total cols : Total (order_le cols).
Proof.
  intros r1 r2. unfold order_le.
  destruct (order_leb_total cols r1 r2) as [H|H]; rewrite H; simpl; auto.
Qed.

Lemma Sorted_weaken {A} (R R' : relation A) l :
  (∀ x y, R x y → R' x y) → Sorted R l → Sorted R' l.
Proof.
  intros Himpl. induction 1 as [|x l _ IH Hhd]; constructor; [done|].
  destruct Hhd; constructor. by apply Himpl.
Qed.

(** [_select_relations_by_source] with a type that counts as true returns
    the stored rows with that source and type, each once per stored row,
    in ascending order of the destination. With no type, or with the empty
    string as type, it returns the rows of that source of every type, in
    ascending order of the type and, within a type, of the destination. *)
Theorem _select_relations_by_source_ordered (st : store) (source_id : string)
    (resource_type : option string) :
  match truthy resource_type with
  | Some t =>
      _select_relations_by_source st source_id resource_type
      ≡ₚ List.filter
           (λ r, String.eqb (source r) source_id && String.eqb (type r) t) st
      ∧ Sorted
          (λ r1 r2, (destination r1 ?= destination r2)%string ≠ Gt)
          (_select_relations_by_source st source_id resource_type)
  | None =>
      _select_relations_by_source st source_id resource_type
      ≡ₚ List.filter (λ r, String.eqb (source r) source_id && true) st
      ∧ Sorted
          (λ r1 r2,
             (type r1 ?= type r2)%string = Lt
             ∨ ((type r1 ?= type r2)%string = Eq
                ∧ (destination r1 ?= destination r2)%string ≠ Gt))
          (_select_relations_by_source st source_id resource_type)
  end.
Proof.
  unfold _select_relations_by_source.
  destruct (truthy resource_type) as [t|]; unfold Relation_select;
    (split; [apply merge_sort_Permutation|]).
  - eapply Sorted_weaken; [|apply (Sorted_merge_sort _)].
    intros r1 r2. unfold order_le. simpl.
    by destruct (destination r1 ?= destination r2)%string.
  - eapply Sorted_weaken; [|apply (Sorted_merge_sort _)].
    intros r1 r2. unfold order_le. simpl.
    destruct (type r1 ?= type r2)%string; [|by left|done].
    right. split; [done|].
    by destruct (destination r1 ?= destination r2)%string.
Qed.

(** ** The schema version *)

Lemma Z_of_decimal_of_Z z : Z_of_decimal (decimal_of_Z z) = Some z.
Proof.
  unfold Z_of_decimal, decimal_of_Z. rewrite NilZero.isi.
  - simpl. by rewrite DecimalZ.of_to.
  - destruct z as [|p|p]; simpl; [done| |done].
    intros [= H]. by apply DecimalPos.Unsigned.to_uint_nonnil in H.
  - destruct z as [|p|p]; simpl; [done|done|].
    intros [= H]. by apply DecimalPos.Unsigned.to_uint_nonnil in H.
Qed.

(** Executing schema statements: what a run that returns has done, when
    it returns, and when it fails. *)
Lemma execute_creates_inr db sql db' :
  execute_creates db sql = inr db' →
  system db' = system db ∧ statements db' = statements db ++ sql.
Proof.
  revert db. induction sql as [|statement sql IH]; intros db; simpl.
  - intros [= <-]. by rewrite app_nil_r.
  - unfold execute_create. destruct (bool_decide _); [done|].
    intros [Hsys Hst]%IH. simpl in Hsys, Hst.
    split; [done|]. by rewrite Hst, <- app_assoc.
Qed.

Lemma execute_creates_returns db sql :
  NoDup sql → (∀ statement, statement ∈ sql → statement ∉ statements db) →
  ∃ db', execute_creates db sql = inr db'.
Proof.
  intros Hnd. revert db.
  induction Hnd as [|statement sql Hnotin _ IH]; intros db Hnew; simpl;
    [by eexists|].
  unfold execute_create. rewrite bool_decide_eq_false_2 by (apply Hnew; left).
  apply IH. simpl. intros s Hs [Hold|Hsame%list_elem_of_singleton]%elem_of_app.
  - apply (Hnew s); [by right|done].
  - by subst s.
Qed.

Lemma execute_creates_exists db sql statement :
  statement ∈ sql → statement ∈ statements db →
  execute_creates db sql = inl SetupOperationalError.
Proof.
  revert db. induction sql as [|first sql IH]; intros db Hin Hold; simpl.
  - by apply elem_of_nil in Hin.
  - unfold execute_create.
    destruct (bool_decide (first ∈ statements db)) eqn:Hfirst; [done|].
    apply bool_decide_eq_false in Hfirst.
    apply elem_of_cons in Hin as [->|Hin]; [done|].
    apply IH; [done|]. simpl. apply elem_of_app. by left.
Qed.

Section EnvironmentSetup_properties.

Context (DB_VERSION : Z) (DB_SYSTEM_KEY : string) (schema_sql : list string).
Context (int_of_text : string → option Z) (text_of_int : Z → string).
Context (int_of_text_of_int : ∀ z, int_of_text (text_of_int z) = Some z).

Lemma _get_version_insert sys stmts version :
  _get_version DB_SYSTEM_KEY int_of_text
    {| system := <[DB_SYSTEM_KEY := text_of_int version]> sys;
       statements := stmts |} = inr version.
Proof.
  unfold _get_version. simpl. by rewrite lookup_insert_eq, int_of_text_of_int.
Qed.

Lemma _update_db_version_inr db version r :
  _update_db_version DB_SYSTEM_KEY int_of_text text_of_int db version = inr r →
  r = (version,
       {| system := <[DB_SYSTEM_KEY := text_of_int version]> (system db);
          statements := statements db |}).
Proof.
  unfold _update_db_version.
  destruct (_get_version _ _ db) as [e|old]; [done|].
  destruct (bool_decide _).
  - destruct (fits_database_integer version); [by intros [= <-]|done].
  - destruct (system db !! DB_SYSTEM_KEY); [done|by intros [= <-]].
Qed.

Lemma upgrade_environment_inr db db' :
  upgrade_environment DB_SYSTEM_KEY schema_sql int_of_text text_of_int db
  = inr db' →
  ∃ v, _get_version DB_SYSTEM_KEY int_of_text db = inr v
       ∧ if (v <? 1)%Z
         then db' = {| system := <[DB_SYSTEM_KEY := text_of_int 1]> (system db);
                       statements := statements db ++ schema_sql |}
         else db' = db.
Proof.
  unfold upgrade_environment, _initialize_db.
  destruct (_get_version _ _ db) as [e|v]; [done|].
  intros Hup. exists v. split; [done|].
  destruct (v <? 1)%Z; [|by injection Hup].
  destruct (execute_creates db schema_sql) as [e|db1] eqn:Hinit; [done|].
  apply execute_creates_inr in Hinit as [Hsys Hst].
  destruct (_update_db_version _ _ _ _ _) as [e|[v' db'']] eqn:Hupd; [done|].
  apply _update_db_version_inr in Hupd. injection Hupd as _ ->.
  injection Hup as <-. by rewrite Hsys, Hst.
Qed.

End EnvironmentSetup_properties.

(** Writing a version and reading it back. When nothing is stored, or when
    the stored value reads as a number other than -1 and the version fits
    the database's integers, [_update_db_version] returns the version it
    was given and [_get_version] then reads that version; the other rows
    of [system] and the schema statements are untouched. With a stored
    number other than -1 and a version that does not fit, the [UPDATE]
    fails on its parameter. A stored value that reads as -1 makes it fail
    on the [INSERT]. *)
Theorem _update_db_version_round_trip (DB_SYSTEM_KEY : string)
    (int_of_text : string → option Z) (text_of_int : Z → string)
    (db : Database) (version : Z) :
  (∀ z, int_of_text (text_of_int z) = Some z) →
  (system db !! DB_SYSTEM_KEY = None
   ∨ (fits_database_integer version = true
      ∧ ∃ value old, system db !! DB_SYSTEM_KEY = Some value
                     ∧ int_of_text value = Some old ∧ old ≠ (-1)%Z) →
   ∃ db',
     _update_db_version DB_SYSTEM_KEY int_of_text text_of_int db version
     = inr (version, db')
     ∧ _get_version DB_SYSTEM_KEY int_of_text db' = inr version
     ∧ statements db' = statements db
     ∧ ∀ name, name ≠ DB_SYSTEM_KEY → system db' !! name = system db !! name)
  ∧ (∀ value old, system db !! DB_SYSTEM_KEY = Some value →
                  int_of_text value = Some old → old ≠ (-1)%Z →
                  fits_database_integer version = false →
                  _update_db_version DB_SYSTEM_KEY int_of_text text_of_int db
                    version = inl SetupOverflowError)
  ∧ (∀ value, system db !! DB_SYSTEM_KEY = Some value →
              int_of_text value = Some (-1)%Z →
              _update_db_version DB_SYSTEM_KEY int_of_text text_of_int db
                version = inl SetupIntegrityError).
Proof.
  intros Hround. split; [|split].
  - intros Hstored.
    exists {| system := <[DB_SYSTEM_KEY := text_of_int version]> (system db);
              statements := statements db |}.
    split; [|split; [|split]].
    + unfold _update_db_version, _get_version.
      destruct Hstored as [Hnone|(Hfits & value & old & Hsome & Hint & Hold)].
      * by rewrite Hnone.
      * rewrite Hsome, Hint. by rewrite bool_decide_eq_true_2, Hfits.
    + by apply _get_version_insert.
    + done.
    + intros name Hname. simpl. by rewrite lookup_insert_ne.
  - intros value old Hsome Hint Hold Hfits.
    unfold _update_db_version, _get_version.
    rewrite Hsome, Hint. by rewrite bool_decide_eq_true_2, Hfits.
  - intros value Hsome Hint. unfold _update_db_version, _get_version.
    by rewrite Hsome, Hint.
Qed.

Lemma _update_db_version_round_trip_witness :
  ∃ db',
    _update_db_version "bloodhound_relations_version" Z_of_decimal
      decimal_of_Z
      {| system := {[ "bloodhound_relations_version" := "0";
                      "database_version" := "29" ]};
         statements := [] |} 1
    = inr (1%Z, db')
    ∧ _get_version "bloodhound_relations_version" Z_of_decimal db' = inr 1%Z
    ∧ statements db' = []
    ∧ ∀ name, name ≠ "bloodhound_relations_version" →
              system db' !! name
              = ({[ "bloodhound_relations_version" := "0";
                    "database_version" := "29" ]} : gmap string string)
                !! name.
Proof.
  destruct (_update_db_version_round_trip "bloodhound_relations_version"
              Z_of_decimal decimal_of_Z
              {| system := {[ "bloodhound_relations_version" := "0";
                              "database_version" := "29" ]};
                 statements := [] |} 1 Z_of_decimal_of_Z) as [Hwrite _].
  apply Hwrite. right. split; [reflexivity|].
  exists "0", 0%Z. repeat split; vm_compute; (reflexivity || discriminate).
Defined.

(** [upgrade_environment] brings an environment below version 1 to version
    1 and executes the schema statements once; it leaves an environment at
    version 1 or above as it is. After it returned, the stored version is at
    least 1 and running it again changes nothing. On an environment without
    a stored version it returns when the schema statements are distinct
    and none of the tables and indexes they create exists. Below version 1
    it fails on the first schema statement whose table or index exists, as
    in a database whose version row was deleted while the tables
    remained. *)
Theorem upgrade_environment_reaches_version_1 (DB_SYSTEM_KEY : string)
    (schema_sql : list string) (int_of_text : string → option Z)
    (text_of_int : Z → string) (db : Database) :
  (∀ z, int_of_text (text_of_int z) = Some z) →
  (∀ db',
     upgrade_environment DB_SYSTEM_KEY schema_sql int_of_text text_of_int db
     = inr db' →
     (∃ v, _get_version DB_SYSTEM_KEY int_of_text db = inr v
           ∧ if (v <? 1)%Z
             then _get_version DB_SYSTEM_KEY int_of_text db' = inr 1%Z
                  ∧ statements db' = statements db ++ schema_sql
             else db' = db)
     ∧ (∃ v', _get_version DB_SYSTEM_KEY int_of_text db' = inr v'
              ∧ (1 ≤ v')%Z)
     ∧ upgrade_environment DB_SYSTEM_KEY schema_sql int_of_text text_of_int
         db' = inr db')
  ∧ (system db !! DB_SYSTEM_KEY = None →
     NoDup schema_sql →
     (∀ statement, statement ∈ schema_sql → statement ∉ statements db) →
     ∃ db',
       upgrade_environment DB_SYSTEM_KEY schema_sql int_of_text text_of_int
         db = inr db')
  ∧ (∀ v statement,
       _get_version DB_SYSTEM_KEY int_of_text db = inr v → (v < 1)%Z →
       statement ∈ schema_sql → statement ∈ statements db →
       upgrade_environment DB_SYSTEM_KEY schema_sql int_of_text text_of_int
         db = inl SetupOperationalError).
Proof.
  intros Hround. split; [|split].
  - intros db' Hup.
    pose proof (upgrade_environment_inr _ _ _ _ _ _ Hup) as (v & Hv & Hdb').
    assert (∃ v', _get_version DB_SYSTEM_KEY int_of_text db' = inr v'
                  ∧ (1 ≤ v')%Z) as (v' & Hv' & Hle).
    { destruct (v <? 1)%Z eqn:Hlt.
      - exists 1%Z. subst db'. split; [by apply _get_version_insert|lia].
      - exists v. subst db'. split; [done|lia]. }
    split; [|split].
    + exists v. split; [done|]. destruct (v <? 1)%Z; [|done].
      subst db'. split; [by apply _get_version_insert|done].
    + by exists v'.
    + unfold upgrade_environment. rewrite Hv'.
      by rewrite (proj2 (Z.ltb_ge v' 1)).
  - intros Hnone Hnd Hnew.
    destruct (execute_creates_returns db schema_sql Hnd Hnew) as [db1 Hinit].
    pose proof (execute_creates_inr _ _ _ Hinit) as [Hsys _].
    unfold upgrade_environment, _initialize_db, _update_db_version,
      _get_version.
    rewrite Hnone, Hinit, Hsys, Hnone. simpl. by eexists.
  - intros v statement Hv Hlt Hin Hold.
    unfold upgrade_environment, _initialize_db. rewrite Hv.
    rewrite (proj2 (Z.ltb_lt v 1) Hlt).
    by rewrite (execute_creates_exists db schema_sql statement).
Qed.

Lemma upgrade_environment_reaches_version_1_witness :
  ∃ db',
    upgrade_environment "bloodhound_relations_version"
      ["CREATE TABLE bloodhound_relations"] Z_of_decimal decimal_of_Z
      {| system := {[ "database_version" := "29" ]}; statements := [] |}
    = inr db'.
Proof.
  destruct (upgrade_environment_reaches_version_1
              "bloodhound_relations_version"
              ["CREATE TABLE bloodhound_relations"] Z_of_decimal decimal_of_Z
              {| system := {[ "database_version" := "29" ]};
                 statements := [] |} Z_of_decimal_of_Z) as (_ & Hfresh & _).
  apply Hfresh.
  - vm_compute. reflexivity.
  - repeat constructor. intros Hin. by apply elem_of_nil in Hin.
  - intros statement _ Hin. by apply elem_of_nil in Hin.
Defined.

(** After [upgrade_environment] upgraded an environment below version 1,
    [environment_needs_upgrade] answers by [DB_VERSION] alone: no upgrade
    is needed when it is 1; an upgrade is still needed when it is larger,
    since [upgrade_environment] never goes beyond version 1; and
    [TracError] is raised when it is smaller. *)
Theorem environment_needs_upgrade_after_upgrade (DB_VERSION : Z)
    (DB_SYSTEM_KEY : string) (schema_sql : list string)
    (int_of_text : string → option Z) (text_of_int : Z → string)
    (db db' : Database) (v : Z) :
  (∀ z, int_of_text (text_of_int z) = Some z) →
  _get_version DB_SYSTEM_KEY int_of_text db = inr v → (v < 1)%Z →
  upgrade_environment DB_SYSTEM_KEY schema_sql int_of_text text_of_int db
  = inr db' →
  (DB_VERSION = 1%Z →
   environment_needs_upgrade DB_VERSION DB_SYSTEM_KEY int_of_text text_of_int
     db' = inr false)
  ∧ ((1 < DB_VERSION)%Z →
     environment_needs_upgrade DB_VERSION DB_SYSTEM_KEY int_of_text
       text_of_int db' = inr true)
  ∧ ((DB_VERSION < 1)%Z →
     ∃ msg,
       environment_needs_upgrade DB_VERSION DB_SYSTEM_KEY int_of_text
         text_of_int db' = inl (SetupTracError msg)).
Proof.
  intros Hround Hv Hlt Hup.
  apply upgrade_environment_inr in Hup as (v0 & Hv0 & Hdb').
  rewrite Hv in Hv0. injection Hv0 as <-.
  rewrite (proj2 (Z.ltb_lt v 1) Hlt) in Hdb'. subst db'.
  unfold environment_needs_upgrade.
  rewrite (_get_version_insert _ _ _ Hround).
  split; [|split].
  - intros ->. done.
  - intros Hgt. rewrite (proj2 (Z.ltb_ge DB_VERSION 1)) by lia.
    by rewrite (proj2 (Z.ltb_lt 1 DB_VERSION)).
  - intros Hsmall. rewrite (proj2 (Z.ltb_lt DB_VERSION 1)) by done.
    by eexists.
Qed.

Lemma environment_needs_upgrade_after_upgrade_witness :
  environment_needs_upgrade 1 "bloodhound_relations_version" Z_of_decimal
    decimal_of_Z
    {| system := {[ "bloodhound_relations_version" := "1";
                    "database_version" := "29" ]};
       statements := ["CREATE TABLE bloodhound_relations"] |}
  = inr false.
Proof.
  apply (environment_needs_upgrade_after_upgrade 1
           "bloodhound_relations_version"
           ["CREATE TABLE bloodhound_relations"] Z_of_decimal decimal_of_Z
           {| system := {[ "database_version" := "29" ]};
              statements := [] |}
           {| system := {[ "bloodhound_relations_version" := "1";
                           "database_version" := "29" ]};
              statements := ["CREATE TABLE bloodhound_relations"] |}
           (-1) Z_of_decimal_of_Z).
  - vm_compute. reflexivity.
  - lia.
  - vm_compute. reflexivity.
  - reflexivity.
Defined.

(** ** The configured links *)

Section _get_links_config_properties.

Context (strip capitalize : string → string) (config : ConfigSection).

Lemma _get_links_config_step_links acc name :
  cfg_links (_get_links_config_step strip capitalize config acc name)
  = cfg_links acc ++ [link_of_option strip config name].
Proof.
  unfold _get_links_config_step, link_of_option.
  pose proof (split_not_nil ","%char (config_get config name)) as Hnil.
  destruct (Str.split ","%char (config_get config name)) as [|w ws];
    [done|].
  simpl. by destruct ws.
Qed.

Lemma fold_get_links_config_links names acc :
  cfg_links (fold_left (_get_links_config_step strip capitalize config)
               names acc)
  = cfg_links acc ++ (link_of_option strip config <$> names).
Proof.
  revert acc. induction names as [|name names IH]; intros acc; simpl.
  - by rewrite app_nil_r.
  - by rewrite IH, _get_links_config_step_links, <- app_assoc.
Qed.

Lemma labelled_ends_snoc links end1 end2 :
  labelled_ends (links ++ [(end1, end2)])
  = labelled_ends links ++ end1 :: option_list (truthy end2).
Proof.
  unfold labelled_ends. rewrite flat_map_app. simpl. by rewrite app_nil_r.
Qed.

Lemma copy_fields_of_end_keys end_ (m : gmap string (list string)) t :
  is_Some (copy_fields_of_end config end_ m !! t) →
  is_Some (m !! t) ∨ truthy end_ = Some t.
Proof.
  unfold copy_fields_of_end. destruct (truthy end_) as [e|]; [|by left].
  destruct (config_contains config _); [|by left].
  rewrite lookup_insert_is_Some. intros [->|[_ ?]]; [by right|by left].
Qed.

Lemma _get_links_config_step_keys acc name :
  links_config_keys acc →
  links_config_keys (_get_links_config_step strip capitalize config acc name).
Proof.
  intros (Hlabels & Hblockers & Hvalidators & Hcopy).
  unfold _get_links_config_step.
  destruct (strip <$> Str.split ","%char (config_get config name))
    as [|end1 rest]; [done|].
  set (end2 := head rest).
  assert (∀ t, t ∈ labelled_ends (cfg_links acc ++ [(end1, end2)])
               ↔ t ∈ labelled_ends (cfg_links acc) ∨ t = end1
                 ∨ truthy end2 = Some t) as Hends.
  { intros t. rewrite labelled_ends_snoc, elem_of_app, elem_of_cons.
    destruct (truthy end2) as [e2|]; simpl.
    - rewrite list_elem_of_singleton. naive_solver.
    - rewrite elem_of_nil. naive_solver. }
  split; [|split; [|split]]; simpl; intros t; rewrite Hends.
  - destruct (truthy end2) as [e2|];
      rewrite ?lookup_insert_is_Some', Hlabels; naive_solver.
  - destruct (truthy end2) as [e2|];
      rewrite ?lookup_insert_is_Some', Hblockers; naive_solver.
  - destruct (str_true _); [|by left; apply Hvalidators].
    destruct (truthy end2) as [e2|];
      rewrite ?lookup_insert_is_Some'; naive_solver.
  - intros [[Hold|Hnew]%copy_fields_of_end_keys|Hnew]%copy_fields_of_end_keys.
    + left. by apply Hcopy.
    + right. left. simpl in Hnew. destruct end1; [done|]. by injection Hnew.
    + by right; right.
Qed.

Lemma _get_links_config_keys :
  links_config_keys (_get_links_config strip capitalize config).
Proof.
  unfold _get_links_config.
  generalize (link_option_names config). intros names.
  assert (links_config_keys
            {| cfg_links := []; cfg_labels := ∅; cfg_validators := ∅;
               cfg_blockers := ∅; cfg_copy_fields := ∅ |}) as Hempty.
  { split; [|split; [|split]]; simpl; intros t;
      rewrite ?lookup_empty, ?elem_of_nil; try split;
      first [by intros [? [=]] | by intros []]. }
  revert Hempty. generalize
    {| cfg_links := []; cfg_labels := ∅; cfg_validators := ∅;
       cfg_blockers := ∅; cfg_copy_fields := ∅ |}.
  induction names as [|name names IH]; intros acc Hacc; simpl; [done|].
  by apply IH, _get_links_config_step_keys.
Qed.

End _get_links_config_properties.

(** [_get_links_config] skips no option: its links are, in order, one per
    option whose name has no [.], made of the stripped first part of the
    option's value and, when the value holds a [,], the stripped second
    part; later parts are ignored. *)
Theorem _get_links_config_links (strip capitalize : string → string)
    (config : ConfigSection) :
  cfg_links (_get_links_config strip capitalize config)
  = link_of_option strip config <$> link_option_names config
  ∧ List.length (cfg_links (_get_links_config strip capitalize config))
    = List.length
        (List.filter (λ option, negb (Str.contains "."%char option))
           (fst <$> config_options config))
  ∧ ∀ name,
      (snd (link_of_option strip config name) = None
       ↔ Str.contains ","%char (config_get config name) = false).
Proof.
  assert (cfg_links (_get_links_config strip capitalize config)
          = link_of_option strip config <$> link_option_names config)
    as Hlinks.
  { unfold _get_links_config. by rewrite fold_get_links_config_links. }
  split; [done|]. split.
  - rewrite Hlinks, length_fmap. done.
  - intros name. unfold link_of_option. simpl.
    pose proof (split_length ","%char (config_get config name)) as Hlen.
    rewrite contains_occurrences.
    destruct (Str.split ","%char (config_get config name)) as [|w [|w' ws]];
      simpl in *; split; intros H; first [done | lia].
Qed.

(** Of a component built by [__init__], the types that have a label and a
    blocking flag are exactly the first ends of the links and the second
    ends that count as true: for these [render_relation_type] and
    [is_blocker] return, for every other type they raise [KeyError]; and no
    other type has a validator. *)
Theorem RelationsSystem_init_configured_types
    (strip capitalize : string → string) (config : ConfigSection)
    (e : Environment) (t : string) :
  let self := RelationsSystem_init strip capitalize config e in
  (t ∈ labelled_ends (_links self) →
   (∃ label, render_relation_type self t = Ok label)
   ∧ ∃ flag, is_blocker self t = Ok flag)
  ∧ (t ∉ labelled_ends (_links self) →
     render_relation_type self t = Raise (KeyError t)
     ∧ is_blocker self t = Raise (KeyError t)
     ∧ _validators self !! t = None
     ∧ _copy_fields self !! t = None).
Proof.
  intros self.
  destruct (_get_links_config_keys strip capitalize config)
    as (Hlabels & Hblockers & Hvalidators & Hcopy).
  unfold render_relation_type, is_blocker, getitem. simpl. split.
  - intros Ht.
    destruct (proj2 (Hlabels t) Ht) as [label ->].
    destruct (proj2 (Hblockers t) Ht) as [flag ->]. by split; eexists.
  - intros Ht.
    destruct (cfg_labels _ !! t) as [label|] eqn:Hl.
    { destruct Ht. apply Hlabels. by eexists. }
    destruct (cfg_blockers _ !! t) as [flag|] eqn:Hb.
    { destruct Ht. apply Hblockers. by eexists. }
    destruct (cfg_validators _ !! t) as [v|] eqn:Hv.
    { destruct Ht. apply Hvalidators. by eexists. }
    destruct (cfg_copy_fields _ !! t) as [c|] eqn:Hc.
    { destruct Ht. apply Hcopy. by eexists. }
    done.
Qed.

Lemma RelationsSystem_init_configured_types_witness :
  ∃ flag,
    is_blocker
      (RelationsSystem_init ascii_strip ascii_capitalize blocks_section
         (ticket_env (λ _, "new"))) "blocked_by" = Ok flag.
Proof.
  destruct (RelationsSystem_init_configured_types ascii_strip
              ascii_capitalize blocks_section (ticket_env (λ _, "new"))
              "blocked_by") as [Hconfigured _].
  apply Hconfigured.
  change (labelled_ends _) with ["blocks"; "blocked_by"].
  right. left.
Defined.

Lemma labelled_ends_cons end1 end2 links :
  labelled_ends ((end1, end2) :: links)
  = end1 :: option_list (truthy end2) ++ labelled_ends links.
Proof. reflexivity. Qed.

Section _get_links_config_validators.

Context (strip capitalize : string → string) (config : ConfigSection).

Lemma _get_links_config_step_validators acc name :
  let link := link_of_option strip config name in
  let validator := config_get config (name +:+ ".validator") in
  (∀ t, t ≠ fst link → truthy (snd link) ≠ Some t →
        cfg_validators (_get_links_config_step strip capitalize config acc name)
        !! t = cfg_validators acc !! t)
  ∧ (∀ t, t = fst link ∨ truthy (snd link) = Some t →
          cfg_validators
            (_get_links_config_step strip capitalize config acc name) !! t
          = if str_true validator then Some validator
            else cfg_validators acc !! t).
Proof.
  unfold _get_links_config_step, link_of_option.
  pose proof (split_not_nil ","%char (config_get config name)) as Hnil.
  destruct (Str.split ","%char (config_get config name)) as [|w ws];
    [done|].
  clear Hnil.
  assert (∀ (e2 : option string) (m : gmap string string) v,
            (∀ t, t ≠ strip w → truthy e2 ≠ Some t →
                  match truthy e2 with
                  | Some e => <[e := v]> (<[strip w := v]> m)
                  | None => <[strip w := v]> m
                  end !! t = m !! t)
            ∧ (∀ t, t = strip w ∨ truthy e2 = Some t →
                    match truthy e2 with
                    | Some e => <[e := v]> (<[strip w := v]> m)
                    | None => <[strip w := v]> m
                    end !! t = Some v)) as Hinsert.
  { intros e2 m v. destruct (truthy e2) as [e|]; split; intros t.
    - intros H1 H2. rewrite !lookup_insert_ne; [done|done|congruence].
    - intros [->|[= ->]]; [|by rewrite lookup_insert_eq].
      destruct (decide (e = strip w)) as [->|Hne].
      + by rewrite lookup_insert_eq.
      + rewrite lookup_insert_ne by done. by rewrite lookup_insert_eq.
    - intros H1 _. by rewrite lookup_insert_ne.
    - intros [->|[=]]. by rewrite lookup_insert_eq. }
  assert (head (strip <$> ws) = strip <$> head ws) as Hhead by by destruct ws.
  cbn [fmap list_fmap cfg_validators fst snd List.hd List.tl].
  change (list_fmap string string strip ws) with (strip <$> ws).
  rewrite Hhead.
  destruct (str_true (config_get config (name +:+ ".validator")));
    [apply Hinsert|done].
Qed.

Lemma fold_get_links_config_validators names acc t :
  t ∉ labelled_ends (link_of_option strip config <$> names) →
  cfg_validators
    (fold_left (_get_links_config_step strip capitalize config) names acc)
  !! t = cfg_validators acc !! t.
Proof.
  revert acc. induction names as [|name names IH]; intros acc; [done|].
  rewrite fmap_cons.
  destruct (link_of_option strip config name) as [end1 end2] eqn:Hlink.
  rewrite labelled_ends_cons. cbn [fold_left].
  intros Ht. apply not_elem_of_cons in Ht as [Hne Ht].
  apply not_elem_of_app in Ht as [Hne2 Ht].
  rewrite IH by done.
  apply (_get_links_config_step_validators acc name); rewrite Hlink; simpl.
  - done.
  - intros Heq. rewrite Heq in Hne2. simpl in Hne2.
    by apply Hne2, list_elem_of_singleton.
Qed.

End _get_links_config_validators.

(** When no labelled end is configured twice, the two ends of a link share
    the validator of the option that declares them: the first end, and the
    second end when it counts as true, have the value of
    [<option>.validator] as validator when that value is not empty, and no
    validator otherwise. *)
Theorem _get_links_config_validator_shared
    (strip capitalize : string → string) (config : ConfigSection)
    (name : string) :
  NoDup (labelled_ends
           (link_of_option strip config <$> link_option_names config)) →
  name ∈ link_option_names config →
  let validators :=
    cfg_validators (_get_links_config strip capitalize config) in
  let validator := config_get config (name +:+ ".validator") in
  ∀ t, t = fst (link_of_option strip config name)
       ∨ truthy (snd (link_of_option strip config name)) = Some t →
       validators !! t = if str_true validator then Some validator else None.
Proof.
  intros Hnd (pre & post & Hsplit)%list_elem_of_split validators validator
    t Ht.
  unfold validators, _get_links_config. rewrite Hsplit in Hnd |- *.
  rewrite fold_left_app. simpl.
  rewrite fmap_app, fmap_cons in Hnd.
  destruct (link_of_option strip config name) as [end1 end2] eqn:Hlink.
  unfold labelled_ends in Hnd. rewrite flat_map_app in Hnd.
  fold (labelled_ends (link_of_option strip config <$> pre)) in Hnd.
  fold (labelled_ends ((end1, end2)
                       :: (link_of_option strip config <$> post))) in Hnd.
  rewrite labelled_ends_cons in Hnd.
  simpl in Ht.
  apply NoDup_app in Hnd as (_ & Hpre & Hnd).
  assert (t ∈ end1 :: option_list (truthy end2)) as Hin.
  { destruct Ht as [->|Ht]; [left|]. right. rewrite Ht. simpl. left. }
  assert (t ∉ labelled_ends (link_of_option strip config <$> pre)) as Hnpre.
  { intros Hin'. apply (Hpre t Hin'). apply elem_of_cons in Hin as [->|Hin];
      [left|]. right. apply elem_of_app. by left. }
  assert (t ∉ labelled_ends (link_of_option strip config <$> post))
    as Hnpost.
  { change (end1 :: option_list (truthy end2)
            ++ labelled_ends (link_of_option strip config <$> post))
      with ((end1 :: option_list (truthy end2))
            ++ labelled_ends (link_of_option strip config <$> post)) in Hnd.
    apply NoDup_app in Hnd as (_ & Hdisj & _). by apply Hdisj. }
  rewrite fold_get_links_config_validators by done.
  destruct (_get_links_config_step_validators strip capitalize config
              (fold_left (_get_links_config_step strip capitalize config) pre
                 {| cfg_links := []; cfg_labels := ∅; cfg_validators := ∅;
                    cfg_blockers := ∅; cfg_copy_fields := ∅ |}) name)
    as [_ Hends].
  rewrite Hlink in Hends. rewrite (Hends t Ht).
  fold validator. destruct (str_true validator); [done|].
  rewrite fold_get_links_config_validators by done. apply lookup_empty.
Qed.

Lemma _get_links_config_validator_shared_witness :
  cfg_validators
    (_get_links_config ascii_strip ascii_capitalize blocks_section)
  !! "blocked_by" = Some "no_cycle".
Proof.
  apply (_get_links_config_validator_shared ascii_strip ascii_capitalize
           blocks_section "blocks").
  - change (labelled_ends _) with ["blocks"; "blocked_by"].
    repeat constructor; rewrite ?elem_of_cons, ?elem_of_nil; naive_solver.
  - change (link_option_names blocks_section) with ["blocks"]. left.
  - right. vm_compute. reflexivity.
Defined.

(** ** Completeness of the blocker search *)

Lemma find_blockers_loop_extends self rec relations blockers result :
  (∀ linked b res, rec linked b = Ok res → ∃ new, res = b ++ new) →
  find_blockers_loop self rec relations blockers = Ok result →
  ∃ new, result = blockers ++ new.
Proof.
  intros Hrec. revert blockers.
  induction relations as [|linked relations IH]; intros blockers; simpl.
  - intros [= <-]. exists []. by rewrite app_nil_r.
  - destruct (_create_resource_instance_by_full_id self (destination linked))
      as [t|e]; simpl; [|done].
    destruct (_is_resource_blocked self t).
    + intros [new ->]%IH. exists (t :: new). by rewrite <- app_assoc.
    + destruct (rec linked blockers) as [b'|e] eqn:Hcall; simpl; [|done].
      apply Hrec in Hcall as [new1 ->].
      intros [new2 ->]%IH. exists (new1 ++ new2). by rewrite app_assoc.
Qed.

Lemma find_blockers_extends self depth st relation blockers result :
  find_blockers self depth st relation blockers = Ok result →
  ∃ new, result = blockers ++ new.
Proof.
  revert relation blockers result.
  induction depth as [|depth IH]; intros relation blockers result; [done|].
  rewrite find_blockers_S. by apply find_blockers_loop_extends.
Qed.

Lemma find_blockers_loop_visits self rec relations blockers result linked t :
  (∀ linked b res, rec linked b = Ok res → ∃ new, res = b ++ new) →
  find_blockers_loop self rec relations blockers = Ok result →
  linked ∈ relations →
  _create_resource_instance_by_full_id self (destination linked) = Ok t →
  if _is_resource_blocked self t then t ∈ result
  else ∃ b res, rec linked b = Ok res ∧ ∀ t', t' ∈ res → t' ∈ result.
Proof.
  intros Hrec. revert blockers.
  induction relations as [|first relations IH]; intros blockers Hrun Hin Ht.
  { by apply elem_of_nil in Hin. }
  simpl in Hrun.
  destruct (_create_resource_instance_by_full_id self (destination first))
    as [t1|e] eqn:Hcreate; simpl in Hrun; [|done].
  apply elem_of_cons in Hin as [->|Hin].
  - rewrite Ht in Hcreate. injection Hcreate as <-.
    destruct (_is_resource_blocked self t).
    + apply (find_blockers_loop_extends self rec) in Hrun as [new ->];
        [|done].
      apply elem_of_app. left. apply elem_of_app. right. left.
    + destruct (rec first blockers) as [b'|e] eqn:Hcall; simpl in Hrun;
        [|done].
      exists blockers, b'. split; [done|]. intros t' Ht'.
      apply (find_blockers_loop_extends self rec) in Hrun as [new ->];
        [|done].
      apply elem_of_app. by left.
  - destruct (_is_resource_blocked self t1).
    + by apply (IH _ Hrun).
    + destruct (rec first blockers) as [b'|e]; simpl in Hrun; [|done].
      by apply (IH _ Hrun).
Qed.

(** When [find_blockers] returns, its result holds every ticket that is not
    closed and that a stored row points to whose source is the relation's
    destination or is reached from it along rows leading to closed
    tickets. *)
Theorem find_blockers_complete (self : RelationsSystem) (depth : nat)
    (st : store) (relation : Relation) (blockers result : list Ticket)
    (x : string) (r : Relation) (t : Ticket) :
  find_blockers self depth st relation blockers = Ok result →
  rtc (closed_edge self st) (destination relation) x →
  r ∈ st → source r = x →
  _create_resource_instance_by_full_id self (destination r) = Ok t →
  _is_resource_blocked self t = true →
  t ∈ result.
Proof.
  intros Hrun Hpath Hin Hs Ht Hopen.
  revert relation blockers result Hrun Hpath.
  induction depth as [|depth IH]; intros relation blockers result Hrun Hpath;
    [done|].
  rewrite find_blockers_S in Hrun.
  apply rtc_inv in Hpath as [<-|(y & Hstep & Hpath)].
  - pose proof (find_blockers_loop_visits self _ _ _ _ r t
                  (find_blockers_extends self depth st) Hrun) as Hvisit.
    rewrite Hopen in Hvisit. apply Hvisit; [|done].
    by apply elem_of_select_by_source_None.
  - destruct Hstep as (r1 & t1 & Hin1 & Hs1 & Hd1 & Ht1 & Hclosed).
    pose proof (find_blockers_loop_visits self _ _ _ _ r1 t1
                  (find_blockers_extends self depth st) Hrun) as Hvisit.
    rewrite Hd1, Hclosed in Hvisit.
    destruct Hvisit as (b & res & Hcall & Hres); [|done|].
    { by apply elem_of_select_by_source_None. }
    apply Hres. apply (IH r1 b res Hcall). by rewrite Hd1.
Qed.

Lemma find_blockers_complete_witness :
  {| ticket_prefix := ""; ticket_id := "3" |}
  ∈ [{| ticket_prefix := ""; ticket_id := "3" |}].
Proof.
  apply (find_blockers_complete
           (blocks_system
              (ticket_env (λ n, if String.eqb n "2" then "closed" else "new")))
           3 [row "1" "2" "blocks"; row "2" "3" "blocks"]
           (row "1" "2" "blocks") [] _ ":ticket:2" (row "2" "3" "blocks")).
  - vm_compute. reflexivity.
  - apply rtc_refl.
  - right. left.
  - reflexivity.
  - vm_compute. reflexivity.
  - vm_compute. reflexivity.
Defined.

(** ** The validators on resources of the global environment *)

(** For a relation from A to B whose type T has the validator [no_cycle],
    between resources of the global environment: whenever the cycle search
    returns, validation rejects the relation if and only if a path of
    stored rows of type T leads from B to A (B = A included), and the
    reason is [Cycle in <label of T>: ] followed by the names of the
    resources of such a path, from B to A, joined by [ -> ]. The search
    returns when no cycle of rows of type T can be reached from B and the
    recursion limit exceeds the number of stored rows. *)
Theorem no_cycle_validation (self : RelationsSystem) (depth : nat)
    (st : store) (relation : Relation) (label : string) :
  _validators self !! type relation = Some "no_cycle" →
  _labels self !! type relation = Some label →
  global_id (destination relation) →
  (∀ r, r ∈ st → type r = type relation → global_id (destination r)) →
  (∀ r,
     _find_cycle depth st (source relation) relation [] = Ok r →
     (same_type_path st (type relation) (destination relation)
        (source relation) →
      ∃ cycle,
        head cycle = Some (destination relation)
        ∧ last cycle = Some (source relation)
        ∧ chain st (type relation) cycle
        ∧ validate self depth st relation
          = Raise (ValidationError
                     ("Cycle in " +:+ label +:+ ": "
                      +:+ Str.join " -> "
                            (resource_name (env self) <$> cycle))))
     ∧ (¬ same_type_path st (type relation) (destination relation)
            (source relation) →
        validate self depth st relation = Ok tt))
  ∧ (acyclic_from st (type relation) (destination relation) →
     (List.length st < depth)%nat →
     ∃ r, _find_cycle depth st (source relation) relation [] = Ok r).
Proof.
  intros Htag Hlabel Hglobal Hst. split.
  - intros r Hrun.
    pose proof (_validate_no_cycle_result self depth st relation label r
                  Hlabel Hglobal Hst Hrun) as Hres.
    unfold validate. rewrite (_get_validator_no_cycle self _ Htag).
    destruct r as [cycle|].
    + destruct Hres as (Hh & Hl & Hc & ->). split.
      * intros _. by exists cycle.
      * intros Hno. destruct Hno. by eapply chain_rtc.
    + destruct Hres as [Hno ->]. split; [done|]. by intros _.
  - intros Hacyclic Hdepth. by apply _find_cycle_returns.
Qed.

Lemma no_cycle_validation_witness :
  ∃ cycle,
    head cycle = Some ":ticket:2"
    ∧ last cycle = Some ":ticket:1"
    ∧ chain [row "2" "1" "dependson"; row "1" "2" "dependson"]
        "dependson" cycle
    ∧ validate (dependson_system (ticket_env (λ _, "new"))) 2
        [row "2" "1" "dependson"; row "1" "2" "dependson"]
        (row "1" "2" "dependson")
      = Raise (ValidationError
                 ("Cycle in Dependson: "
                  +:+ Str.join " -> "
                        (resource_name (ticket_env (λ _, "new")) <$> cycle))).
Proof.
  destruct (no_cycle_validation (dependson_system (ticket_env (λ _, "new"))) 2
              [row "2" "1" "dependson"; row "1" "2" "dependson"]
              (row "1" "2" "dependson") "Dependson") as [Hreturned _].
  - vm_compute. reflexivity.
  - vm_compute. reflexivity.
  - by apply global_id_ticket.
  - intros r Hr _. rewrite !elem_of_cons, elem_of_nil in Hr.
    destruct Hr as [->|[->|[]]]; by apply global_id_ticket.
  - destruct (Hreturned (Some [":ticket:2"; ":ticket:1"])) as [Hreject _].
    + vm_compute. reflexivity.
    + apply Hreject. apply rtc_once. exists (row "2" "1" "dependson").
      split; [apply list_elem_of_here|done].
Defined.

(** For a relation of the type [parent] under the validator [parent_child]
    that passes the cycle check, when the source already has a stored
    relation of that type: between resources of the global environment
    validation rejects it, and the reason reads
    [Multiple links in '<label>': #<source> -> [<parents>]], where the
    parents are the destinations of all stored [parent] rows of the source
    (the rows selected, a permutation of the matching rows of the table);
    for a source of a product the name lookup for that reason ends in
    [TypeError]. *)
Theorem parent_validation_rejects_second_parent (self : RelationsSystem)
    (depth : nat) (st : store) (relation : Relation) (label : string) :
  _validators self !! PARENT_RELATION_TYPE = Some "parent_child" →
  type relation = PARENT_RELATION_TYPE →
  _labels self !! PARENT_RELATION_TYPE = Some label →
  _validate_no_cycle self depth st relation = Ok None →
  (∃ r, r ∈ st ∧ source r = source relation ∧ type r = type relation) →
  let parents :=
    _select_relations_by_source st (source relation) (Some (type relation)) in
  parents
  ≡ₚ List.filter
       (λ r, String.eqb (source r) (source relation)
             && String.eqb (type r) (type relation)) st
  ∧ (global_id (source relation) →
     (∀ r, r ∈ st → source r = source relation → type r = type relation →
           global_id (destination r)) →
     validate self depth st relation
     = Raise (ValidationError
                ("Multiple links in '" +:+ label +:+ "': #"
                 +:+ resource_name (env self) (source relation) +:+ " -> ["
                 +:+ Str.join ", "
                       ((λ r, resource_name (env self) (destination r))
                          <$> parents)
                 +:+ "]")))
  ∧ (product_id (source relation) →
     validate self depth st relation = Raise TypeError).
Proof.
  intros Htag Htype Hlabel Hcycle (r0 & Hin0 & Hs0 & Ht0) parents.
  assert (parents
          ≡ₚ List.filter
               (λ r, String.eqb (source r) (source relation)
                     && String.eqb (type r) (type relation)) st) as Hperm.
  { unfold parents, _select_relations_by_source.
    replace (truthy (Some (type relation))) with (Some (type relation))
      by by rewrite Htype.
    unfold Relation_select. by rewrite merge_sort_Permutation. }
  assert (∀ r, r ∈ parents
               ↔ r ∈ st ∧ source r = source relation
                 ∧ type r = type relation) as Hparents.
  { intros r. rewrite Hperm, !list_elem_of_In, filter_In.
    by rewrite andb_true_iff, !String.eqb_eq. }
  assert (validate self depth st relation
          = bind (_validate_parent self depth st relation)
              (λ result,
                 match result with
                 | Some reason => Raise (ValidationError reason)
                 | None => Ok tt
                 end)) as Hval.
  { unfold validate.
    replace (_get_validator self (type relation)) with (_validate_parent self)
      by (rewrite Htype; symmetry; by apply _get_validator_parent).
    done. }
  rewrite Hval. unfold _validate_parent. rewrite Hcycle. cbn [bind].
  replace (String.eqb (type relation) PARENT_RELATION_TYPE) with true
    by (symmetry; by apply String.eqb_eq).
  change (_select_relations_by_source st (source relation)
            (Some (type relation))) with parents.
  clearbody parents. destruct parents as [|p ps].
  { assert (r0 ∈ @nil Relation) as Hnil by by apply Hparents.
    by apply elem_of_nil in Hnil. }
  split; [done|]. split.
  - intros Hglobal Hst.
    rewrite _get_resource_name_from_id_global by done. cbn [bind].
    rewrite (comprehension_Ok _
               (λ r, resource_name (env self) (destination r))).
    + cbn [bind].
      assert (type (List.last (p :: ps) relation) = PARENT_RELATION_TYPE)
        as ->.
      { rewrite <- Htype. by apply Hparents, last_elem_of. }
      unfold render_relation_type, getitem. by rewrite Hlabel.
    + intros r Hr. apply _get_resource_name_from_id_global.
      apply Hparents in Hr as (? & ? & ?). by apply Hst.
  - intros Hproduct.
    by rewrite _get_resource_name_from_id_product.
Qed.

Lemma parent_validation_rejects_second_parent_witness :
  validate (parent_child_system (ticket_env (λ _, "new"))) 1
    [row "1" "2" "parent"; row "2" "1" "child"] (row "1" "3" "parent")
  = Raise (ValidationError "Multiple links in 'Parent': ##1 -> [#2]").
Proof.
  destruct (parent_validation_rejects_second_parent
              (parent_child_system (ticket_env (λ _, "new"))) 1
              [row "1" "2" "parent"; row "2" "1" "child"]
              (row "1" "3" "parent") "Parent") as (_ & Hreject & _).
  - vm_compute. reflexivity.
  - reflexivity.
  - vm_compute. reflexivity.
  - vm_compute. reflexivity.
  - exists (row "1" "2" "parent"). split; [apply list_elem_of_here|done].
  - apply Hreject; [by apply global_id_ticket|].
    intros r [-> | [-> | Hr]%elem_of_cons]%elem_of_cons Hs Ht.
    + by apply global_id_ticket.
    + discriminate Ht.
    + by apply elem_of_nil in Hr.
Defined.
